(** * pyimfit: the model-description layer (src/pyimfit/descriptions.py)

    A shallow embedding of the classes [ParameterDescription],
    [FunctionDescription], [FunctionSetDescription], [ModelDescription] and
    [SimpleModelDescription], and the properties of them that the
    specification states.

    Numbers.  The Python code computes with floats (and accepts ints); here
    every number is an exact rational [Qc].  Comparisons are exact on
    floats as they are here.  The two methods that compute new numbers,
    [setTolerance] and [setLimitsRel], take the arithmetic operations as
    parameters ([setTolerance_with], [setLimitsRel_with]), so that what
    is proved of them can rest on what rounding preserves; under the
    names of the methods they stand with the exact operations, which
    agree with the floats wherever these do not round.  Infinities and
    NaN are outside the model.

    Objects.  A [ParameterDescription] holds only immutable field values
    (a string, numbers, a tuple, a bool), so its methods are functions from
    the fields before the call to the fields after it.  The container
    classes hold references to other objects; they live in a heap of
    objects addressed by location (second part of the file), so that
    aliasing between a description and its copies can be observed. *)

From Stdlib Require Import QArith Qcanon Lqa.
From stdpp Require Import base option numbers list strings gmap.

Open Scope string_scope.
Open Scope list_scope.

(** ** Exceptions and results *)

(** The exception classes the module raises, each with its message.
    [AttributeError] is raised by the interpreter, when [setattr] meets
    a property that has no setter; the text of its message depends on
    the interpreter's version and is left out. *)
Inductive exn : Type :=
| ValueError (msg : string)
| KeyError (msg : string)
| TypeError (msg : string)
| IndexError (msg : string)
| AttributeError
| Exception (msg : string).

(** The outcome of a call: a returned value or a raised exception. *)
Inductive result (A : Type) : Type :=
| Ok (a : A)
| Raise (e : exn).
Arguments Ok {A} a.
Arguments Raise {A} e.

(** ** ParameterDescription *)

(** The instance attributes [_name], [_value], [_limits] and [fixed] of a
    [ParameterDescription]. *)
Module PD.
Record t : Type := mk {
  _name : string;
  _value : Qc;
  _limits : option (Qc * Qc);
  fixed : bool
}.
End PD.

Module ParameterDescription.

Import PD.
Local Open Scope Qc_scope.

(** What a caller may pass in the [vmin] position of [setValue]: a number,
    or a sequence (list, tuple, array) of numbers. *)
Inductive bound_arg : Type :=
| Scalar (x : Qc)
| Seq (xs : list Qc).

Definition Qcltb (x y : Qc) : bool := bool_decide (x < y).
Definition Qcleb (x y : Qc) : bool := bool_decide (x <= y).

(** [lower_limit, upper_limit = vmin]: unpacking a number raises TypeError,
    which [setValue] turns into its own ValueError; unpacking a sequence
    whose length is not two raises ValueError, which [setValue] does not
    catch. *)
Definition unpack_pair (vmin : bound_arg) : result (Qc * Qc) :=
  match vmin with
  | Scalar _ =>
      Raise (ValueError "If vmax is None, vmin must be None or two-element iterable.")
  | Seq [lo; hi] => Ok (lo, hi)
  | Seq (_ :: _ :: _ :: _) => Raise (ValueError "too many values to unpack (expected 2)")
  | Seq _ => Raise (ValueError "not enough values to unpack (expected 2)")
  end.

(** Lines 117-124 of [setValue]: the test for valid limits, once
    [lower_limit] and [upper_limit] are numbers. *)
Definition clamp_limits (value lower_limit upper_limit : Qc) : result (Qc * Qc) :=
  let '(lower_limit, upper_limit) :=
    if Qcltb value lower_limit then (value, upper_limit)
    else if Qcltb upper_limit value then (lower_limit, value)
    else (lower_limit, upper_limit) in
  if Qcleb upper_limit lower_limit
  then Raise (ValueError "Lower limit must be < upper limit.")
  else Ok (lower_limit, upper_limit).

(** [setValue(self, value, vmin=None, vmax=None, fixed=False)].  [None]
    is the absent argument.  With both [vmin] and [vmax] given, a sequence
    in the [vmin] position reaches [value < lower_limit], which Python
    refuses with TypeError. *)
Definition setValue (value : Qc) (vmin : option bound_arg) (vmax : option Qc)
    (fixed' : bool) (self : PD.t) : result PD.t :=
  match vmin with
  | Some vmin' =>
      let bounds :=
        match vmax with
        | None => unpack_pair vmin'
        | Some hi =>
            match vmin' with
            | Scalar lo => Ok (lo, hi)
            | Seq _ => Raise (TypeError "'<' not supported between a number and a sequence")
            end
        end in
      match bounds with
      | Raise e => Raise e
      | Ok (lower_limit, upper_limit) =>
          match clamp_limits value lower_limit upper_limit with
          | Raise e => Raise e
          | Ok lims => Ok (PD.mk (_name self) value (Some lims) fixed')
          end
      end
  | None => Ok (PD.mk (_name self) value (_limits self) fixed')
  end.

(** [__init__(self, name, value, vmin=None, vmax=None, fixed=False)]:
    [_name] and [_limits = None] are set, then [setValue] runs.  [_value]
    and [fixed] do not exist before that call, which writes them without
    reading them; the record passed on holds placeholders there. *)
Definition __init__ (name : string) (value : Qc) (vmin : option bound_arg)
    (vmax : option Qc) (fixed' : bool) : result PD.t :=
  setValue value vmin vmax fixed' (PD.mk name 0 None false).

(** [setTolerance(self, tol)], with the multiplication, the subtraction
    and the addition of the floats as [mul], [sub] and [add]. *)
Definition setTolerance_with (mul sub add : Qc → Qc → Qc) (tol : Qc) (self : PD.t)
    : result PD.t :=
  if Qcltb 1 tol || Qcltb tol 0
  then Raise (ValueError "Tolerance must be between 0.0 and 1.0.")
  else Ok (PD.mk (_name self) (_value self)
             (Some (mul (_value self) (sub 1 tol), mul (_value self) (add 1 tol)))
             (fixed self)).

(** [setTolerance(self, tol)] with the exact operations. *)
Definition setTolerance (tol : Qc) (self : PD.t)
    : result PD.t :=
  Eval cbv beta delta [setTolerance_with] in
  setTolerance_with Qcmult Qcminus Qcplus tol self.

(** [setLimits(self, v1, v2)]. *)
Definition setLimits (v1 v2 : Qc) (self : PD.t)
    : result PD.t :=
  if Qcleb v2 v1 then Raise (ValueError "v2 must be larger than v1.")
  else
    let '(v1, v2) :=
      if Qcltb (_value self) v1 then (_value self, v2)
      else if Qcltb v2 (_value self) then (v1, _value self)
      else (v1, v2) in
    Ok (PD.mk (_name self) (_value self) (Some (v1, v2)) (fixed self)).

(** [setLimitsRel(self, i1, i2)], with the subtraction and the addition
    of the floats as [sub] and [add]. *)
Definition setLimitsRel_with (sub add : Qc → Qc → Qc) (i1 i2 : Qc) (self : PD.t)
    : result PD.t :=
  if Qcltb i1 0 || Qcltb i2 0
  then Raise (ValueError "Limit intervals must be positive.")
  else setLimits (sub (_value self) i1) (add (_value self) i2) self.

(** [setLimitsRel(self, i1, i2)] with the exact operations. *)
Definition setLimitsRel (i1 i2 : Qc) (self : PD.t)
    : result PD.t :=
  Eval cbv beta delta [setLimitsRel_with] in
  setLimitsRel_with Qcminus Qcplus i1 i2 self.

(** [__eq__(self, rhs)]: the tuple comparison [_limits == rhs._limits] is
    [None == None], or componentwise equality of two pairs. *)
Definition limits_eqb (a b : option (Qc * Qc)) : bool :=
  match a, b with
  | None, None => true
  | Some (l1, u1), Some (l2, u2) => bool_decide (l1 = l2) && bool_decide (u1 = u2)
  | _, _ => false
  end.

Definition __eq__ (self rhs : PD.t) : bool :=
  if String.eqb (_name self) (_name rhs)
     && bool_decide (_value self = _value rhs)
     && limits_eqb (_limits self) (_limits rhs)
  then true else false.

(** The invariant of the specification: limits, when present, are a
    proper interval that contains the value. *)
Definition bounds_ok (p : PD.t) : Prop :=
  match _limits p with
  | None => True
  | Some (lower, upper) => lower < upper ∧ lower <= _value p ∧ _value p <= upper
  end.

(** The three operations the invariant speaks of, as a small command
    language, and the run of a sequence of them that stops at the first
    exception. *)
Inductive op : Type :=
| OpSetValue (value : Qc) (vmin : option bound_arg) (vmax : option Qc) (fixed' : bool)
| OpSetTolerance (tol : Qc)
| OpSetLimits (v1 v2 : Qc).

Definition run_op (o : op) (p : PD.t) : result PD.t :=
  match o with
  | OpSetValue v lo hi f => setValue v lo hi f p
  | OpSetTolerance tol => setTolerance tol p
  | OpSetLimits v1 v2 => setLimits v1 v2 p
  end.

Fixpoint run_ops (os : list op) (p : PD.t) : result PD.t :=
  match os with
  | [] => Ok p
  | o :: os' =>
      match run_op o p with
      | Ok p' => run_ops os' p'
      | Raise e => Raise e
      end
  end.

(** The operations that store limits through the clamping code:
    [setLimits], and [setValue] called with a [vmin]. *)
Definition stores_checked_limits (o : op) : bool :=
  match o with
  | OpSetValue _ (Some _) _ _ => true
  | OpSetLimits _ _ => true
  | _ => false
  end.

End ParameterDescription.


(** ** The object heap *)

(** A location names an object; two references are the same object exactly
    when they are the same location ([is]). *)
Abbreviation loc := nat.

(** The instance attributes of the container classes.  The attributes
    that [__init__] creates are the fields of the record; [attrs] holds
    the attributes that [setattr(self, child.name, child)] adds under
    labels that name nothing else in the instance or its class (see
    [slot] below), so the keys of [attrs] are such labels only. *)
Module FD.
Record t : Type := mk {
  funcType : string;
  _name : string;
  _parameters : loc;
  attrs : gmap string loc
}.
End FD.

Module FSD.
Record t : Type := mk {
  _name : string;
  x0 : loc;
  y0 : loc;
  _functions : loc;
  attrs : gmap string loc
}.
End FSD.

(** [simple] tells the class of the instance: [SimpleModelDescription]
    when true, [ModelDescription] itself otherwise.  The [options] dict is
    created by [__init__] for this instance alone and is stored inline. *)
Module MD.
Record t : Type := mk {
  simple : bool;
  options : gmap string Qc;
  _functionSets : loc;
  attrs : gmap string loc
}.
End MD.

(** A heap object: an instance of one of the four classes, a Python list
    of references, or any other value ([None], a number, a string, ...). *)
Inductive obj : Type :=
| OParam (p : PD.t)
| OList (xs : list loc)
| OFunc (f : FD.t)
| OFSet (s : FSD.t)
| OModel (m : MD.t)
| OOther.

(** Objects are never freed; a new object takes the next location. *)
Abbreviation heap := (list obj).

(** A method call: from the heap before it to its result and the heap
    after it.  [None] is a heap the classes cannot build: a location that
    is not allocated, or an attribute holding an object of a class the
    method does not expect.  What Python does there is not modelled. *)
Definition M (A : Type) : Type := heap → option (result A * heap).

Definition ret {A} (a : A) : M A := λ h, Some (Ok a, h).
Definition raise {A} (e : exn) : M A := λ h, Some (Raise e, h).
Definition stuck {A} : M A := λ _, None.
Definition bind {A B} (m : M A) (k : A → M B) : M B := λ h,
  match m h with
  | Some (Ok a, h') => k a h'
  | Some (Raise e, h') => Some (Raise e, h')
  | None => None
  end.

Declare Scope heap_scope.
Delimit Scope heap_scope with heap.
Notation "'do' x <- m ; k" := (bind m (λ x, k))
  (at level 10, x name, m at level 100, k at level 200) : heap_scope.
Notation "'do' ' p <- m ; k" := (bind m (λ x, match x with p => k end))
  (at level 10, p pattern, m at level 100, k at level 200) : heap_scope.
Notation "m ;; k" := (bind m (λ _, k))
  (at level 100, k at level 200, right associativity) : heap_scope.
Local Open Scope heap_scope.

(** Reading an object, creating one, and overwriting one in place. *)
Definition get (l : loc) : M obj := λ h,
  match h !! l with Some o => Some (Ok o, h) | None => None end.
Definition alloc (o : obj) : M loc := λ h, Some (Ok (List.length h), h ++ [o]).
Definition put (l : loc) (o : obj) : M unit := λ h,
  if decide (l < List.length h)%nat then Some (Ok (), <[l := o]> h) else None.

(** A computation that only reads the heap. *)
Definition lift {A} (f : heap → option A) : M A := λ h,
  match f h with Some a => Some (Ok a, h) | None => None end.

(** Typed reads. *)
Definition get_param (h : heap) (l : loc) : option PD.t :=
  match h !! l with Some (OParam p) => Some p | _ => None end.
Definition get_list (h : heap) (l : loc) : option (list loc) :=
  match h !! l with Some (OList xs) => Some xs | _ => None end.
Definition get_func (h : heap) (l : loc) : option FD.t :=
  match h !! l with Some (OFunc f) => Some f | _ => None end.
Definition get_fset (h : heap) (l : loc) : option FSD.t :=
  match h !! l with Some (OFSet s) => Some s | _ => None end.
Definition get_model (h : heap) (l : loc) : option MD.t :=
  match h !! l with Some (OModel m) => Some m | _ => None end.

(** [lst.append(x)] on the list object at [l]. *)
Definition list_append (l x : loc) : M unit :=
  do xs <- lift (λ h, get_list h l);
  put l (OList (xs ++ [x])).

(** [copy(x)] from the [copy] module, for an instance of a class without
    [__copy__]: a new object with the same attribute values. *)
Definition copy (x : loc) : M loc :=
  do o <- get x;
  match o with
  | OParam _ | OFunc _ | OFSet _ | OModel _ => alloc o
  | OList xs => alloc (OList xs)
  | OOther => stuck
  end.

(** Equality of two Python lists: equal lengths, and the items equal
    position by position, where an item equals itself without its
    [__eq__] being asked. *)
Fixpoint items_eq (item_eq : loc → loc → option bool) (xs ys : list loc)
    : option bool :=
  match xs, ys with
  | [], [] => Some true
  | x :: xs', y :: ys' =>
      b ← (if decide (x = y) then Some true else item_eq x y);
      if b : bool then items_eq item_eq xs' ys' else Some false
  | _, _ => Some false
  end.

Definition pylist_eq (item_eq : loc → loc → option bool) (xs ys : list loc)
    : option bool :=
  if decide (List.length xs = List.length ys) then items_eq item_eq xs ys else Some false.

(** The memo of [deepcopy]: from the objects already copied to their
    copies. *)
Abbreviation memo := (gmap loc loc).

(** [_deepcopy_list(x, memo)] after [y = []; memo[id(x)] = y]: each item is
    deep-copied by [dc] and appended to [y]. *)
Fixpoint deepcopy_items (dc : loc → memo → M (loc * memo)) (y : loc)
    (xs : list loc) (mm : memo) : M memo :=
  match xs with
  | [] => ret mm
  | a :: xs' =>
      do '(a', mm') <- dc a mm;
      list_append y a' ;;
      deepcopy_items dc y xs' mm'
  end.

(** [deepcopy(x, memo)] for a list [x] whose items are deep-copied by
    [dc]. *)
Definition deepcopy_list (dc : loc → memo → M (loc * memo)) (x : loc) (mm : memo)
    : M (loc * memo) :=
  match mm !! x with
  | Some y => ret (y, mm)
  | None =>
      do xs <- lift (λ h, get_list h x);
      do y <- alloc (OList []);
      do mm' <- deepcopy_items dc y xs (<[x := y]> mm);
      ret (y, <[x := y]> mm')
  end.

(** [deepcopy(x, memo)] for an instance [x] of a class with a
    [__deepcopy__] method: the memo is asked first, and the result is
    recorded in it.  ([_keep_alive], which only keeps [x] from being
    collected, has no counterpart here: objects are never freed.) *)
Definition deepcopy_via (dunder : loc → memo → M (loc * memo)) (x : loc) (mm : memo)
    : M (loc * memo) :=
  match mm !! x with
  | Some y => ret (y, mm)
  | None =>
      do '(y, mm') <- dunder x mm;
      ret (y, if decide (y = x) then mm' else <[x := y]> mm')
  end.

(** [for x in xs: body(x)], stopping at the first exception. *)
Fixpoint for_each {A} (body : A → M unit) (xs : list A) : M unit :=
  match xs with
  | [] => ret ()
  | x :: xs' => body x ;; for_each body xs'
  end.

(** [[f(x) for x in xs]]. *)
Fixpoint comprehension {A B} (f : A → M B) (xs : list A) : M (list B) :=
  match xs with
  | [] => ret []
  | x :: xs' => do y <- f x; do ys <- comprehension f xs'; ret (y :: ys)
  end.

(** [ParameterDescription(name, value, vmin, vmax, fixed)] as a new heap
    object. *)
Definition new_parameter (name : string) (value : Qc)
    (vmin : option ParameterDescription.bound_arg) (vmax : option Qc) (fixed : bool)
    : M loc :=
  match ParameterDescription.__init__ name value vmin vmax fixed with
  | Ok p => alloc (OParam p)
  | Raise e => raise e
  end.

(** A method of [ParameterDescription] called on the object at [l]. *)
Definition call_param (method : PD.t → result PD.t) (l : loc) : M unit :=
  do p <- lift (λ h, get_param h l);
  match method p with
  | Ok p' => put l (OParam p')
  | Raise e => raise e
  end.

(** [self == rhs] for two references to [ParameterDescription]s. *)
Definition param_eq (h : heap) (self rhs : loc) : option bool :=
  p ← get_param h self; r ← get_param h rhs;
  Some (ParameterDescription.__eq__ p r).

(** ** Attribute names

    [setattr(self, label, child)] stores [child] in the instance under
    [label], and what the call does depends on what already goes by that
    name.  A property of the class has no setter here, and the call
    raises AttributeError.  An instance attribute that [__init__]
    created is replaced by [child], and a method of the class (or a
    special name such as [__class__] or [__deepcopy__]) is shadowed by
    it or refuses it: the instance is then no longer what the methods of
    its class expect, and the model does not follow it there.  Any
    other label makes a new attribute. *)
Inductive slot : Type :=
| ReadOnly
| Taken
| Free.

(** A label that begins with two underscores; the special names of
    [object] and of the classes are all of this form. *)
Definition dunder (label : string) : bool := String.prefix "__" label.

Definition among (label : string) (names : list string) : bool :=
  existsb (String.eqb label) names.

(** [setattr(self, label, child)], where the class of [self] has [what]
    under [label] and [store] adds the attribute to the instance. *)
Definition setattr (what : slot) (store : M unit) : M unit :=
  match what with
  | ReadOnly => raise AttributeError
  | Taken => stuck
  | Free => store
  end.

(** ** FunctionDescription *)

Module FunctionDescription.

(** The names of the class: the property [name]; the attributes
    [funcType], [_name], [_parameters] that [__init__] creates; the
    methods. *)
Definition slot_of (label : string) : slot :=
  if among label ["name"] then ReadOnly
  else if among label ["funcType"; "_name"; "_parameters"; "addParameter"; "parameterList"]
          || dunder label
  then Taken
  else Free.

(** [addParameter(self, p)]. *)
Definition addParameter (self p : loc) : M unit :=
  do o <- get p;
  match o with
  | OParam pd =>
      do f <- lift (λ h, get_func h self);
      list_append (FD._parameters f) p ;;
      setattr (slot_of (PD._name pd))
        (put self (OFunc (FD.mk (FD.funcType f) (FD._name f) (FD._parameters f)
                            (<[PD._name pd := p]> (FD.attrs f)))))
  | _ => raise (ValueError "p is not a ParameterDescription object.")
  end.

(** [__init__(self, func_type, name=None, parameters=None)]. *)
Definition __init__ (func_type : string) (name : option string)
    (parameters : option (list loc)) : M loc :=
  do pl <- alloc (OList []);
  do self <- alloc (OFunc (FD.mk func_type (default func_type name) pl ∅));
  for_each (addParameter self) (default [] parameters) ;;
  ret self.

(** [parameterList(self)]: [[p for p in self._parameters]]. *)
Definition parameterList (h : heap) (self : loc) : option (list loc) :=
  f ← get_func h self; get_list h (FD._parameters f).

(** [__eq__(self, rhs)]. *)
Definition __eq__ (h : heap) (self rhs : loc) : option bool :=
  f ← get_func h self; g ← get_func h rhs;
  if String.eqb (FD.funcType f) (FD.funcType g) then
    if String.eqb (FD._name f) (FD._name g) then
      ps ← get_list h (FD._parameters f);
      qs ← get_list h (FD._parameters g);
      pylist_eq (param_eq h) ps qs
    else Some false
  else Some false.

(** [__deepcopy__(self, memo)]: the memo is not consulted; every
    parameter is copied with [copy]. *)
Definition __deepcopy__ (self : loc) (mm : memo) : M (loc * memo) :=
  do s <- lift (λ h, get_func h self);
  do f <- __init__ (FD.funcType s) (Some (FD._name s)) None;
  do ps <- lift (λ h, get_list h (FD._parameters s));
  do ps' <- comprehension copy ps;
  do pl <- alloc (OList ps');
  do fo <- lift (λ h, get_func h f);
  put f (OFunc (FD.mk (FD.funcType fo) (FD._name fo) pl (FD.attrs fo))) ;;
  ret (f, mm).

End FunctionDescription.

(** ** FunctionSetDescription *)

Module FunctionSetDescription.

(** The names of the class: the property [name]; the attributes [_name],
    [x0], [y0], [_functions] that [__init__] creates; the methods. *)
Definition slot_of (label : string) : slot :=
  if among label ["name"] then ReadOnly
  else if among label ["_name"; "x0"; "y0"; "_functions"; "addFunction"; "_contains";
                       "functionList"; "parameterList"]
          || dunder label
  then Taken
  else Free.

(** [_contains(self, name)], on the items of [self._functions]. *)
Fixpoint contains_loop (h : heap) (name : string) (fs : list loc) : option bool :=
  match fs with
  | [] => Some false
  | f :: fs' =>
      fd ← get_func h f;
      if String.eqb (FD._name fd) name then Some true else contains_loop h name fs'
  end.

Definition _contains (h : heap) (self : loc) (name : string) : option bool :=
  s ← get_fset h self; fs ← get_list h (FSD._functions s); contains_loop h name fs.

(** [addFunction(self, f)]. *)
Definition addFunction (self f : loc) : M unit :=
  do o <- get f;
  match o with
  | OFunc fd =>
      do dup <- lift (λ h, _contains h self (FD._name fd));
      if dup : bool
      then raise (KeyError ("Function named " ++ FD._name fd ++ " already exists.")%string)
      else
        do s <- lift (λ h, get_fset h self);
        list_append (FSD._functions s) f ;;
        setattr (slot_of (FD._name fd))
          (put self (OFSet (FSD.mk (FSD._name s) (FSD.x0 s) (FSD.y0 s) (FSD._functions s)
                              (<[FD._name fd := f]> (FSD.attrs s)))))
  | _ => raise (ValueError "func is not a Function object.")
  end.

(** [__init__(self, name, x0param=None, y0param=None, functions=None)]. *)
Definition __init__ (name : string) (x0param y0param : option loc)
    (functions : option (list loc)) : M loc :=
  do x0 <- match x0param with
           | None => new_parameter "X0" 0 None None false
           | Some p => ret p
           end;
  do y0 <- match y0param with
           | None => new_parameter "Y0" 0 None None false
           | Some p => ret p
           end;
  do fl <- alloc (OList []);
  do self <- alloc (OFSet (FSD.mk name x0 y0 fl ∅));
  for_each (addFunction self) (default [] functions) ;;
  ret self.

(** [functionList(self)]: [[f.funcType for f in self._functions]]. *)
Definition functionList (h : heap) (self : loc) : option (list string) :=
  s ← get_fset h self; fs ← get_list h (FSD._functions s);
  mapM (λ f, FD.funcType <$> get_func h f) fs.

(** The loop of [parameterList]: [params.extend(f.parameterList())] for
    each function in turn. *)
Fixpoint extend_loop (h : heap) (fs : list loc) (params : list loc)
    : option (list loc) :=
  match fs with
  | [] => Some params
  | f :: fs' =>
      ps ← FunctionDescription.parameterList h f;
      extend_loop h fs' (params ++ ps)
  end.

(** [parameterList(self)]. *)
Definition parameterList (h : heap) (self : loc) : option (list loc) :=
  s ← get_fset h self; fs ← get_list h (FSD._functions s);
  extend_loop h fs ([] ++ [FSD.x0 s] ++ [FSD.y0 s]).

(** [__eq__(self, rhs)]. *)
Definition __eq__ (h : heap) (self rhs : loc) : option bool :=
  s ← get_fset h self; r ← get_fset h rhs;
  if String.eqb (FSD._name s) (FSD._name r) then
    bx ← param_eq h (FSD.x0 s) (FSD.x0 r);
    if bx : bool then
      by' ← param_eq h (FSD.y0 s) (FSD.y0 r);
      if by' : bool then
        fs ← get_list h (FSD._functions s);
        gs ← get_list h (FSD._functions r);
        pylist_eq (FunctionDescription.__eq__ h) fs gs
      else Some false
    else Some false
  else Some false.

(** [__deepcopy__(self, memo)]. *)
Definition __deepcopy__ (self : loc) (mm : memo) : M (loc * memo) :=
  do s <- lift (λ h, get_fset h self);
  do fs <- __init__ (FSD._name s) None None None;
  do x0' <- copy (FSD.x0 s);
  do fo <- lift (λ h, get_fset h fs);
  put fs (OFSet (FSD.mk (FSD._name fo) x0' (FSD.y0 fo) (FSD._functions fo) (FSD.attrs fo))) ;;
  do y0' <- copy (FSD.y0 s);
  do fo <- lift (λ h, get_fset h fs);
  put fs (OFSet (FSD.mk (FSD._name fo) (FSD.x0 fo) y0' (FSD._functions fo) (FSD.attrs fo))) ;;
  do '(fl, mm') <- deepcopy_list (deepcopy_via FunctionDescription.__deepcopy__)
                     (FSD._functions s) mm;
  do fo <- lift (λ h, get_fset h fs);
  put fs (OFSet (FSD.mk (FSD._name fo) (FSD.x0 fo) (FSD.y0 fo) fl (FSD.attrs fo))) ;;
  ret (fs, mm').

End FunctionSetDescription.

(** ** ModelDescription *)

Module ModelDescription.

(** The names of an instance of the class, or of its subclass
    [SimpleModelDescription] when [simple] is true: the properties [x0]
    and [y0] of the subclass; the attributes [options] and
    [_functionSets] that [__init__] creates; the methods. *)
Definition slot_of (simple : bool) (label : string) : slot :=
  if simple && among label ["x0"; "y0"] then ReadOnly
  else if among label ["options"; "_functionSets"; "load"; "addFunctionSet"; "_contains";
                       "functionSetIndices"; "functionList"; "parameterList";
                       "getRawParameters"; "getParameterLimits"]
          || (simple && among label ["addFunction"])
          || dunder label
  then Taken
  else Free.

(** [_contains(self, name)], on the items of [self._functionSets]. *)
Fixpoint contains_loop (h : heap) (name : string) (fss : list loc) : option bool :=
  match fss with
  | [] => Some false
  | fs :: fss' =>
      s ← get_fset h fs;
      if String.eqb (FSD._name s) name then Some true else contains_loop h name fss'
  end.

Definition _contains (h : heap) (self : loc) (name : string) : option bool :=
  m ← get_model h self; fss ← get_list h (MD._functionSets m); contains_loop h name fss.

(** [addFunctionSet(self, fs)] as this class defines it. *)
Definition addFunctionSet (self fs : loc) : M unit :=
  do o <- get fs;
  match o with
  | OFSet s =>
      do dup <- lift (λ h, _contains h self (FSD._name s));
      if dup : bool
      then raise (KeyError ("FunctionSet named " ++ FSD._name s ++ " already exists.")%string)
      else
        do m <- lift (λ h, get_model h self);
        list_append (MD._functionSets m) fs ;;
        setattr (slot_of (MD.simple m) (FSD._name s))
          (put self (OModel (MD.mk (MD.simple m) (MD.options m) (MD._functionSets m)
                               (<[FSD._name s := fs]> (MD.attrs m)))))
  | _ => raise (ValueError "fs is not a FunctionSet object.")
  end.

(** The statements of [__init__] before its loop, on a new instance of
    this class ([simple = false]) or of [SimpleModelDescription]:
    [self.options = {}; self.options.update(options);
     self._functionSets = []]. *)
Definition init_fields (simple : bool) (options : gmap string Qc) : M loc :=
  do fsl <- alloc (OList []);
  alloc (OModel (MD.mk simple (options ∪ ∅) fsl ∅)).

(** [ModelDescription(function_sets=None, options={})]. *)
Definition __init__ (function_sets : option (list loc)) (options : gmap string Qc)
    : M loc :=
  do self <- init_fields false options;
  for_each (addFunctionSet self) (default [] function_sets) ;;
  ret self.

(** The loop of [functionSetIndices], over [range(len(self._functionSets) - 1)]. *)
Fixpoint indices_loop (h : heap) (fss : list loc) (range : list nat) (indices : list nat)
    : option (list nat) :=
  match range with
  | [] => Some indices
  | i :: range' =>
      fs ← fss !! i;
      functionsThisSet ← FunctionSetDescription.functionList h fs;
      indices_loop h fss range' (indices ++ [List.length functionsThisSet])
  end.

(** [functionSetIndices(self)]. *)
Definition functionSetIndices (h : heap) (self : loc) : option (list nat) :=
  m ← get_model h self; fss ← get_list h (MD._functionSets m);
  indices_loop h fss (seq 0 (List.length fss - 1)) [0%nat].

(** [functionList(self)]. *)
Fixpoint functionList_loop (h : heap) (fss : list loc) (functions : list string)
    : option (list string) :=
  match fss with
  | [] => Some functions
  | fs :: fss' =>
      fl ← FunctionSetDescription.functionList h fs;
      functionList_loop h fss' (functions ++ fl)
  end.

Definition functionList (h : heap) (self : loc) : option (list string) :=
  m ← get_model h self; fss ← get_list h (MD._functionSets m);
  functionList_loop h fss [].

(** [parameterList(self)]. *)
Fixpoint parameterList_loop (h : heap) (fss : list loc) (params : list loc)
    : option (list loc) :=
  match fss with
  | [] => Some params
  | fs :: fss' =>
      ps ← FunctionSetDescription.parameterList h fs;
      parameterList_loop h fss' (params ++ ps)
  end.

Definition parameterList (h : heap) (self : loc) : option (list loc) :=
  m ← get_model h self; fss ← get_list h (MD._functionSets m);
  parameterList_loop h fss [].

(** [getRawParameters(self)]: the array of [p.value]. *)
Definition getRawParameters (h : heap) (self : loc) : option (list Qc) :=
  paramsList ← parameterList h self;
  mapM (λ p, PD._value <$> get_param h p) paramsList.

(** [getParameterLimits(self)]: the list of [p.limits]. *)
Definition getParameterLimits (h : heap) (self : loc) : option (list (option (Qc * Qc))) :=
  paramsList ← parameterList h self;
  mapM (λ p, PD._limits <$> get_param h p) paramsList.

(** [__eq__(self, rhs)]. *)
Definition __eq__ (h : heap) (self rhs : loc) : option bool :=
  m ← get_model h self; r ← get_model h rhs;
  if bool_decide (MD.options m = MD.options r) then
    fss ← get_list h (MD._functionSets m);
    gss ← get_list h (MD._functionSets r);
    pylist_eq (FunctionSetDescription.__eq__ h) fss gss
  else Some false.

End ModelDescription.

(** ** SimpleModelDescription *)

Module SimpleModelDescription.

(** [addFunctionSet(self, fs)], overriding the base class. *)
Definition addFunctionSet (self fs : loc) : M unit :=
  do m <- lift (λ h, get_model h self);
  do fss <- lift (λ h, get_list h (MD._functionSets m));
  if decide (1 ≤ List.length fss)%nat
  then raise (Exception "Only one function set allowed.")
  else ModelDescription.addFunctionSet self fs.

(** The text of [type(inst)] in the message of the last branch of
    [__init__]; only the classes of this module are spelled out. *)
Definition type_repr (o : obj) : string :=
  match o with
  | OParam _ => "<class 'pyimfit.descriptions.ParameterDescription'>"
  | OFunc _ => "<class 'pyimfit.descriptions.FunctionDescription'>"
  | OFSet _ => "<class 'pyimfit.descriptions.FunctionSetDescription'>"
  | OList _ => "<class 'list'>"
  | OModel _ | OOther => "<class '...'>"
  end.

(** [SimpleModelDescription(inst=None)].  [super().__init__()] runs with
    no function sets and no options; [inst = None] is the absent
    argument. *)
Definition __init__ (inst : option loc) : M loc :=
  do self <- ModelDescription.init_fields true ∅;
  match inst with
  | Some i =>
      do o <- get i;
      match o with
      | OModel im =>
          do fss <- lift (λ h, get_list h (MD._functionSets im));
          if decide (List.length fss ≠ 1%nat)
          then raise (ValueError "Original model must have only one function set.")
          else
            do fs0 <- lift (λ _, fss !! 0%nat);
            do c <- copy fs0;
            addFunctionSet self c ;;
            ret self
      | _ => raise (ValueError ("Invalid type: " ++ type_repr o)%string)
      end
  | None =>
      do fs <- FunctionSetDescription.__init__ "fs" None None None;
      addFunctionSet self fs ;;
      ret self
  end.

(** The item [self._functionSets[0]], for the read-only properties below
    ([None] also for an empty list, which a constructed instance never
    has). *)
Definition first_set (h : heap) (self : loc) : option FSD.t :=
  m ← get_model h self; fss ← get_list h (MD._functionSets m);
  fs ← fss !! 0%nat; get_fset h fs.

(** The properties [x0] and [y0]. *)
Definition x0 (h : heap) (self : loc) : option loc := FSD.x0 <$> first_set h self.
Definition y0 (h : heap) (self : loc) : option loc := FSD.y0 <$> first_set h self.

(** [addFunction(self, f)]. *)
Definition addFunction (self f : loc) : M unit :=
  do m <- lift (λ h, get_model h self);
  do fss <- lift (λ h, get_list h (MD._functionSets m));
  match fss !! 0%nat with
  | Some fs => FunctionSetDescription.addFunction fs f
  | None => raise (IndexError "list index out of range")
  end.

End SimpleModelDescription.

(** ** Deep copies *)

(** [ModelDescription.__deepcopy__] creates its result with [type(self)()],
    which is the constructor of the subclass for a
    [SimpleModelDescription]; it therefore stands after both classes. *)
Module DeepCopy.

(** [type(self)()]. *)
Definition construct (simple : bool) : M loc :=
  if simple then SimpleModelDescription.__init__ None
  else ModelDescription.__init__ None ∅.

(** [ModelDescription.__deepcopy__(self, memo)]. *)
Definition ModelDescription__deepcopy__ (self : loc) (mm : memo) : M (loc * memo) :=
  do m <- lift (λ h, get_model h self);
  do model <- construct (MD.simple m);
  do '(fsl, mm') <- deepcopy_list (deepcopy_via FunctionSetDescription.__deepcopy__)
                      (MD._functionSets m) mm;
  do mo <- lift (λ h, get_model h model);
  put model (OModel (MD.mk (MD.simple mo) (MD.options mo) fsl (MD.attrs mo))) ;;
  ret (model, mm').

(** [copy.deepcopy(x)] on an instance of each class: a fresh memo, and the
    class's [__deepcopy__]. *)
Definition deepcopy_function (x : loc) : M loc :=
  do '(y, _) <- deepcopy_via FunctionDescription.__deepcopy__ x ∅; ret y.
Definition deepcopy_function_set (x : loc) : M loc :=
  do '(y, _) <- deepcopy_via FunctionSetDescription.__deepcopy__ x ∅; ret y.
Definition deepcopy_model (x : loc) : M loc :=
  do '(y, _) <- deepcopy_via ModelDescription__deepcopy__ x ∅; ret y.

End DeepCopy.

(** ** The starting offsets of the specification *)

(** Following the specification's words: the starting offset of each
    function set within the flattened function list, for sets that hold
    [counts] functions each: the number of functions in the sets before
    it. *)
Fixpoint start_offsets_from (start : nat) (counts : list nat) : list nat :=
  match counts with
  | [] => []
  | c :: counts' => start :: start_offsets_from (start + c) counts'
  end.

Definition start_offsets (counts : list nat) : list nat := start_offsets_from 0 counts.

(** ** The content of a description *)

(** What can be read out of the heap under a reference, with the
    references followed: the parameters of a function, a function set
    with its centre and functions.  The added attributes [attrs] are not
    part of it; no method of the module reads them. *)
Record func_content : Type := mkFuncContent {
  fc_funcType : string;
  fc_name : string;
  fc_parameters : list PD.t
}.

Record fset_content : Type := mkFSetContent {
  sc_name : string;
  sc_x0 : PD.t;
  sc_y0 : PD.t;
  sc_functions : list func_content
}.

Definition read_func (h : heap) (l : loc) : option func_content :=
  f ← get_func h l;
  ps ← get_list h (FD._parameters f);
  pds ← mapM (get_param h) ps;
  Some (mkFuncContent (FD.funcType f) (FD._name f) pds).

Definition read_funcs (h : heap) (l : loc) : option (list func_content) :=
  fs ← get_list h l; mapM (read_func h) fs.

Definition read_fset (h : heap) (l : loc) : option fset_content :=
  s ← get_fset h l;
  x ← get_param h (FSD.x0 s);
  y ← get_param h (FSD.y0 s);
  fcs ← read_funcs h (FSD._functions s);
  Some (mkFSetContent (FSD._name s) x y fcs).

Definition read_fsets (h : heap) (l : loc) : option (list fset_content) :=
  fss ← get_list h l; mapM (read_fset h) fss.

(** The heap with the objects at the locations [busy] hidden: the view of
    the objects that are complete while those at [busy] are still being
    filled. *)
Definition mask (busy : list loc) (h : heap) : heap :=
  imap (λ l o, if decide (l ∈ busy) then OOther else o) h.

(** [h'] shows every object that [h] shows, unchanged. *)
Definition view_le (h h' : heap) : Prop :=
  ∀ l o, h !! l = Some o → o = OOther ∨ h' !! l = Some o.

(** ** Example descriptions *)

Definition run_from_empty (build : M loc) : loc * heap :=
  match build [] with
  | Some (Ok l, h) => (l, h)
  | _ => (0%nat, [])
  end.

(** The scenario of the specification: one function set with
    x0 = 10 and y0 = 20, both unbounded, holding one Gaussian with
    PA = 0 fixed, I_0 = 100 with bounds (50, 150), and sigma = 2
    unbounded; the model's options are [options]. *)
Definition build_gaussian_model (options : gmap string Qc) : M loc :=
  do x0 <- new_parameter "X0" (Qc_of_Z 10) None None false;
  do y0 <- new_parameter "Y0" (Qc_of_Z 20) None None false;
  do pa <- new_parameter "PA" (Qc_of_Z 0) None None true;
  do i0 <- new_parameter "I_0" (Qc_of_Z 100)
             (Some (ParameterDescription.Scalar (Qc_of_Z 50))) (Some (Qc_of_Z 150)) false;
  do sigma <- new_parameter "sigma" (Qc_of_Z 2) None None false;
  do gauss <- FunctionDescription.__init__ "Gaussian" None (Some [pa; i0; sigma]);
  do fs <- FunctionSetDescription.__init__ "fs0" (Some x0) (Some y0) (Some [gauss]);
  ModelDescription.__init__ (Some [fs]) options.

Definition gaussian_model : loc :=
  Eval vm_compute in fst (run_from_empty (build_gaussian_model ∅)).
Definition gaussian_heap : heap :=
  Eval vm_compute in snd (run_from_empty (build_gaussian_model ∅)).

(** The same model with the option GAIN = 4.5. *)
Definition gain_model : loc :=
  Eval vm_compute in fst (run_from_empty (build_gaussian_model {["GAIN" := Q2Qc (9 # 2)]})).
Definition gain_heap : heap :=
  Eval vm_compute in snd (run_from_empty (build_gaussian_model {["GAIN" := Q2Qc (9 # 2)]})).

(** A function set named [name] holding [n] functions "Gaussian" labelled
    g0, g1, ... with no parameters. *)
Definition function_labels : list string := ["g0"; "g1"; "g2"; "g3"; "g4"; "g5"].

Definition build_set (name : string) (n : nat) : M loc :=
  do fs <- comprehension (λ label, FunctionDescription.__init__ "Gaussian" (Some label) None)
             (take n function_labels);
  FunctionSetDescription.__init__ name None None (Some fs).

(** A model of three function sets that hold [a], [b] and [c] functions. *)
Definition build_three_sets (a b c : nat) : M loc :=
  do s0 <- build_set "fs0" a;
  do s1 <- build_set "fs1" b;
  do s2 <- build_set "fs2" c;
  ModelDescription.__init__ (Some [s0; s1; s2]) ∅.

(** The gaussian model, and then a [SimpleModelDescription] made from
    it. *)
Definition build_simple_from_gaussian : M loc :=
  do m <- build_gaussian_model ∅;
  SimpleModelDescription.__init__ (Some m).

Definition simple_copy : loc := Eval vm_compute in fst (run_from_empty build_simple_from_gaussian).
Definition simple_copy_heap : heap :=
  Eval vm_compute in snd (run_from_empty build_simple_from_gaussian).

Definition three_sets_model : loc :=
  Eval vm_compute in fst (run_from_empty (build_three_sets 1 1 1)).
Definition three_sets_heap : heap :=
  Eval vm_compute in snd (run_from_empty (build_three_sets 1 1 1)).

(** ** The invariant of the memo during a deep copy *)

(** A deep copy reads its sources in one view of the heap, [src], and its
    copies are to be read in another, [dst], which may hide more: the
    objects that existed before the copy began.

    An entry [x ↦ y] of the memo is sound when [y] shows in [dst] the
    content that [x] shows in [src]: as a function, as a function set, or
    as a list of functions. *)
Definition copy_of (src dst : heap) (x y : loc) : Prop :=
  (∃ t, read_func src x = Some t ∧ read_func dst y = Some t) ∨
  (∃ t, read_fset src x = Some t ∧ read_fset dst y = Some t) ∨
  (∃ ts, read_funcs src x = Some ts ∧ read_funcs dst y = Some ts).

(** Every entry of the memo is sound, but for the keys [pending]: the
    lists whose copies are still being filled. *)
Definition memo_ok (pending : list loc) (src dst : heap) (mm : memo) : Prop :=
  ∀ x y, mm !! x = Some y → x ∈ pending ∨ copy_of src dst x y.

(** The pending keys are lists. *)
Definition pending_lists (pending : list loc) (view : heap) : Prop :=
  ∀ x, x ∈ pending → is_Some (get_list view x).

(** The pending keys are lists that hold a function set. *)
Definition pending_set_lists (pending : list loc) (view : heap) : Prop :=
  ∀ x, x ∈ pending →
    ∃ l e, get_list view x = Some l ∧ e ∈ l ∧ is_Some (get_fset view e).

(** The locations [busy] are allocated in [h]. *)
Definition allocated (busy : list loc) (h : heap) : Prop :=
  Forall (λ b, b < List.length h)%nat busy.

(** ** Notions used by the further properties *)

(** The parameters of a list of function sets in the order of the flat
    parameter vector: for each set x0, y0, and then the parameters of
    each of its functions. *)
Definition flat_params (tss : list fset_content) : list PD.t :=
  concat ((λ t, sc_x0 t :: sc_y0 t :: concat (fc_parameters <$> sc_functions t)) <$> tss).

(** The labels of the functions, and of the function sets, in a list. *)
Definition labels_of_functions (h : heap) (fl : list loc) : option (list string) :=
  mapM (λ f, FD._name <$> get_func h f) fl.

Definition labels_of_sets (h : heap) (fss : list loc) : option (list string) :=
  mapM (λ s, FSD._name <$> get_fset h s) fss.

(** What [==] looks at in a parameter, a function and a function set:
    everything but the fixed flags. *)
Definition pd_key (p : PD.t) : string * Qc * option (Qc * Qc) :=
  (PD._name p, PD._value p, PD._limits p).

Definition fc_key (t : func_content)
    : string * string * list (string * Qc * option (Qc * Qc)) :=
  (fc_funcType t, fc_name t, pd_key <$> fc_parameters t).

Definition sc_key (t : fset_content) :=
  (sc_name t, pd_key (sc_x0 t), pd_key (sc_y0 t), fc_key <$> sc_functions t).

(** Every object of [h] is in [h'] as it was: a call that leads from [h]
    to [h'] has changed no object that existed before it. *)
Definition unchanged (h h' : heap) : Prop :=
  ∀ l o, h !! l = Some o → h' !! l = Some o.

(** * Properties *)

(** ** ParameterDescription *)

Section ParameterFacts.

Import PD ParameterDescription.
Local Open Scope Qc_scope.

Lemma Qcltb_lt (x y : Qc) : Qcltb x y = true ↔ x < y.
Proof. unfold Qcltb. apply bool_decide_eq_true. Qed.

Lemma Qcltb_ge (x y : Qc) : Qcltb x y = false ↔ y <= x.
Proof. unfold Qcltb. rewrite bool_decide_eq_false. symmetry. apply Qcle_ngt. Qed.

Lemma Qcleb_le (x y : Qc) : Qcleb x y = true ↔ x <= y.
Proof. unfold Qcleb. apply bool_decide_eq_true. Qed.

Lemma Qcleb_gt (x y : Qc) : Qcleb x y = false ↔ y < x.
Proof. unfold Qcleb. rewrite bool_decide_eq_false. symmetry. apply Qclt_nge. Qed.

(** The limits that [clamp_limits] lets through are a proper interval
    around the value. *)
Lemma clamp_limits_ok (value lo hi lo' hi' : Qc) :
  clamp_limits value lo hi = Ok (lo', hi') →
  lo' < hi' ∧ lo' <= value ∧ value <= hi'.
Proof.
  unfold clamp_limits.
  destruct (Qcltb value lo) eqn:E1.
  - destruct (Qcleb hi value) eqn:E2; [discriminate|].
    intros [= <- <-]. apply Qcleb_gt in E2.
    split; [done|]. split; [apply Qcle_refl | by apply Qclt_le_weak].
  - destruct (Qcltb hi value) eqn:E3.
    + destruct (Qcleb value lo) eqn:E2; [discriminate|].
      intros [= <- <-]. apply Qcleb_gt in E2.
      split; [done|]. split; [by apply Qclt_le_weak | apply Qcle_refl].
    + destruct (Qcleb hi lo) eqn:E2; [discriminate|].
      intros [= <- <-]. apply Qcleb_gt in E2.
      apply Qcltb_ge in E1, E3. done.
Qed.

(** [setValue] with both bounds, or with a pair, leaves the invariant
    established when it returns. *)
Lemma setValue_bounds_ok value vmin vmax fixed' self p' :
  setValue value (Some vmin) vmax fixed' self = Ok p' → bounds_ok p'.
Proof.
  unfold setValue.
  set (b := match vmax with None => _ | Some _ => _ end).
  destruct b as [[lo hi]|]; [|discriminate].
  destruct (clamp_limits value lo hi) as [[lo' hi']|] eqn:E; [|discriminate].
  intros [= <-]. unfold bounds_ok; simpl. by eapply clamp_limits_ok.
Qed.

(** [setLimits] leaves the invariant established when it returns, and
    does not touch the value. *)
Lemma setLimits_bounds_ok v1 v2 self p' :
  setLimits v1 v2 self = Ok p' → bounds_ok p' ∧ _value p' = _value self.
Proof.
  unfold setLimits.
  destruct (Qcleb v2 v1) eqn:E0; [discriminate|]. apply Qcleb_gt in E0.
  destruct (Qcltb (_value self) v1) eqn:E1.
  - intros [= <-]. apply Qcltb_lt in E1. unfold bounds_ok; simpl.
    split; [|done]. split; [by etrans|].
    split; [apply Qcle_refl | apply Qclt_le_weak; by etrans].
  - destruct (Qcltb v2 (_value self)) eqn:E2.
    + intros [= <-]. apply Qcltb_lt in E2. unfold bounds_ok; simpl.
      split; [|done]. split; [by etrans|].
      split; [apply Qclt_le_weak; by etrans | apply Qcle_refl].
    + intros [= <-]. apply Qcltb_ge in E1, E2. unfold bounds_ok; simpl. done.
Qed.

(** [setTolerance] on a negative value, for any tolerance in (0, 1]:
    the stored pair has its first component above its second. *)
Lemma Qc_neg_scale (v tol : Qc) : v < 0 → 0 < tol → v * (1 + tol) < v * (1 - tol).
Proof.
  intros Hv Ht. unfold Qclt in *.
  unfold Qcmult, Qcplus, Qcminus, Qcopp, Q2Qc in *. simpl in *.
  rewrite !Qred_correct. rewrite Qred_correct in Hv, Ht.
  set (a := this v) in *. set (b := this tol) in *. nra.
Qed.

Lemma setTolerance_negative_value tol self :
  _value self < 0 → 0 < tol → tol <= 1 →
  ∃ p', setTolerance tol self = Ok p' ∧
        _limits p' = Some (_value self * (1 - tol), _value self * (1 + tol)) ∧
        _value self * (1 + tol) < _value self * (1 - tol) ∧
        ¬ bounds_ok p'.
Proof.
  intros Hv Ht Ht1. unfold setTolerance.
  replace (Qcltb 1 tol) with false by (symmetry; by apply Qcltb_ge).
  replace (Qcltb tol 0) with false by (symmetry; by apply Qcltb_ge, Qclt_le_weak).
  simpl. eexists. split; [reflexivity|]. simpl. split; [reflexivity|].
  pose proof (Qc_neg_scale _ _ Hv Ht) as Hlt. split; [exact Hlt|].
  unfold bounds_ok. simpl. intros [Hlo _].
  apply (Qclt_not_le _ _ Hlt). by apply Qclt_le_weak.
Qed.

(** [setValue] with no bounds stores the value and keeps the limits, so
    the invariant is lost as soon as the new value lies outside them. *)
Lemma setValue_keeps_limits value fixed' self lo hi :
  _limits self = Some (lo, hi) → value < lo ∨ hi < value →
  ∃ p', setValue value None None fixed' self = Ok p' ∧
        _value p' = value ∧ _limits p' = Some (lo, hi) ∧ ¬ bounds_ok p'.
Proof.
  intros Hl Hout. eexists. split; [reflexivity|]. simpl. split; [reflexivity|].
  split; [exact Hl|]. unfold bounds_ok. simpl. rewrite Hl. intros (_ & H1 & H2).
  destruct Hout as [H|H]; eapply Qclt_not_le; eauto.
Qed.

(** A bound in the [vmin] position with no [vmax] is refused, unless it
    is a pair. *)
Lemma setValue_lone_lower value lo fixed' self :
  setValue value (Some (Scalar lo)) None fixed' self
  = Raise (ValueError "If vmax is None, vmin must be None or two-element iterable.").
Proof. reflexivity. Qed.

Lemma setValue_pair value lo hi fixed' self :
  setValue value (Some (Seq [lo; hi])) None fixed' self
  = setValue value (Some (Scalar lo)) (Some hi) fixed' self.
Proof. reflexivity. Qed.

(** With both bounds present: the clamped limits, or the refusal of an
    empty interval. *)
Lemma setValue_both value lo hi fixed' self :
  let lo' := if Qcltb value lo then value else lo in
  let hi' := if Qcltb value lo then hi else if Qcltb hi value then value else hi in
  setValue value (Some (Scalar lo)) (Some hi) fixed' self
  = if Qcleb hi' lo' then Raise (ValueError "Lower limit must be < upper limit.")
    else Ok (mk (_name self) value (Some (lo', hi')) fixed').
Proof.
  unfold setValue, clamp_limits. simpl.
  destruct (Qcltb value lo); [|destruct (Qcltb hi value)];
    (match goal with |- context [Qcleb ?a ?b] => destruct (Qcleb a b) end); reflexivity.
Qed.

End ParameterFacts.

Section ParameterClaims.

Import PD ParameterDescription.
Local Open Scope Qc_scope.

(** C1 (the code breaks the invariant).  The invariant "limits present
    implies lower < upper and lower <= value <= upper" does not survive
    every sequence of [setValue], [setTolerance] and [setLimits]:
    [setTolerance(0.5)] on a new entry of value -1 stores the limits
    (-0.5, -1.5), whose lower end lies above the upper one; and
    [setValue(5)] with no bounds on an entry created with value 1 and
    limits (0, 2) keeps those limits, which no longer contain the value. *)
Theorem C1_invariant_broken :
  (∃ p0 p',
      __init__ "x" (Qc_of_Z (-1)) None None false = Ok p0 ∧
      run_ops [OpSetTolerance (Q2Qc (1 # 2))] p0 = Ok p' ∧
      _limits p' = Some (Q2Qc (-1 # 2), Q2Qc (-3 # 2)) ∧
      ¬ bounds_ok p') ∧
  (∃ p0 p',
      __init__ "x" (Qc_of_Z 1) (Some (Scalar (Qc_of_Z 0))) (Some (Qc_of_Z 2)) false = Ok p0 ∧
      bounds_ok p0 ∧
      run_ops [OpSetValue (Qc_of_Z 5) None None false] p0 = Ok p' ∧
      _value p' = Qc_of_Z 5 ∧ _limits p' = Some (Qc_of_Z 0, Qc_of_Z 2) ∧
      ¬ bounds_ok p').
Proof.
  split.
  - eexists _, _. split; [reflexivity|]. split; [vm_compute; reflexivity|].
    split; [vm_compute; reflexivity|].
    intros [H _]. vm_compute in H. discriminate.
  - eexists _, _. split; [vm_compute; reflexivity|].
    split; [repeat split; intros H; vm_compute in H; discriminate|].
    split; [reflexivity|]. split; [reflexivity|]. split; [reflexivity|].
    intros (_ & _ & H). apply H. reflexivity.
Qed.

(** C3 (the code accepts a lone upper bound).  [setValue] called with
    [vmax] alone never raises: the bound is dropped, the value and the
    fixed flag are stored, and the limits stay as they were. *)
Theorem C3_lone_upper_bound_accepted (value upper : Qc) (fixed' : bool) (self : PD.t) :
  setValue value None (Some upper) fixed' self
  = Ok (mk (_name self) value (_limits self) fixed').
Proof. reflexivity. Qed.

(** The part of C5 that holds: [setTolerance(tol)] raises ValueError when
    [tol < 0] or [tol > 1], and for [0 <= tol <= 1] it returns with the
    limits [(value*(1-tol), value*(1+tol))] and nothing else changed. *)
Lemma setTolerance_range (tol : Qc) (self : PD.t) :
  (tol < 0 ∨ 1 < tol →
     setTolerance tol self = Raise (ValueError "Tolerance must be between 0.0 and 1.0.")) ∧
  (0 <= tol ∧ tol <= 1 →
     setTolerance tol self
     = Ok (mk (_name self) (_value self)
             (Some (_value self * (1 - tol), _value self * (1 + tol))) (fixed self))).
Proof.
  unfold setTolerance. split.
  - intros [H|H].
    + apply Qcltb_lt in H. rewrite H, orb_true_r. reflexivity.
    + apply Qcltb_lt in H. rewrite H. reflexivity.
  - intros [H0 H1]. apply Qcltb_ge in H0, H1. rewrite H0, H1. reflexivity.
Qed.

(** C5 (the code accepts tol = 0).  [setTolerance(0)] is not rejected: on
    every entry it returns and stores the equal limits (value, value).
    These are not a proper interval, and they are what the other
    methods refuse: [setLimits] and [setValue] given the same two bounds
    raise ValueError. *)
Theorem C5_tol_zero_accepted (self : PD.t) :
  setTolerance 0 self
  = Ok (mk (_name self) (_value self) (Some (_value self, _value self)) (fixed self)) ∧
  ¬ bounds_ok (mk (_name self) (_value self) (Some (_value self, _value self)) (fixed self)) ∧
  setLimits (_value self) (_value self) self
  = Raise (ValueError "v2 must be larger than v1.") ∧
  setValue (_value self) (Some (Scalar (_value self))) (Some (_value self)) (fixed self) self
  = Raise (ValueError "Lower limit must be < upper limit.").
Proof.
  split; [|split; [|split]].
  - unfold setTolerance.
    replace (Qcltb 1 0) with false by (symmetry; by apply Qcltb_ge).
    replace (Qcltb 0 0) with false by (symmetry; apply Qcltb_ge, Qcle_refl).
    simpl. do 3 f_equal.
    replace (1 - 0) with 1 by ring. replace (1 + 0) with 1 by ring.
    by rewrite Qcmult_1_r.
  - unfold bounds_ok. simpl. intros [H _]. apply (Qclt_not_le _ _ H), Qcle_refl.
  - unfold setLimits. by rewrite (proj2 (Qcleb_le _ _) (Qcle_refl _)).
  - unfold setValue, clamp_limits.
    replace (Qcltb (_value self) (_value self)) with false
      by (symmetry; apply Qcltb_ge, Qcle_refl).
    by rewrite (proj2 (Qcleb_le _ _) (Qcle_refl _)).
Qed.

(** C9.  Two [ParameterDescription]s compare equal exactly when their
    names, values and limits are equal; the fixed flag is not looked at,
    so entries that differ only in it compare equal. *)
Theorem C9_parameter_equality :
  (∀ self rhs : PD.t,
     __eq__ self rhs = true ↔
     _name self = _name rhs ∧ _value self = _value rhs ∧ _limits self = _limits rhs) ∧
  (∀ (name : string) (value : Qc) (limits : option (Qc * Qc)) (f1 f2 : bool),
     __eq__ (mk name value limits f1) (mk name value limits f2) = true).
Proof.
  assert (L : ∀ a b, limits_eqb a b = true ↔ a = b).
  { intros [[l1 u1]|] [[l2 u2]|]; simpl; try (split; [discriminate|congruence]); [|done].
    rewrite andb_true_iff, !bool_decide_eq_true. split; [intros [-> ->]; done|].
    intros [= -> ->]. done. }
  assert (H : ∀ self rhs : PD.t,
     __eq__ self rhs = true ↔
     _name self = _name rhs ∧ _value self = _value rhs ∧ _limits self = _limits rhs).
  { intros self rhs. unfold __eq__.
    destruct (String.eqb_spec (_name self) (_name rhs)) as [En|En]; simpl.
    - destruct (bool_decide_reflect (_value self = _value rhs)) as [Ev|Ev]; simpl.
      + destruct (limits_eqb (_limits self) (_limits rhs)) eqn:El.
        * apply L in El. done.
        * split; [discriminate|]. intros (_ & _ & El'). apply L in El'. congruence.
      + split; [discriminate|]. intros (_ & ? & _). done.
    - split; [discriminate|]. intros (? & _). done. }
  split; [exact H|]. intros. apply H. done.
Qed.

End ParameterClaims.

(** ** Heap operations *)

Section HeapFacts.

Local Open Scope heap_scope.

Lemma get_param_Some h l p : get_param h l = Some p ↔ h !! l = Some (OParam p).
Proof. unfold get_param. destruct (h !! l) as [[]|]; split; congruence. Qed.
Lemma get_list_Some h l xs : get_list h l = Some xs ↔ h !! l = Some (OList xs).
Proof. unfold get_list. destruct (h !! l) as [[]|]; split; congruence. Qed.
Lemma get_func_Some h l f : get_func h l = Some f ↔ h !! l = Some (OFunc f).
Proof. unfold get_func. destruct (h !! l) as [[]|]; split; congruence. Qed.
Lemma get_fset_Some h l s : get_fset h l = Some s ↔ h !! l = Some (OFSet s).
Proof. unfold get_fset. destruct (h !! l) as [[]|]; split; congruence. Qed.
Lemma get_model_Some h l m : get_model h l = Some m ↔ h !! l = Some (OModel m).
Proof. unfold get_model. destruct (h !! l) as [[]|]; split; congruence. Qed.

Lemma bind_Ok {A B} (m : M A) (k : A → M B) h a h' :
  m h = Some (Ok a, h') → bind m k h = k a h'.
Proof. unfold bind. by intros ->. Qed.

Lemma lift_Some {A} (f : heap → option A) h a : f h = Some a → lift f h = Some (Ok a, h).
Proof. unfold lift. by intros ->. Qed.

Lemma get_Some h l o : h !! l = Some o → get l h = Some (Ok o, h).
Proof. unfold get. by intros ->. Qed.

Lemma put_Some h l o o' : h !! l = Some o' → put l o h = Some (Ok (), <[l := o]> h).
Proof.
  intros H. unfold put. apply lookup_lt_Some in H. by rewrite decide_True.
Qed.

Lemma list_append_Some h l xs x :
  get_list h l = Some xs →
  list_append l x h = Some (Ok (), <[l := OList (xs ++ [x])]> h).
Proof.
  intros H. unfold list_append. erewrite bind_Ok by (by apply lift_Some).
  apply get_list_Some in H. by eapply put_Some.
Qed.

(** The heap written as the objects [h] that were there before a call
    and the objects [ext] created since. *)
Lemma lookup_ext (h ext : heap) k : (h ++ ext) !! (List.length h + k)%nat = ext !! k.
Proof. rewrite lookup_app_r by lia. f_equal. lia. Qed.

Lemma lookup_ext_Some (h ext : heap) k o :
  ext !! k = Some o → (h ++ ext) !! (List.length h + k)%nat = Some o.
Proof. by rewrite lookup_ext. Qed.

Lemma lookup_old (h ext : heap) l o : h !! l = Some o → (h ++ ext) !! l = Some o.
Proof. apply lookup_app_l_Some. Qed.

Lemma alloc_ext (h ext : heap) o :
  alloc o (h ++ ext) = Some (Ok (List.length h + List.length ext)%nat, h ++ (ext ++ [o])).
Proof. unfold alloc. by rewrite length_app, app_assoc. Qed.

Lemma put_ext (h ext : heap) k o :
  (k < List.length ext)%nat →
  put (List.length h + k)%nat o (h ++ ext) = Some (Ok (), h ++ <[k := o]> ext).
Proof.
  intros H. destruct (lookup_lt_is_Some_2 ext k H) as [o' Ho'].
  erewrite put_Some by (by rewrite lookup_ext).
  rewrite insert_app_r_alt by lia.
  by replace (List.length h + k - List.length h)%nat with k by lia.
Qed.

Lemma list_append_ext (h ext : heap) k xs x :
  ext !! k = Some (OList xs) →
  list_append (List.length h + k)%nat x (h ++ ext)
  = Some (Ok (), h ++ <[k := OList (xs ++ [x])]> ext).
Proof.
  intros H. erewrite list_append_Some by (by apply get_list_Some; rewrite lookup_ext).
  rewrite insert_app_r_alt by lia.
  by replace (List.length h + k - List.length h)%nat with k by lia.
Qed.

(** The constructors, run on a heap of that form. *)
Lemma init_fields_ext (h ext : heap) simple options :
  ModelDescription.init_fields simple options (h ++ ext)
  = Some (Ok (List.length h + (List.length ext + 1))%nat,
          h ++ (ext ++ [OList [];
                        OModel (MD.mk simple (options ∪ ∅)
                                  (List.length h + List.length ext) ∅)])).
Proof.
  unfold ModelDescription.init_fields.
  rewrite (bind_Ok _ _ _ _ _ (alloc_ext _ _ _)), alloc_ext.
  rewrite length_app, <- app_assoc. reflexivity.
Qed.

Lemma new_parameter_ext (h ext : heap) name value fixed :
  new_parameter name value None None fixed (h ++ ext)
  = Some (Ok (List.length h + List.length ext)%nat,
          h ++ (ext ++ [OParam (PD.mk name value None fixed)])).
Proof. unfold new_parameter. simpl. apply alloc_ext. Qed.

Lemma FunctionDescription_init_ext (h ext : heap) func_type name :
  FunctionDescription.__init__ func_type name None (h ++ ext)
  = Some (Ok (List.length h + (List.length ext + 1))%nat,
          h ++ (ext ++ [OList [];
                        OFunc (FD.mk func_type (default func_type name)
                                 (List.length h + List.length ext) ∅)])).
Proof.
  unfold FunctionDescription.__init__.
  rewrite (bind_Ok _ _ _ _ _ (alloc_ext _ _ _)).
  rewrite (bind_Ok _ _ _ _ _ (alloc_ext _ _ _)). simpl.
  unfold bind, ret. rewrite length_app, <- app_assoc. reflexivity.
Qed.

Lemma FunctionSetDescription_init_ext (h ext : heap) name :
  let n := List.length ext in
  FunctionSetDescription.__init__ name None None None (h ++ ext)
  = Some (Ok (List.length h + (n + 3))%nat,
          h ++ (ext ++ [OParam (PD.mk "X0" 0 None false);
                        OParam (PD.mk "Y0" 0 None false);
                        OList [];
                        OFSet (FSD.mk name (List.length h + n) (List.length h + (n + 1))
                                 (List.length h + (n + 2)) ∅)])).
Proof.
  intros n. unfold FunctionSetDescription.__init__.
  rewrite (bind_Ok _ _ _ _ _ (new_parameter_ext _ _ _ _ _)).
  rewrite (bind_Ok _ _ _ _ _ (new_parameter_ext _ _ _ _ _)).
  rewrite (bind_Ok _ _ _ _ _ (alloc_ext _ _ _)).
  rewrite (bind_Ok _ _ _ _ _ (alloc_ext _ _ _)). simpl.
  unfold bind, ret. rewrite !length_app, <- !app_assoc. simpl. subst n.
  replace (List.length ext + 1 + 1 + 1)%nat with (List.length ext + 3)%nat by lia.
  replace (List.length ext + 1 + 1)%nat with (List.length ext + 2)%nat by lia.
  reflexivity.
Qed.

End HeapFacts.

(** ** Adding to the ordered collections *)

Section AddFacts.

Local Open Scope heap_scope.

Lemma fset_contains_loop h name fl (fds : list FD.t) :
  mapM (get_func h) fl = Some fds →
  FunctionSetDescription.contains_loop h name fl
  = Some (bool_decide (name ∈ FD._name <$> fds)).
Proof.
  revert fds. induction fl as [|f fl IH]; intros fds H.
  - apply mapM_Some, Forall2_nil_inv_l in H as ->. done.
  - apply mapM_Some, Forall2_cons_inv_l in H as (fd & fds' & Hf & Hfl & ->).
    simpl. rewrite Hf. simpl.
    destruct (String.eqb_spec (FD._name fd) name) as [->|Hne].
    + symmetry. f_equal. apply bool_decide_eq_true.
      rewrite ?fmap_cons. apply elem_of_cons. by left.
    + rewrite (IH fds') by (by apply mapM_Some). f_equal.
      apply bool_decide_ext. rewrite ?fmap_cons, elem_of_cons.
      split; [by right | by intros [->|?]].
Qed.

Lemma model_contains_loop h name fl (fds : list FSD.t) :
  mapM (get_fset h) fl = Some fds →
  ModelDescription.contains_loop h name fl
  = Some (bool_decide (name ∈ FSD._name <$> fds)).
Proof.
  revert fds. induction fl as [|f fl IH]; intros fds H.
  - apply mapM_Some, Forall2_nil_inv_l in H as ->. done.
  - apply mapM_Some, Forall2_cons_inv_l in H as (fd & fds' & Hf & Hfl & ->).
    simpl. rewrite Hf. simpl.
    destruct (String.eqb_spec (FSD._name fd) name) as [->|Hne].
    + symmetry. f_equal. apply bool_decide_eq_true.
      rewrite ?fmap_cons. apply elem_of_cons. by left.
    + rewrite (IH fds') by (by apply mapM_Some). f_equal.
      apply bool_decide_ext. rewrite ?fmap_cons, elem_of_cons.
      split; [by right | by intros [->|?]].
Qed.

(** The outcome of [addFunction] on a well-formed function set. *)
Lemma addFunction_spec h self s fl (fds : list FD.t) f o :
  get_fset h self = Some s →
  get_list h (FSD._functions s) = Some fl →
  mapM (get_func h) fl = Some fds →
  h !! f = Some o →
  match o with
  | OFunc fd =>
      if bool_decide (FD._name fd ∈ FD._name <$> fds)
      then FunctionSetDescription.addFunction self f h
           = Some (Raise (KeyError ("Function named " ++ FD._name fd ++ " already exists.")%string), h)
      else
        match FunctionSetDescription.slot_of (FD._name fd) with
        | Free =>
            FunctionSetDescription.addFunction self f h
            = Some (Ok (),
                    <[self := OFSet (FSD.mk (FSD._name s) (FSD.x0 s) (FSD.y0 s) (FSD._functions s)
                                       (<[FD._name fd := f]> (FSD.attrs s)))]>
                      (<[FSD._functions s := OList (fl ++ [f])]> h))
        | ReadOnly =>
            FunctionSetDescription.addFunction self f h
            = Some (Raise AttributeError, <[FSD._functions s := OList (fl ++ [f])]> h)
        | Taken => FunctionSetDescription.addFunction self f h = None
        end
  | _ => FunctionSetDescription.addFunction self f h
         = Some (Raise (ValueError "func is not a Function object."), h)
  end.
Proof.
  intros Hs Hl Hfds Hf. unfold FunctionSetDescription.addFunction.
  rewrite (bind_Ok _ _ _ _ _ (get_Some _ _ _ Hf)).
  destruct o as [p|xs|fd|s'|m|]; try reflexivity.
  assert (Hc : FunctionSetDescription._contains h self (FD._name fd)
               = Some (bool_decide (FD._name fd ∈ FD._name <$> fds))).
  { unfold FunctionSetDescription._contains. rewrite Hs. simpl. rewrite Hl. simpl.
    by apply fset_contains_loop. }
  rewrite (bind_Ok _ _ _ _ _ (lift_Some _ _ _ Hc)).
  destruct (bool_decide (FD._name fd ∈ FD._name <$> fds)); [reflexivity|].
  rewrite (bind_Ok _ _ _ _ _ (lift_Some (λ h, get_fset h self) _ _ Hs)).
  rewrite (bind_Ok _ _ _ _ _ (list_append_Some _ _ _ f Hl)).
  apply get_fset_Some in Hs. apply get_list_Some in Hl.
  assert (Hne : self ≠ FSD._functions s) by (intros E; rewrite <- E in Hl; congruence).
  destruct (FunctionSetDescription.slot_of (FD._name fd)); [reflexivity|reflexivity|].
  apply put_Some with (o' := OFSet s). by rewrite list_lookup_insert_ne.
Qed.

(** The outcome of [ModelDescription.addFunctionSet] on a well-formed
    model. *)
Lemma addFunctionSet_spec h self m fl (fds : list FSD.t) fs o :
  get_model h self = Some m →
  get_list h (MD._functionSets m) = Some fl →
  mapM (get_fset h) fl = Some fds →
  h !! fs = Some o →
  match o with
  | OFSet s =>
      if bool_decide (FSD._name s ∈ FSD._name <$> fds)
      then ModelDescription.addFunctionSet self fs h
           = Some (Raise (KeyError ("FunctionSet named " ++ FSD._name s ++ " already exists.")%string), h)
      else
        match ModelDescription.slot_of (MD.simple m) (FSD._name s) with
        | Free =>
            ModelDescription.addFunctionSet self fs h
            = Some (Ok (),
                    <[self := OModel (MD.mk (MD.simple m) (MD.options m) (MD._functionSets m)
                                        (<[FSD._name s := fs]> (MD.attrs m)))]>
                      (<[MD._functionSets m := OList (fl ++ [fs])]> h))
        | ReadOnly =>
            ModelDescription.addFunctionSet self fs h
            = Some (Raise AttributeError, <[MD._functionSets m := OList (fl ++ [fs])]> h)
        | Taken => ModelDescription.addFunctionSet self fs h = None
        end
  | _ => ModelDescription.addFunctionSet self fs h
         = Some (Raise (ValueError "fs is not a FunctionSet object."), h)
  end.
Proof.
  intros Hs Hl Hfds Hf. unfold ModelDescription.addFunctionSet.
  rewrite (bind_Ok _ _ _ _ _ (get_Some _ _ _ Hf)).
  destruct o as [p|xs|fd|s|m'|]; try reflexivity.
  assert (Hc : ModelDescription._contains h self (FSD._name s)
               = Some (bool_decide (FSD._name s ∈ FSD._name <$> fds))).
  { unfold ModelDescription._contains. rewrite Hs. simpl. rewrite Hl. simpl.
    by apply model_contains_loop. }
  rewrite (bind_Ok _ _ _ _ _ (lift_Some _ _ _ Hc)).
  destruct (bool_decide (FSD._name s ∈ FSD._name <$> fds)); [reflexivity|].
  rewrite (bind_Ok _ _ _ _ _ (lift_Some (λ h, get_model h self) _ _ Hs)).
  rewrite (bind_Ok _ _ _ _ _ (list_append_Some _ _ _ fs Hl)).
  apply get_model_Some in Hs. apply get_list_Some in Hl.
  assert (Hne : self ≠ MD._functionSets m) by (intros E; rewrite <- E in Hl; congruence).
  destruct (ModelDescription.slot_of (MD.simple m) (FSD._name s)); [reflexivity|reflexivity|].
  apply put_Some with (o' := OModel m). by rewrite list_lookup_insert_ne.
Qed.

(** The heap after [lst.append(x); setattr(self, label, x)], where [lst]
    is the list object at [l]. *)
Lemma update2_self (h : heap) self l o1 o2 :
  (self < List.length h)%nat → (<[self := o1]> (<[l := o2]> h)) !! self = Some o1.
Proof. intros H. apply list_lookup_insert_eq. by rewrite length_insert. Qed.

Lemma update2_list (h : heap) self l o1 o2 :
  self ≠ l → (l < List.length h)%nat → (<[self := o1]> (<[l := o2]> h)) !! l = Some o2.
Proof. intros H1 H2. rewrite list_lookup_insert_ne by done. by apply list_lookup_insert_eq. Qed.

Lemma update2_other (h : heap) self l o1 o2 x :
  x ≠ self → x ≠ l → (<[self := o1]> (<[l := o2]> h)) !! x = h !! x.
Proof. intros H1 H2. by rewrite !list_lookup_insert_ne. Qed.

(** [SimpleModelDescription()]: the new instance and its one function
    set "fs". *)
Lemma SimpleModelDescription_init_default (h : heap) :
  SimpleModelDescription.__init__ None h
  = Some (Ok (List.length h + 1)%nat,
          h ++ [OList [List.length h + 5]%nat;
                OModel (MD.mk true (∅ ∪ ∅) (List.length h + 0)
                          (<["fs" := (List.length h + 5)%nat]> ∅));
                OParam (PD.mk "X0" 0 None false);
                OParam (PD.mk "Y0" 0 None false);
                OList [];
                OFSet (FSD.mk "fs" (List.length h + 2) (List.length h + 3)
                         (List.length h + 4) ∅)]).
Proof.
  unfold SimpleModelDescription.__init__.
      pose proof (init_fields_ext h [] true ∅) as E0. rewrite app_nil_r in E0.
      rewrite (bind_Ok _ _ _ _ _ E0).
      rewrite (bind_Ok _ _ _ _ _ (FunctionSetDescription_init_ext _ _ _)). simpl.
      erewrite bind_Ok; [reflexivity|].
      unfold SimpleModelDescription.addFunctionSet.
      erewrite bind_Ok
        by (apply (lift_Some (λ h, get_model h _)), get_model_Some;
            by apply (lookup_ext_Some h _ 1)).
      erewrite bind_Ok
        by (apply (lift_Some (λ h, get_list h _)), get_list_Some;
            by apply (lookup_ext_Some h _ 0)).
      simpl.
      unfold ModelDescription.addFunctionSet.
      erewrite bind_Ok by (apply get_Some; by apply (lookup_ext_Some h _ 5)).
      simpl.
      erewrite bind_Ok; cycle 1.
      { apply (lift_Some (λ h0, ModelDescription._contains h0 _ _)).
        unfold ModelDescription._contains, get_model, get_list.
        rewrite (lookup_ext h _ 1). simpl. rewrite (lookup_ext h _ 0). reflexivity. }
      simpl.
      erewrite bind_Ok
        by (apply (lift_Some (λ h, get_model h _)), get_model_Some;
            by apply (lookup_ext_Some h _ 1)).
      erewrite bind_Ok by (by apply (list_append_ext h _ 0)).
      simpl. rewrite (put_ext h _ 1) by (simpl; lia). reflexivity.
Qed.

End AddFacts.

Section AddClaims.

Local Open Scope heap_scope.


(** C7.  [SimpleModelDescription(inst)] on a model whose list of function
    sets does not have exactly one item raises ValueError, and every
    object that existed before the call is as it was (the heap has only
    grown by the abandoned new instance); [addFunctionSet] on a
    [SimpleModelDescription] that holds a set raises Exception and
    changes nothing; and the instance that [SimpleModelDescription()]
    returns always holds a set, so that adding another one fails. *)
Theorem C7_simple_model_failures :
  (∀ (h : heap) (inst : loc) (im : MD.t) (fss : list loc),
     get_model h inst = Some im →
     get_list h (MD._functionSets im) = Some fss →
     List.length fss ≠ 1%nat →
     ∃ ext, SimpleModelDescription.__init__ (Some inst) h
            = Some (Raise (ValueError "Original model must have only one function set."),
                    h ++ ext)) ∧
  (∀ (h : heap) (self fs : loc) (m : MD.t) (fss : list loc),
     get_model h self = Some m →
     get_list h (MD._functionSets m) = Some fss →
     (1 ≤ List.length fss)%nat →
     SimpleModelDescription.addFunctionSet self fs h
     = Some (Raise (Exception "Only one function set allowed."), h)) ∧
  (∀ h : heap, ∃ (self : loc) (h' : heap) (m : MD.t) (fs : loc),
     SimpleModelDescription.__init__ None h = Some (Ok self, h') ∧
     get_model h' self = Some m ∧ MD.simple m = true ∧
     get_list h' (MD._functionSets m) = Some [fs] ∧
     ∀ fs', SimpleModelDescription.addFunctionSet self fs' h'
            = Some (Raise (Exception "Only one function set allowed."), h')).
Proof.
  assert (Hadd : ∀ (h : heap) (self fs : loc) (m : MD.t) (fss : list loc),
     get_model h self = Some m →
     get_list h (MD._functionSets m) = Some fss →
     (1 ≤ List.length fss)%nat →
     SimpleModelDescription.addFunctionSet self fs h
     = Some (Raise (Exception "Only one function set allowed."), h)).
  { intros h self fs m fss Hm Hl Hlen. unfold SimpleModelDescription.addFunctionSet.
    rewrite (bind_Ok _ _ _ _ _ (lift_Some (λ h, get_model h self) _ _ Hm)).
    rewrite (bind_Ok _ _ _ _ _ (lift_Some (λ h, get_list h (MD._functionSets m)) _ _ Hl)).
    by rewrite decide_True. }
  split; [|split; [exact Hadd|]].
  - intros h inst im fss Hm Hl Hlen.
    unfold SimpleModelDescription.__init__.
    pose proof (init_fields_ext h [] true ∅) as E0. rewrite app_nil_r in E0.
    rewrite (bind_Ok _ _ _ _ _ E0). simpl.
    apply get_model_Some in Hm. apply get_list_Some in Hl.
    rewrite (bind_Ok _ _ _ _ _ (get_Some _ _ _ (lookup_old _ _ _ _ Hm))).
    erewrite bind_Ok
      by (apply (lift_Some (λ h, get_list h (MD._functionSets im))), get_list_Some,
            lookup_old, Hl).
    rewrite decide_True by done. by eexists.
  - intros h.
    pose proof (SimpleModelDescription_init_default h) as E.
    eexists _, _, _, _. split; [exact E|].
    split; [apply get_model_Some; by apply (lookup_ext_Some h _ 1)|].
    split; [reflexivity|].
    split; [apply get_list_Some; by apply (lookup_ext_Some h _ 0)|].
    intros fs'. eapply Hadd.
    + apply get_model_Some. by apply (lookup_ext_Some h _ 1).
    + apply get_list_Some. by apply (lookup_ext_Some h _ 0).
    + simpl. lia.
Qed.

End AddClaims.

Section AddWitnesses.


(** C7 on a model of three function sets, and on the
    [SimpleModelDescription] made from the gaussian model. *)
Lemma C7_simple_model_failures_witness :
  (∃ ext, SimpleModelDescription.__init__ (Some three_sets_model) three_sets_heap
          = Some (Raise (ValueError "Original model must have only one function set."),
                  three_sets_heap ++ ext)) ∧
  SimpleModelDescription.addFunctionSet simple_copy 8 simple_copy_heap
  = Some (Raise (Exception "Only one function set allowed."), simple_copy_heap).
Proof.
  split.
  - refine (proj1 C7_simple_model_failures three_sets_heap three_sets_model _ _
              eq_refl eq_refl _).
    simpl. lia.
  - refine (proj1 (proj2 C7_simple_model_failures) simple_copy_heap simple_copy 8%nat _ _
              eq_refl eq_refl _).
    simpl. lia.
Defined.

End AddWitnesses.

(** ** Flattening *)

Section FlatteningFacts.

Local Open Scope heap_scope.

Lemma extend_loop_spec h fl params (pss : list (list loc)) :
  mapM (FunctionDescription.parameterList h) fl = Some pss →
  FunctionSetDescription.extend_loop h fl params = Some (params ++ concat pss).
Proof.
  revert params pss. induction fl as [|f fl IH]; intros params pss H.
  - apply mapM_Some, Forall2_nil_inv_l in H as ->. simpl. by rewrite app_nil_r.
  - apply mapM_Some, Forall2_cons_inv_l in H as (ps & pss' & Hf & Hfl & ->).
    simpl. rewrite Hf. simpl. rewrite (IH _ pss') by (by apply mapM_Some).
    by rewrite app_assoc.
Qed.

Lemma parameterList_loop_spec h fss params (pss : list (list loc)) :
  mapM (FunctionSetDescription.parameterList h) fss = Some pss →
  ModelDescription.parameterList_loop h fss params = Some (params ++ concat pss).
Proof.
  revert params pss. induction fss as [|f fl IH]; intros params pss H.
  - apply mapM_Some, Forall2_nil_inv_l in H as ->. simpl. by rewrite app_nil_r.
  - apply mapM_Some, Forall2_cons_inv_l in H as (ps & pss' & Hf & Hfl & ->).
    simpl. rewrite Hf. simpl. rewrite (IH _ pss') by (by apply mapM_Some).
    by rewrite app_assoc.
Qed.

(** The outcome of [addParameter] on a well-formed function. *)
Lemma addParameter_spec h self fd ps p pd :
  get_func h self = Some fd →
  get_list h (FD._parameters fd) = Some ps →
  get_param h p = Some pd →
  match FunctionDescription.slot_of (PD._name pd) with
  | Free =>
      FunctionDescription.addParameter self p h
      = Some (Ok (),
              <[self := OFunc (FD.mk (FD.funcType fd) (FD._name fd) (FD._parameters fd)
                                 (<[PD._name pd := p]> (FD.attrs fd)))]>
                (<[FD._parameters fd := OList (ps ++ [p])]> h))
  | ReadOnly =>
      FunctionDescription.addParameter self p h
      = Some (Raise AttributeError, <[FD._parameters fd := OList (ps ++ [p])]> h)
  | Taken => FunctionDescription.addParameter self p h = None
  end.
Proof.
  intros Hf Hl Hp. unfold FunctionDescription.addParameter.
  apply get_param_Some in Hp. rewrite (bind_Ok _ _ _ _ _ (get_Some _ _ _ Hp)).
  rewrite (bind_Ok _ _ _ _ _ (lift_Some (λ h, get_func h self) _ _ Hf)).
  rewrite (bind_Ok _ _ _ _ _ (list_append_Some _ _ _ p Hl)).
  apply get_func_Some in Hf. apply get_list_Some in Hl.
  assert (Hne : self ≠ FD._parameters fd) by (intros E; rewrite <- E in Hl; congruence).
  destruct (FunctionDescription.slot_of (PD._name pd)); [reflexivity|reflexivity|].
  apply put_Some with (o' := OFunc fd). by rewrite list_lookup_insert_ne.
Qed.

(** The list that [functionSetIndices] returns: 0, and then the number
    of functions of every set but the last. *)
Lemma indices_loop_spec h fss (counts : list nat) i n indices :
  mapM (λ fs, List.length <$> FunctionSetDescription.functionList h fs) fss = Some counts →
  (i + n ≤ List.length fss)%nat →
  ModelDescription.indices_loop h fss (seq i n) indices
  = Some (indices ++ take n (drop i counts)).
Proof.
  intros H. apply mapM_Some in H. revert i indices.
  induction n as [|n IH]; intros i indices Hlen; simpl.
  - by rewrite app_nil_r.
  - destruct (lookup_lt_is_Some_2 fss i) as [fs Hfs]; [lia|].
    destruct (Forall2_lookup_l _ _ _ _ _ H Hfs) as (c & Hc & Hfl).
    rewrite Hfs. simpl.
    destruct (FunctionSetDescription.functionList h fs) as [fl|]; [|discriminate].
    simpl in *. injection Hfl as <-.
    rewrite IH by lia. rewrite <- app_assoc. simpl.
    rewrite (drop_S _ _ _ Hc). reflexivity.
Qed.

(** X10.  [functionSetIndices()] returns 0 followed by the number of
    functions of each function set but the last, in order; the numbers
    are not added up. *)
Lemma functionSetIndices_spec h self m fss (counts : list nat) :
  get_model h self = Some m →
  get_list h (MD._functionSets m) = Some fss →
  mapM (λ fs, List.length <$> FunctionSetDescription.functionList h fs) fss = Some counts →
  ModelDescription.functionSetIndices h self
  = Some (0%nat :: take (List.length counts - 1) counts).
Proof.
  intros Hm Hl Hc. unfold ModelDescription.functionSetIndices.
  rewrite Hm. simpl. rewrite Hl. simpl.
  rewrite (indices_loop_spec _ _ counts) by (done || lia).
  assert (List.length fss = List.length counts) as ->
    by (apply mapM_Some in Hc; by eapply Forall2_length).
  reflexivity.
Qed.

End FlatteningFacts.

Section FlatteningClaims.

Local Open Scope heap_scope.

(** C2 (the code does not return the starting offsets).  For three
    function sets of one function each, whose starting offsets in the
    flattened function list are 0, 1, 2, [functionSetIndices] returns
    [0, 1, 1]: after the leading 0 it lists the number of functions of
    each set but the last, without adding them up.  For sets of 2, 3 and
    1 functions it returns [0, 2, 3], where the third set starts at
    offset 5. *)
Theorem C2_indices_are_not_offsets :
  (∃ m h, build_three_sets 1 1 1 [] = Some (Ok m, h) ∧
          ModelDescription.functionList h m = Some ["Gaussian"; "Gaussian"; "Gaussian"] ∧
          ModelDescription.functionSetIndices h m = Some [0; 1; 1]%nat ∧
          start_offsets [1; 1; 1]%nat = [0; 1; 2]%nat) ∧
  (∃ m h, build_three_sets 2 3 1 [] = Some (Ok m, h) ∧
          ModelDescription.functionSetIndices h m = Some [0; 2; 3]%nat ∧
          start_offsets [2; 3; 1]%nat = [0; 2; 5]%nat).
Proof.
  split; eexists _, _; (split; [vm_compute; reflexivity|]); repeat split;
    vm_compute; reflexivity.
Qed.



(** C6 (the copy made by [SimpleModelDescription(inst)] shares its
    parameters with [inst]).  In the [SimpleModelDescription] made from
    the gaussian model, [x0] is the very object that is the x0 of the
    model's function set; setting its value to 99 through the copy
    changes the first raw parameter of the original model from 10 to
    99. *)
Theorem C6_simple_copy_shares_parameters :
  build_simple_from_gaussian [] = Some (Ok simple_copy, simple_copy_heap) ∧
  ModelDescription.getRawParameters simple_copy_heap gaussian_model
  = Some [Qc_of_Z 10; Qc_of_Z 20; Qc_of_Z 0; Qc_of_Z 100; Qc_of_Z 2] ∧
  ∃ (x : loc) (ps : list loc) (h' : heap),
    SimpleModelDescription.x0 simple_copy_heap simple_copy = Some x ∧
    ModelDescription.parameterList simple_copy_heap gaussian_model = Some (x :: ps) ∧
    call_param (ParameterDescription.setValue (Qc_of_Z 99) None None false) x simple_copy_heap
    = Some (Ok (), h') ∧
    ModelDescription.getRawParameters h' gaussian_model
    = Some [Qc_of_Z 99; Qc_of_Z 20; Qc_of_Z 0; Qc_of_Z 100; Qc_of_Z 2].
Proof.
  split; [vm_compute; reflexivity|]. split; [vm_compute; reflexivity|].
  eexists _, _, _. split; [vm_compute; reflexivity|].
  split; [vm_compute; reflexivity|]. split; vm_compute; reflexivity.
Qed.

End FlatteningClaims.

(** ** Views of the heap *)

Section ViewFacts.

Lemma view_le_refl h : view_le h h.
Proof. intros l o H. by right. Qed.

Lemma view_le_trans h1 h2 h3 : view_le h1 h2 → view_le h2 h3 → view_le h1 h3.
Proof.
  intros H12 H23 l o H. destruct (H12 l o H) as [->|H2]; [by left|]. by apply H23.
Qed.

Lemma view_le_app (h ext : heap) : view_le h (h ++ ext).
Proof. intros l o H. right. by apply lookup_app_l_Some. Qed.

Lemma mask_lookup busy (h : heap) l :
  mask busy h !! l = (λ o, if decide (l ∈ busy) then OOther else o) <$> h !! l.
Proof. unfold mask. apply list_lookup_imap. Qed.

Lemma mask_length busy (h : heap) : List.length (mask busy h) = List.length h.
Proof. unfold mask. apply length_imap. Qed.

Lemma mask_lookup_fresh busy (h : heap) l : l ∉ busy → mask busy h !! l = h !! l.
Proof.
  intros H. rewrite mask_lookup. destruct (h !! l) as [o|]; [|done].
  simpl. destruct (decide (l ∈ busy)); done.
Qed.

Lemma mask_nil (h : heap) : mask [] h = h.
Proof. apply list_eq. intros l. apply mask_lookup_fresh, not_elem_of_nil. Qed.

Lemma mask_lookup_Some busy (h : heap) l o :
  mask busy h !! l = Some o → o = OOther ∨ ((l ∉ busy) ∧ h !! l = Some o).
Proof.
  rewrite mask_lookup. destruct (h !! l) as [o'|]; simpl; [|done].
  destruct (decide (l ∈ busy)); intros [= <-]; auto.
Qed.


(** The general way to compare two views. *)
Lemma mask_le busy busy' (h h' : heap) :
  (∀ l o, h !! l = Some o → l ∉ busy → (l ∉ busy') ∧ h' !! l = Some o) →
  view_le (mask busy h) (mask busy' h').
Proof.
  intros H l o Hl. apply mask_lookup_Some in Hl as [->|[Hb Hl]]; [by left|].
  destruct (H l o Hl Hb) as [Hb' Hl']. right. by rewrite mask_lookup_fresh.
Qed.

Lemma mask_le_heap busy (h : heap) : view_le (mask busy h) h.
Proof.
  rewrite <- (mask_nil h) at 2. apply mask_le. intros l o Hl _.
  split; [apply not_elem_of_nil|done].
Qed.

Lemma allocated_app busy (h ext : heap) : allocated busy h → allocated busy (h ++ ext).
Proof.
  unfold allocated. intros H. eapply Forall_impl; [exact H|].
  intros b Hb. simpl in *. rewrite length_app. lia.
Qed.

Lemma allocated_fresh busy (h : heap) k :
  allocated busy h → (List.length h + k)%nat ∉ busy.
Proof.
  unfold allocated. rewrite Forall_forall. intros H Hin. apply H in Hin. lia.
Qed.

Lemma allocated_cons busy (h ext : heap) k :
  allocated busy h → (k < List.length ext)%nat →
  allocated ((List.length h + k)%nat :: busy) (h ++ ext).
Proof.
  intros H Hk. apply Forall_cons. split; [rewrite length_app; lia|].
  by apply allocated_app.
Qed.

(** Growing the heap, and hiding more of what is new, keeps what was
    shown. *)
Lemma mask_le_ext busy busy' (h ext : heap) :
  (∀ b, b ∈ busy' → (b < List.length h)%nat → b ∈ busy) →
  view_le (mask busy h) (mask busy' (h ++ ext)).
Proof.
  intros H. apply mask_le. intros l o Hl Hb. split.
  - intros Hb'. apply Hb, H; [done|]. by eapply lookup_lt_Some.
  - by apply lookup_app_l_Some.
Qed.

(** Showing more locations of the same heap. *)
Lemma mask_le_unmask busy busy' (h : heap) :
  busy' ⊆ busy → view_le (mask busy h) (mask busy' h).
Proof.
  intros H. apply mask_le. intros l o Hl Hb. split; [|done]. intros Hb'. by apply Hb, H.
Qed.

(** An update at a hidden location is not seen. *)
Lemma mask_insert_busy busy (h : heap) y o :
  y ∈ busy → mask busy (<[y := o]> h) = mask busy h.
Proof.
  intros Hy. apply list_eq. intros l. rewrite !mask_lookup.
  destruct (decide (l = y)) as [->|Hne].
  - destruct (decide (y < List.length h)%nat) as [Hlt|Hge].
    + rewrite list_lookup_insert_eq by done.
      destruct (lookup_lt_is_Some_2 h y Hlt) as [o' ->]. simpl. by rewrite !decide_True.
    + by rewrite list_insert_ge by lia.
  - by rewrite list_lookup_insert_ne.
Qed.

(** What is new is shown as it is. *)
Lemma mask_lookup_ext busy (h ext : heap) k :
  allocated busy h →
  mask busy (h ++ ext) !! (List.length h + k)%nat = ext !! k.
Proof.
  intros H. rewrite mask_lookup_fresh by (by apply allocated_fresh).
  apply lookup_ext.
Qed.

(** Reading is monotone in the view. *)
Lemma get_param_le h h' l p : view_le h h' → get_param h l = Some p → get_param h' l = Some p.
Proof.
  intros Hle H. apply get_param_Some in H. apply get_param_Some.
  by destruct (Hle _ _ H).
Qed.
Lemma get_list_le h h' l xs : view_le h h' → get_list h l = Some xs → get_list h' l = Some xs.
Proof.
  intros Hle H. apply get_list_Some in H. apply get_list_Some.
  by destruct (Hle _ _ H).
Qed.
Lemma get_func_le h h' l f : view_le h h' → get_func h l = Some f → get_func h' l = Some f.
Proof.
  intros Hle H. apply get_func_Some in H. apply get_func_Some.
  by destruct (Hle _ _ H).
Qed.
Lemma get_fset_le h h' l s : view_le h h' → get_fset h l = Some s → get_fset h' l = Some s.
Proof.
  intros Hle H. apply get_fset_Some in H. apply get_fset_Some.
  by destruct (Hle _ _ H).
Qed.
Lemma get_model_le h h' l m : view_le h h' → get_model h l = Some m → get_model h' l = Some m.
Proof.
  intros Hle H. apply get_model_Some in H. apply get_model_Some.
  by destruct (Hle _ _ H).
Qed.

Lemma mapM_le {A} (read : heap → loc → option A) h h' xs (ts : list A) :
  (∀ l t, read h l = Some t → read h' l = Some t) →
  mapM (read h) xs = Some ts → mapM (read h') xs = Some ts.
Proof.
  intros Hread H. apply mapM_Some in H. apply mapM_Some.
  eapply Forall2_impl; [exact H|]. intros l t. apply Hread.
Qed.

Lemma read_func_le h h' l t : view_le h h' → read_func h l = Some t → read_func h' l = Some t.
Proof.
  intros Hle. unfold read_func. intros H.
  destruct (get_func h l) as [f|] eqn:Ef; [|done]. simpl in H.
  destruct (get_list h (FD._parameters f)) as [ps|] eqn:El; [|done]. simpl in H.
  destruct (mapM (get_param h) ps) as [pds|] eqn:Ep; [|done]. simpl in H.
  rewrite (get_func_le _ _ _ _ Hle Ef). simpl.
  rewrite (get_list_le _ _ _ _ Hle El). simpl.
  rewrite (mapM_le get_param _ _ _ _ (λ l t, get_param_le _ _ l t Hle) Ep). done.
Qed.

Lemma read_funcs_le h h' l ts :
  view_le h h' → read_funcs h l = Some ts → read_funcs h' l = Some ts.
Proof.
  intros Hle. unfold read_funcs. intros H.
  destruct (get_list h l) as [fs|] eqn:El; [|done]. simpl in H.
  rewrite (get_list_le _ _ _ _ Hle El). simpl.
  by apply (mapM_le read_func _ _ _ _ (λ l t, read_func_le _ _ l t Hle)).
Qed.

Lemma read_fset_le h h' l t : view_le h h' → read_fset h l = Some t → read_fset h' l = Some t.
Proof.
  intros Hle. unfold read_fset. intros H.
  destruct (get_fset h l) as [s|] eqn:Es; [|done]. simpl in H.
  destruct (get_param h (FSD.x0 s)) as [x|] eqn:Ex; [|done]. simpl in H.
  destruct (get_param h (FSD.y0 s)) as [y|] eqn:Ey; [|done]. simpl in H.
  destruct (read_funcs h (FSD._functions s)) as [fcs|] eqn:Ef; [|done]. simpl in H.
  rewrite (get_fset_le _ _ _ _ Hle Es). simpl.
  rewrite (get_param_le _ _ _ _ Hle Ex). simpl.
  rewrite (get_param_le _ _ _ _ Hle Ey). simpl.
  rewrite (read_funcs_le _ _ _ _ Hle Ef). done.
Qed.

Lemma read_fsets_le h h' l ts :
  view_le h h' → read_fsets h l = Some ts → read_fsets h' l = Some ts.
Proof.
  intros Hle. unfold read_fsets. intros H.
  destruct (get_list h l) as [fs|] eqn:El; [|done]. simpl in H.
  rewrite (get_list_le _ _ _ _ Hle El). simpl.
  by apply (mapM_le read_fset _ _ _ _ (λ l t, read_fset_le _ _ l t Hle)).
Qed.

Lemma copy_of_le s s' d d' x y :
  view_le s s' → view_le d d' → copy_of s d x y → copy_of s' d' x y.
Proof.
  intros Hs Hd [(t & H1 & H2)|[(t & H1 & H2)|(t & H1 & H2)]].
  - left. exists t. eauto using read_func_le.
  - right; left. exists t. eauto using read_fset_le.
  - right; right. exists t. eauto using read_funcs_le.
Qed.

Lemma memo_ok_le pending pending' s s' d d' mm :
  view_le s s' → view_le d d' → pending ⊆ pending' →
  memo_ok pending s d mm → memo_ok pending' s' d' mm.
Proof.
  intros Hs Hd Hsub H x y Hxy. destruct (H x y Hxy) as [Hin|Hc].
  - left. by apply Hsub.
  - right. by eapply copy_of_le.
Qed.

Lemma pending_lists_le pending h h' :
  view_le h h' → pending_lists pending h → pending_lists pending h'.
Proof.
  intros Hle H x Hx. destruct (H x Hx) as [l Hl]. exists l. by eapply get_list_le.
Qed.

Lemma pending_set_lists_le pending h h' :
  view_le h h' → pending_set_lists pending h → pending_set_lists pending h'.
Proof.
  intros Hle H x Hx. destruct (H x Hx) as (l & e & Hl & He & [s Hs]).
  exists l, e. split; [by eapply get_list_le|]. split; [done|].
  exists s. by eapply get_fset_le.
Qed.

End ViewFacts.

(** ** Deep copies *)

Section FunctionCopy.

Local Open Scope heap_scope.

Lemma copy_param_spec (h : heap) p pd :
  get_param h p = Some pd → copy p h = Some (Ok (List.length h), h ++ [OParam pd]).
Proof.
  intros H. unfold copy. apply get_param_Some in H.
  by rewrite (bind_Ok _ _ _ _ _ (get_Some _ _ _ H)).
Qed.

(** [[copy(p) for p in ps]] on a list of parameters: the copies are the
    next locations, in order. *)
Lemma copy_params_spec (h : heap) ps (pds : list PD.t) :
  mapM (get_param h) ps = Some pds →
  comprehension copy ps h
  = Some (Ok (seq (List.length h) (List.length ps)), h ++ (OParam <$> pds)).
Proof.
  revert h pds. induction ps as [|p ps IH]; intros h pds H.
  - apply mapM_Some, Forall2_nil_inv_l in H as ->. simpl. by rewrite app_nil_r.
  - apply mapM_Some, Forall2_cons_inv_l in H as (pd & pds' & Hp & Hps & ->).
    simpl. rewrite (bind_Ok _ _ _ _ _ (copy_param_spec _ _ _ Hp)).
    assert (Hps' : mapM (get_param (h ++ [OParam pd])) ps = Some pds').
    { apply mapM_Some. eapply Forall2_impl; [exact Hps|]. intros l t.
      apply get_param_le, view_le_app. }
    rewrite (bind_Ok _ _ _ _ _ (IH _ _ Hps')). unfold ret.
    rewrite length_app, <- app_assoc. simpl. rewrite Nat.add_1_r. reflexivity.
Qed.

Lemma read_params_seq (pre post : heap) (pds : list PD.t) :
  mapM (get_param (pre ++ (OParam <$> pds) ++ post))
       (seq (List.length pre) (List.length pds)) = Some pds.
Proof.
  apply mapM_Some, Forall2_same_length_lookup_2.
  - by rewrite length_seq.
  - intros i l pd Hl Hpd. apply lookup_seq in Hl as [-> Hi].
    apply get_param_Some. rewrite lookup_ext.
    apply lookup_app_l_Some. by rewrite list_lookup_fmap, Hpd.
Qed.

(** [FunctionDescription.__deepcopy__] returns a new function, made of
    new objects only, with the content of the source. *)
Lemma FunctionDescription_deepcopy_spec (h : heap) self t mm :
  read_func h self = Some t →
  ∃ ext,
    FunctionDescription.__deepcopy__ self mm h
    = Some (Ok ((List.length h + 1)%nat, mm), h ++ ext) ∧
    ∀ h0 : heap, List.length h0 = List.length h →
      read_func (h0 ++ ext) (List.length h + 1)%nat = Some t.
Proof.
  unfold read_func. intros H.
  destruct (get_func h self) as [s|] eqn:Es; [|done]. simpl in H.
  destruct (get_list h (FD._parameters s)) as [ps|] eqn:El; [|done]. simpl in H.
  destruct (mapM (get_param h) ps) as [pds|] eqn:Ep; [|done]. simpl in H.
  injection H as <-.
  assert (Hlen : List.length ps = List.length pds)
    by (apply mapM_Some in Ep; by eapply Forall2_length).
  set (E1 := [OList []; OFunc (FD.mk (FD.funcType s) (FD._name s) (List.length h + 0) ∅)]).
  exists ([OList [];
           OFunc (FD.mk (FD.funcType s) (FD._name s)
                    (List.length h + (2 + List.length pds)) ∅)]
          ++ (OParam <$> pds) ++ [OList (seq (List.length h + 2) (List.length pds))]).
  simpl.
  split.
  - unfold FunctionDescription.__deepcopy__.
    rewrite (bind_Ok _ _ _ _ _ (lift_Some (λ h, get_func h self) _ _ Es)).
    pose proof (FunctionDescription_init_ext h [] (FD.funcType s) (Some (FD._name s))) as E0.
    rewrite app_nil_r in E0. simpl in E0. fold E1 in E0.
    rewrite (bind_Ok _ _ _ _ _ E0).
    erewrite bind_Ok
      by (apply (lift_Some (λ h, get_list h _)); eapply get_list_le;
          [apply view_le_app|exact El]).
    erewrite bind_Ok
      by (apply copy_params_spec; eapply (mapM_le get_param);
          [intros ??; apply get_param_le, view_le_app|exact Ep]).
    unfold alloc at 1. unfold bind at 1.
    rewrite <- !app_assoc.
    erewrite bind_Ok
      by (apply (lift_Some (λ h, get_func h _)), get_func_Some;
          by apply (lookup_ext_Some h _ 1)).
    erewrite bind_Ok by (apply (put_ext h _ 1); simpl; lia).
    unfold ret. subst E1. simpl. rewrite !length_app. simpl. rewrite length_fmap, Hlen.
    reflexivity.
  - intros h0 Hh0. rewrite <- Hh0. unfold get_func at 1.
    rewrite (lookup_ext h0 _ 1). simpl.
    unfold get_list at 1.
    rewrite (lookup_ext h0 _ (2 + List.length pds)). simpl.
    rewrite lookup_app_r by (rewrite length_fmap; lia).
    rewrite length_fmap, Nat.sub_diag. simpl.
    pose proof (read_params_seq
      (h0 ++ [OList [];
              OFunc (FD.mk (FD.funcType s) (FD._name s)
                       (List.length h0 + S (S (List.length pds))) ∅)])
      [OList (seq (List.length h0 + 2) (List.length pds))] pds) as Hr.
    rewrite length_app in Hr. simpl in Hr. rewrite <- app_assoc in Hr. simpl in Hr.
    rewrite Hr. reflexivity.
Qed.


(** An object has one class. *)
Lemma read_func_is_func h l t : read_func h l = Some t → is_Some (get_func h l).
Proof. unfold read_func. destruct (get_func h l); [eauto|done]. Qed.
Lemma read_fset_is_fset h l t : read_fset h l = Some t → is_Some (get_fset h l).
Proof. unfold read_fset. destruct (get_fset h l); [eauto|done]. Qed.
Lemma read_funcs_is_list h l t : read_funcs h l = Some t → is_Some (get_list h l).
Proof. unfold read_funcs. destruct (get_list h l); [eauto|done]. Qed.

Lemma func_not_list h l : is_Some (get_func h l) → is_Some (get_list h l) → False.
Proof.
  intros [f Hf] [xs Hl]. apply get_func_Some in Hf. apply get_list_Some in Hl. congruence.
Qed.
Lemma func_not_fset h l : is_Some (get_func h l) → is_Some (get_fset h l) → False.
Proof.
  intros [f Hf] [xs Hl]. apply get_func_Some in Hf. apply get_fset_Some in Hl. congruence.
Qed.
Lemma fset_not_list h l : is_Some (get_fset h l) → is_Some (get_list h l) → False.
Proof.
  intros [f Hf] [xs Hl]. apply get_fset_Some in Hf. apply get_list_Some in Hl. congruence.
Qed.

Lemma mask_app busy (h ext : heap) :
  allocated busy h → mask busy (h ++ ext) = mask busy h ++ ext.
Proof.
  intros Ha. apply list_eq. intros l.
  destruct (decide (l < List.length h)%nat) as [Hlt|Hge].
  - rewrite (lookup_app_l (mask busy h)) by (by rewrite mask_length).
    rewrite !mask_lookup. by rewrite lookup_app_l.
  - rewrite (lookup_app_r (mask busy h)) by (rewrite mask_length; lia).
    rewrite mask_length.
    replace l with (List.length h + (l - List.length h))%nat at 1 by lia.
    by apply mask_lookup_ext.
Qed.

Lemma mask_insert_app busy (h ext : heap) y o :
  y ∈ busy → allocated busy h →
  mask busy (<[y := o]> h ++ ext) = mask busy (h ++ ext).
Proof.
  intros Hy Ha.
  assert (y < List.length h)%nat by (unfold allocated in Ha; rewrite Forall_forall in Ha; auto).
  rewrite <- insert_app_l by done. by apply mask_insert_busy.
Qed.

(** [deepcopy(a, memo)] on a function [a]: the result shows the content
    of [a], whether it is new or taken from the memo. *)
Lemma deepcopy_function_spec busy hidden pending (h : heap) mm a t :
  allocated busy h →
  allocated hidden h →
  pending_lists pending (mask busy h) →
  read_func (mask busy h) a = Some t →
  memo_ok pending (mask busy h) (mask hidden h) mm →
  ∃ a' mm' ext,
    deepcopy_via FunctionDescription.__deepcopy__ a mm h = Some (Ok (a', mm'), h ++ ext) ∧
    read_func (mask hidden (h ++ ext)) a' = Some t ∧
    memo_ok pending (mask busy (h ++ ext)) (mask hidden (h ++ ext)) mm'.
Proof.
  intros Ha Hh Hp Hr Hm.
  assert (Hfunc := read_func_is_func _ _ _ Hr).
  assert (Hnp : a ∉ pending) by (intros Hin; eapply func_not_list; eauto).
  unfold deepcopy_via. destruct (mm !! a) as [y|] eqn:E.
  - exists y, mm, []. rewrite app_nil_r. split; [done|]. split; [|done].
    destruct (Hm a y E) as [?|[(t' & H1 & H2)|[(t' & H1 & H2)|(t' & H1 & H2)]]]; [done|..].
    + congruence.
    + destruct (func_not_fset _ _ Hfunc (read_fset_is_fset _ _ _ H1)).
    + destruct (func_not_list _ _ Hfunc (read_funcs_is_list _ _ _ H1)).
  - assert (Hr' : read_func h a = Some t) by (eapply read_func_le; [apply mask_le_heap|done]).
    destruct (FunctionDescription_deepcopy_spec h a t mm Hr') as (ext & Hd & Hread).
    rewrite (bind_Ok _ _ _ _ _ Hd).
    assert (Hlt : (a < List.length h)%nat).
    { destruct (read_func_is_func _ _ _ Hr') as [f Hf]. apply get_func_Some in Hf.
      by eapply lookup_lt_Some. }
    rewrite decide_False by lia.
    assert (Hnew : read_func (mask hidden (h ++ ext)) (List.length h + 1)%nat = Some t).
    { rewrite mask_app by done. apply Hread, mask_length. }
    eexists _, _, ext. split; [reflexivity|]. split; [done|].
    intros x y Hxy. destruct (decide (x = a)) as [->|Hne].
    + rewrite lookup_insert_eq in Hxy. injection Hxy as <-.
      right. left. exists t. split; [|done].
      eapply read_func_le; [|exact Hr]. by apply mask_le_ext.
    + rewrite lookup_insert_ne in Hxy by done.
      eapply memo_ok_le; [| | |exact Hm|exact Hxy]; [by apply mask_le_ext..|done].
Qed.

End FunctionCopy.

(** The copy of a list, for any kind of item whose copier is sound. *)
Section ListCopy.

Local Open Scope heap_scope.

Context {T : Type}.
Variable read : heap → loc → option T.
Variable dc : loc → memo → M (loc * memo).
Variable pending : list loc.
Variable side : heap → Prop.

Hypothesis read_le : ∀ h h' l t, view_le h h' → read h l = Some t → read h' l = Some t.
Hypothesis side_le : ∀ h h', view_le h h' → side h → side h'.
Hypothesis dc_spec : ∀ busy hidden (h : heap) mm a t,
  allocated busy h →
  allocated hidden h →
  side (mask busy h) →
  read (mask busy h) a = Some t →
  memo_ok pending (mask busy h) (mask hidden h) mm →
  ∃ a' mm' ext,
    dc a mm h = Some (Ok (a', mm'), h ++ ext) ∧
    read (mask hidden (h ++ ext)) a' = Some t ∧
    memo_ok pending (mask busy (h ++ ext)) (mask hidden (h ++ ext)) mm'.

Lemma deepcopy_items_spec xs : ∀ (ts : list T) busy hidden (h : heap) mm y ys,
  y ∈ busy →
  y ∈ hidden →
  allocated busy h →
  allocated hidden h →
  h !! y = Some (OList ys) →
  side (mask busy h) →
  mapM (read (mask busy h)) xs = Some ts →
  memo_ok pending (mask busy h) (mask hidden h) mm →
  ∃ cs mm' ext,
    deepcopy_items dc y xs mm h = Some (Ok mm', <[y := OList (ys ++ cs)]> h ++ ext) ∧
    mapM (read (mask hidden (h ++ ext))) cs = Some ts ∧
    memo_ok pending (mask busy (h ++ ext)) (mask hidden (h ++ ext)) mm'.
Proof.
  induction xs as [|a xs IH]; intros ts busy hidden h mm y ys Hy Hyh Ha Hh Hly Hs Hr Hm.
  - apply mapM_Some, Forall2_nil_inv_l in Hr as ->.
    exists [], mm, []. rewrite !app_nil_r, list_insert_id by done. done.
  - apply mapM_Some, Forall2_cons_inv_l in Hr as (t & ts' & Hra & Hrs & ->).
    destruct (dc_spec busy hidden h mm a t Ha Hh Hs Hra Hm)
      as (a' & mm1 & e1 & Hdc & Hra' & Hm1).
    simpl. rewrite (bind_Ok _ _ _ _ _ Hdc).
    assert (Hylt : (y < List.length h)%nat) by (by eapply lookup_lt_Some).
    erewrite bind_Ok
      by (apply list_append_Some, get_list_Some, lookup_old, Hly).
    set (h1 := <[y := OList (ys ++ [a'])]> (h ++ e1)).
    assert (Hmask1 : mask busy h1 = mask busy (h ++ e1)) by (by apply mask_insert_busy).
    assert (Hmask1' : mask hidden h1 = mask hidden (h ++ e1)) by (by apply mask_insert_busy).
    assert (Hle1 : view_le (mask busy h) (mask busy (h ++ e1))) by (by apply mask_le_ext).
    assert (Ha1 : allocated busy h1).
    { unfold allocated, h1. rewrite length_insert. by apply allocated_app. }
    assert (Hh1 : allocated hidden h1).
    { unfold allocated, h1. rewrite length_insert. by apply allocated_app. }
    destruct (IH ts' busy hidden h1 mm1 y (ys ++ [a'])) as (cs & mm' & e2 & Hit & Hrcs & Hm').
    + done.
    + done.
    + done.
    + done.
    + unfold h1. apply list_lookup_insert_eq. rewrite length_app. lia.
    + rewrite Hmask1. by eapply side_le.
    + rewrite Hmask1. apply mapM_Some. eapply Forall2_impl; [exact Hrs|].
      intros l t'. by apply read_le.
    + by rewrite Hmask1, Hmask1'.
    + assert (Hmask2 : ∀ b, y ∈ b → allocated b h →
                mask b (h1 ++ e2) = mask b (h ++ e1 ++ e2)).
      { intros b Hyb Hab. unfold h1.
        rewrite mask_insert_app by (done || by apply allocated_app).
        by rewrite <- app_assoc. }
      exists (a' :: cs), mm', (e1 ++ e2). split; [|split].
      * rewrite Hit. unfold h1. rewrite list_insert_insert_eq.
        rewrite insert_app_l by done. rewrite <- !app_assoc. reflexivity.
      * rewrite (Hmask2 hidden) in Hrcs by done.
        apply mapM_Some. apply Forall2_cons. split.
        -- eapply read_le; [|exact Hra']. rewrite app_assoc. by apply mask_le_ext.
        -- by apply mapM_Some.
      * by rewrite <- (Hmask2 busy), <- (Hmask2 hidden).
Qed.

(** [deepcopy(x, memo)] on a list [x] that the memo does not know. *)
Lemma deepcopy_list_miss busy hidden (h : heap) mm x xs (ts : list T) :
  mm !! x = None →
  allocated busy h →
  allocated hidden h →
  get_list (mask busy h) x = Some xs →
  mapM (read (mask busy h)) xs = Some ts →
  side (mask (List.length h :: busy) (h ++ [OList []])) →
  memo_ok pending (mask (List.length h :: busy) (h ++ [OList []]))
    (mask (List.length h :: hidden) (h ++ [OList []]))
    (<[x := List.length h]> mm) →
  ∃ cs mm' ext,
    deepcopy_list dc x mm h
    = Some (Ok (List.length h, <[x := List.length h]> mm'), h ++ (OList cs :: ext)) ∧
    mapM (read (mask hidden (h ++ OList cs :: ext))) cs = Some ts ∧
    memo_ok pending (mask (List.length h :: busy) (h ++ OList cs :: ext))
      (mask (List.length h :: hidden) (h ++ OList cs :: ext)) mm'.
Proof.
  intros Hmiss Ha Hh Hl Hr Hs Hm. unfold deepcopy_list. rewrite Hmiss.
  erewrite bind_Ok
    by (apply (lift_Some (λ h, get_list h x)); eapply get_list_le;
        [apply mask_le_heap|exact Hl]).
  unfold alloc at 1. unfold bind at 1.
  set (y := List.length h). set (h' := h ++ [OList []]).
  assert (Hcons : ∀ b, allocated b h → allocated (y :: b) h').
  { intros b Hb. pose proof (allocated_cons b h [OList []] 0 Hb) as H0.
    rewrite Nat.add_0_r in H0. apply H0. simpl. lia. }
  assert (Hle : view_le (mask busy h) (mask (y :: busy) h')).
  { apply mask_le_ext. intros b Hb Hlt. apply elem_of_cons in Hb as [->|Hb]; [|done].
    unfold y in Hlt. lia. }
  destruct (deepcopy_items_spec xs ts (y :: busy) (y :: hidden) h' (<[x := y]> mm) y [])
    as (cs & mm' & ext & Hit & Hrcs & Hm').
  - apply elem_of_cons. by left.
  - apply elem_of_cons. by left.
  - by apply Hcons.
  - by apply Hcons.
  - unfold h', y. by apply list_lookup_middle.
  - done.
  - apply mapM_Some. apply mapM_Some in Hr. eapply Forall2_impl; [exact Hr|].
    intros l t. by apply read_le.
  - done.
  - exists cs, mm', ext.
    assert (Hheap : <[y := OList ([] ++ cs)]> h' ++ ext = h ++ OList cs :: ext).
    { unfold h', y. rewrite insert_app_r_alt by lia. rewrite Nat.sub_diag. simpl.
      by rewrite <- app_assoc. }
    assert (Hmask : ∀ b, allocated b h →
              mask (y :: b) (h' ++ ext) = mask (y :: b) (h ++ OList cs :: ext)).
    { intros b Hb. rewrite <- Hheap. symmetry. apply mask_insert_app; [|by apply Hcons].
      apply elem_of_cons. by left. }
    rewrite (bind_Ok _ _ _ _ _ Hit). unfold ret. rewrite Hheap.
    split; [done|]. rewrite (Hmask hidden) in Hrcs by done.
    rewrite (Hmask hidden), (Hmask busy) in Hm' by done. split; [|done].
    apply mapM_Some. apply mapM_Some in Hrcs. eapply Forall2_impl; [exact Hrcs|].
    intros l t. apply read_le. apply mask_le_unmask. intros b Hb.
    apply elem_of_cons. by right.
Qed.

End ListCopy.

Section FunctionSetCopy.

Local Open Scope heap_scope.

(** [deepcopy(x, memo)] on a list [x] of functions. *)
Lemma deepcopy_functions_spec busy hidden pending (h : heap) mm x ts :
  allocated busy h →
  allocated hidden h →
  pending_lists pending (mask busy h) →
  x ∉ pending →
  read_funcs (mask busy h) x = Some ts →
  memo_ok pending (mask busy h) (mask hidden h) mm →
  ∃ y mm' ext,
    deepcopy_list (deepcopy_via FunctionDescription.__deepcopy__) x mm h
    = Some (Ok (y, mm'), h ++ ext) ∧
    read_funcs (mask hidden (h ++ ext)) y = Some ts ∧
    memo_ok pending (mask busy (h ++ ext)) (mask hidden (h ++ ext)) mm'.
Proof.
  intros Ha Hh Hp Hnp Hr Hm.
  assert (Hlist := read_funcs_is_list _ _ _ Hr).
  destruct (mm !! x) as [y|] eqn:E.
  - exists y, mm, []. rewrite app_nil_r. unfold deepcopy_list. rewrite E.
    split; [done|]. split; [|done].
    destruct (Hm x y E) as [?|[(t' & H1 & H2)|[(t' & H1 & H2)|(t' & H1 & H2)]]]; [done|..].
    + destruct (func_not_list _ _ (read_func_is_func _ _ _ H1) Hlist).
    + destruct (fset_not_list _ _ (read_fset_is_fset _ _ _ H1) Hlist).
    + congruence.
  - unfold read_funcs in Hr.
    destruct (get_list (mask busy h) x) as [xs|] eqn:El; [|done]. simpl in Hr.
    set (y := List.length h).
    assert (Hle : ∀ b, view_le (mask b h) (mask (y :: b) (h ++ [OList []]))).
    { intros b0. apply mask_le_ext. intros b Hb Hlt.
      apply elem_of_cons in Hb as [->|Hb]; [|done]. unfold y in Hlt. lia. }
    destruct (deepcopy_list_miss read_func (deepcopy_via FunctionDescription.__deepcopy__)
                (x :: pending) (pending_lists (x :: pending))
                read_func_le (pending_lists_le (x :: pending))
                (λ busy hidden h mm a t,
                   deepcopy_function_spec busy hidden (x :: pending) h mm a t)
                busy hidden h mm x xs ts E Ha Hh El Hr)
      as (cs & mm' & ext & Hd & Hrcs & Hm').
    + intros x' Hx'. apply elem_of_cons in Hx' as [->|Hx'].
      * exists xs. eapply get_list_le; [apply Hle|done].
      * destruct (Hp x' Hx') as [l Hl]. exists l. eapply get_list_le; [apply Hle|done].
    + intros x' y' Hxy. destruct (decide (x' = x)) as [->|Hne].
      * left. apply elem_of_cons. by left.
      * rewrite lookup_insert_ne in Hxy by done.
        destruct (Hm x' y' Hxy) as [Hin|Hc].
        -- left. apply elem_of_cons. by right.
        -- right. eapply copy_of_le; [apply Hle..|done].
    + exists y, (<[x := y]> mm'), (OList cs :: ext). split; [exact Hd|].
      assert (Hry : read_funcs (mask hidden (h ++ OList cs :: ext)) y = Some ts).
      { unfold read_funcs, get_list.
        pose proof (mask_lookup_ext hidden h (OList cs :: ext) 0 Hh) as Hl0.
        rewrite Nat.add_0_r in Hl0. unfold y. rewrite Hl0. simpl. exact Hrcs. }
      split; [exact Hry|].
      intros x' y' Hxy. destruct (decide (x' = x)) as [->|Hne].
      * rewrite lookup_insert_eq in Hxy. injection Hxy as <-.
        right. right. right. exists ts. split; [|exact Hry].
        unfold read_funcs.
        rewrite (get_list_le _ _ _ _ (mask_le_ext busy busy h _ (λ b Hb _, Hb)) El).
        simpl. eapply (mapM_le read_func); [|exact Hr].
        intros l t. apply read_func_le. by apply mask_le_ext.
      * rewrite lookup_insert_ne in Hxy by done.
        destruct (Hm' x' y' Hxy) as [Hin|Hc].
        -- apply elem_of_cons in Hin as [->|Hin]; [done|by left].
        -- right. eapply copy_of_le; [| |exact Hc]; apply mask_le_unmask;
             intros b Hb; apply elem_of_cons; by right.
Qed.


Lemma copy_param_ext (h ext : heap) p pd :
  get_param h p = Some pd →
  copy p (h ++ ext)
  = Some (Ok (List.length h + List.length ext)%nat, h ++ (ext ++ [OParam pd])).
Proof.
  intros H. unfold copy. apply get_param_Some in H.
  rewrite (bind_Ok _ _ _ _ _ (get_Some _ _ _ (lookup_old _ _ _ _ H))).
  apply alloc_ext.
Qed.

Lemma mapM_is_Some {A} (f : loc → option A) l (k : list A) e :
  mapM f l = Some k → e ∈ l → is_Some (f e).
Proof.
  intros H He. apply mapM_Some in H. apply list_elem_of_lookup in He as [i Hi].
  destruct (Forall2_lookup_l _ _ _ _ _ H Hi) as (a & _ & Ha). eauto.
Qed.

(** [deepcopy(s, memo)] on a function set [s]. *)
Lemma deepcopy_function_set_spec busy hidden pending (h : heap) mm s t :
  allocated busy h →
  allocated hidden h →
  pending_set_lists pending (mask busy h) →
  read_fset (mask busy h) s = Some t →
  memo_ok pending (mask busy h) (mask hidden h) mm →
  ∃ s' mm' ext,
    deepcopy_via FunctionSetDescription.__deepcopy__ s mm h = Some (Ok (s', mm'), h ++ ext) ∧
    read_fset (mask hidden (h ++ ext)) s' = Some t ∧
    memo_ok pending (mask busy (h ++ ext)) (mask hidden (h ++ ext)) mm'.
Proof.
  intros Ha Hh Hp Hr Hm.
  assert (Hfset := read_fset_is_fset _ _ _ Hr).
  assert (Hpl : pending_lists pending (mask busy h)).
  { intros x Hx. destruct (Hp x Hx) as (l & _ & Hl & _). eauto. }
  unfold deepcopy_via. destruct (mm !! s) as [y|] eqn:E.
  - exists y, mm, []. rewrite app_nil_r. split; [done|]. split; [|done].
    destruct (Hm s y E) as [Hin|[(t' & H1 & H2)|[(t' & H1 & H2)|(t' & H1 & H2)]]].
    + destruct (fset_not_list _ _ Hfset (Hpl _ Hin)).
    + destruct (func_not_fset _ _ (read_func_is_func _ _ _ H1) Hfset).
    + congruence.
    + destruct (fset_not_list _ _ Hfset (read_funcs_is_list _ _ _ H1)).
  - pose proof Hr as Hr0. unfold read_fset in Hr.
    destruct (get_fset (mask busy h) s) as [sd|] eqn:Es; [|done]. simpl in Hr.
    destruct (get_param (mask busy h) (FSD.x0 sd)) as [px|] eqn:Ex; [|done]. simpl in Hr.
    destruct (get_param (mask busy h) (FSD.y0 sd)) as [py|] eqn:Ey; [|done]. simpl in Hr.
    destruct (read_funcs (mask busy h) (FSD._functions sd)) as [fcs|] eqn:Ef; [|done].
    simpl in Hr. injection Hr as <-.
    pose proof (get_fset_le _ _ _ _ (mask_le_heap busy h) Es) as Es'.
    pose proof (get_param_le _ _ _ _ (mask_le_heap busy h) Ex) as Ex'.
    pose proof (get_param_le _ _ _ _ (mask_le_heap busy h) Ey) as Ey'.
    assert (Hslt : (s < List.length h)%nat)
      by (apply get_fset_Some in Es'; by eapply lookup_lt_Some).
    set (n := List.length h).
    set (fs := (n + 3)%nat).
    set (E2 := [OParam (PD.mk "X0" 0 None false); OParam (PD.mk "Y0" 0 None false);
                OList [];
                OFSet (FSD.mk (FSD._name sd) (n + 4) (n + 5) (n + 2) ∅);
                OParam px; OParam py]).
    assert (Ha2 : ∀ b, allocated b h → allocated (fs :: b) (h ++ E2)).
    { intros b Hb. apply (allocated_cons b h E2 3 Hb). simpl. lia. }
    assert (Hle2 : ∀ b, view_le (mask b h) (mask (fs :: b) (h ++ E2))).
    { intros b0. apply mask_le_ext. intros b Hb Hlt.
      apply elem_of_cons in Hb as [->|Hb]; [|done]. unfold fs, n in Hlt. lia. }
    assert (Hnp : FSD._functions sd ∉ pending).
    { intros Hin. destruct (Hp _ Hin) as (l & e & Hl & He & Hse).
      unfold read_funcs in Ef. rewrite Hl in Ef. simpl in Ef.
      destruct (mapM_is_Some _ _ _ _ Ef He) as [tf Htf].
      eapply func_not_fset; [|exact Hse]. by eapply read_func_is_func. }
    destruct (deepcopy_functions_spec (fs :: busy) (fs :: hidden) pending (h ++ E2) mm
                (FSD._functions sd) fcs)
      as (fl & mm' & ext3 & Hdl & Hrfl & Hm'); [by apply Ha2|by apply Ha2|..].
    { eapply pending_lists_le; [apply Hle2|done]. }
    { done. }
    { eapply read_funcs_le; [apply Hle2|done]. }
    { eapply memo_ok_le; [apply Hle2..| |exact Hm]. done. }
    set (final := OFSet (FSD.mk (FSD._name sd) (n + 4) (n + 5) fl ∅)).
    assert (Hhf : <[fs := final]> ((h ++ E2) ++ ext3) = h ++ (<[3%nat := final]> E2 ++ ext3)).
    { rewrite <- app_assoc. unfold fs, n. rewrite insert_app_r_alt by lia.
      replace (List.length h + 3 - List.length h)%nat with 3%nat by lia. reflexivity. }
    exists fs, (<[s := fs]> mm'), (<[3%nat := final]> E2 ++ ext3).
    assert (Hrun : FunctionSetDescription.__deepcopy__ s mm h
                   = Some (Ok (fs, mm'), h ++ (<[3%nat := final]> E2 ++ ext3))).
    { unfold FunctionSetDescription.__deepcopy__.
      rewrite (bind_Ok _ _ _ _ _ (lift_Some (λ h, get_fset h s) _ _ Es')).
      pose proof (FunctionSetDescription_init_ext h [] (FSD._name sd)) as E0.
      rewrite app_nil_r in E0. simpl in E0. fold n in E0.
      rewrite (bind_Ok _ _ _ _ _ E0).
      rewrite (bind_Ok _ _ _ _ _ (copy_param_ext _ _ _ _ Ex')). simpl.
      erewrite bind_Ok
        by (apply (lift_Some (λ h, get_fset h _)), get_fset_Some;
            by apply (lookup_ext_Some h _ 3)).
      erewrite bind_Ok by (apply (put_ext h _ 3); simpl; lia). simpl.
      rewrite (bind_Ok _ _ _ _ _ (copy_param_ext _ _ _ _ Ey')). simpl.
      erewrite bind_Ok
        by (apply (lift_Some (λ h, get_fset h _)), get_fset_Some;
            by apply (lookup_ext_Some h _ 3)).
      erewrite bind_Ok by (apply (put_ext h _ 3); simpl; lia). simpl.
      fold n. fold E2.
      rewrite (bind_Ok _ _ _ _ _ Hdl). rewrite <- app_assoc.
      erewrite bind_Ok
        by (apply (lift_Some (λ h, get_fset h _)), get_fset_Some;
            by apply (lookup_ext_Some h _ 3)).
      erewrite bind_Ok by (apply (put_ext h _ 3); simpl; lia). simpl.
      reflexivity. }
    rewrite (bind_Ok _ _ _ _ _ Hrun).
    rewrite decide_False by (unfold fs, n; lia).
    split; [reflexivity|].
    assert (Hlef : ∀ b, view_le (mask (fs :: b) ((h ++ E2) ++ ext3))
                                (mask b (h ++ (<[3%nat := final]> E2 ++ ext3)))).
    { intros b0. rewrite <- Hhf. rewrite <- (mask_insert_busy (fs :: b0) _ fs final)
        by (apply elem_of_cons; by left).
      apply mask_le_unmask. intros b Hb. apply elem_of_cons. by right. }
    assert (Hnew : read_fset (mask hidden (h ++ (<[3%nat := final]> E2 ++ ext3))) fs
                   = Some (mkFSetContent (FSD._name sd) px py fcs)).
    { pose proof (read_funcs_le _ _ _ _ (Hlef hidden) Hrfl) as Hfl.
      assert (H3 : get_fset (mask hidden (h ++ (<[3%nat := final]> E2 ++ ext3))) fs
                   = Some (FSD.mk (FSD._name sd) (n + 4) (n + 5) fl ∅)).
      { apply get_fset_Some. unfold fs, n. by rewrite (mask_lookup_ext hidden h _ 3 Hh). }
      assert (H4 : get_param (mask hidden (h ++ (<[3%nat := final]> E2 ++ ext3))) (n + 4)
                   = Some px).
      { apply get_param_Some. unfold n. by rewrite (mask_lookup_ext hidden h _ 4 Hh). }
      assert (H5 : get_param (mask hidden (h ++ (<[3%nat := final]> E2 ++ ext3))) (n + 5)
                   = Some py).
      { apply get_param_Some. unfold n. by rewrite (mask_lookup_ext hidden h _ 5 Hh). }
      unfold read_fset. rewrite H3. cbn [mbind option_bind FSD.x0 FSD.y0 FSD._functions FSD._name].
      rewrite H4. cbn [mbind option_bind]. rewrite H5. cbn [mbind option_bind].
      rewrite Hfl. reflexivity. }
    split; [exact Hnew|].
    intros x y Hxy. destruct (decide (x = s)) as [->|Hne].
    + rewrite lookup_insert_eq in Hxy. injection Hxy as <-.
      right. right. left. eexists. split; [|exact Hnew].
      eapply read_fset_le; [|exact Hr0]. by apply mask_le_ext.
    + rewrite lookup_insert_ne in Hxy by done.
      eapply memo_ok_le; [apply Hlef..| |exact Hm'|exact Hxy]. done.
Qed.

End FunctionSetCopy.

Section ModelCopy.

Local Open Scope heap_scope.

(** [deepcopy(x, memo)] on the list [x] of function sets of a model, with
    the empty memo that [copy.deepcopy] starts from. *)
Lemma deepcopy_function_sets_spec busy hidden (h : heap) x tss :
  allocated busy h →
  allocated hidden h →
  read_fsets (mask busy h) x = Some tss →
  ∃ y mm' ext,
    deepcopy_list (deepcopy_via FunctionSetDescription.__deepcopy__) x ∅ h
    = Some (Ok (y, mm'), h ++ ext) ∧
    read_fsets (mask hidden (h ++ ext)) y = Some tss.
Proof.
  intros Ha Hh Hr. unfold read_fsets in Hr.
  destruct (get_list (mask busy h) x) as [xs|] eqn:El; [|done]. simpl in Hr.
  set (y := List.length h).
  assert (Hy0 : ∀ (e : heap), mask hidden (h ++ e) !! y = e !! 0%nat).
  { intros e. pose proof (mask_lookup_ext hidden h e 0 Hh) as H0.
    by rewrite Nat.add_0_r in H0. }
  destruct xs as [|e xs].
  - apply mapM_Some, Forall2_nil_inv_l in Hr as ->.
    exists y, (<[x := y]> (<[x := y]> ∅)), [OList []]. split.
    + unfold deepcopy_list. rewrite lookup_empty.
      erewrite bind_Ok
        by (apply (lift_Some (λ h, get_list h x)); eapply get_list_le;
            [apply mask_le_heap|exact El]).
      reflexivity.
    + unfold read_fsets, get_list. rewrite Hy0. reflexivity.
  - assert (Hle : view_le (mask busy h) (mask (y :: busy) (h ++ [OList []]))).
    { apply mask_le_ext. intros b Hb Hlt. apply elem_of_cons in Hb as [->|Hb]; [|done].
      unfold y in Hlt. lia. }
    destruct (deepcopy_list_miss read_fset (deepcopy_via FunctionSetDescription.__deepcopy__)
                [x] (pending_set_lists [x])
                read_fset_le (pending_set_lists_le [x])
                (λ busy hidden h mm a t,
                   deepcopy_function_set_spec busy hidden [x] h mm a t)
                busy hidden h ∅ x (e :: xs) tss (lookup_empty x) Ha Hh El Hr)
      as (cs & mm' & ext & Hd & Hrcs & _).
    + intros x' Hx'. apply list_elem_of_singleton in Hx' as ->.
      exists (e :: xs), e. split; [by eapply get_list_le|].
      split; [apply elem_of_cons; by left|].
      destruct (mapM_is_Some _ _ _ e Hr) as [t Ht]; [apply elem_of_cons; by left|].
      eapply read_fset_is_fset, read_fset_le; [exact Hle|exact Ht].
    + intros x' y' Hxy. destruct (decide (x' = x)) as [->|Hne].
      * left. by apply list_elem_of_singleton.
      * rewrite lookup_insert_ne, lookup_empty in Hxy by done. done.
    + exists y, (<[x := y]> mm'), (OList cs :: ext). split; [exact Hd|].
      unfold read_fsets, get_list. rewrite Hy0. simpl. exact Hrcs.
Qed.

(** [type(self)()]: a new model of the same class, with no options. *)
Lemma construct_spec (h : heap) simple :
  ∃ ext mo,
    DeepCopy.construct simple h = Some (Ok (List.length h + 1)%nat, h ++ ext) ∧
    ext !! 1%nat = Some (OModel mo) ∧
    MD.simple mo = simple ∧ MD.options mo = ∅.
Proof.
  destruct simple.
  - eexists _, _. split; [apply SimpleModelDescription_init_default|].
    split; [reflexivity|]. split; [reflexivity|]. simpl. apply (left_id_L ∅ (∪)).
  - eexists _, _. split.
    + unfold DeepCopy.construct, ModelDescription.__init__.
      pose proof (init_fields_ext h [] false ∅) as E0. rewrite app_nil_r in E0.
      rewrite (bind_Ok _ _ _ _ _ E0). reflexivity.
    + split; [reflexivity|]. split; [reflexivity|]. simpl. apply (left_id_L ∅ (∪)).
Qed.

(** [copy.deepcopy(model)]: a new model of the same class, with no
    options, whose function sets show the content of the source's. *)
Lemma deepcopy_model_spec (h : heap) self m tss :
  get_model h self = Some m →
  read_fsets h (MD._functionSets m) = Some tss →
  ∃ ext mo,
    DeepCopy.deepcopy_model self h = Some (Ok (List.length h + 1)%nat, h ++ ext) ∧
    get_model (h ++ ext) (List.length h + 1)%nat = Some mo ∧
    MD.simple mo = MD.simple m ∧ MD.options mo = ∅ ∧
    read_fsets (mask (seq 0 (List.length h)) (h ++ ext)) (MD._functionSets mo) = Some tss.
Proof.
  intros Hm Hr.
  destruct (construct_spec h (MD.simple m)) as (ec & mo & Hc & Hmo & Hsimple & Hopts).
  set (c := (List.length h + 1)%nat). set (old := seq 0 (List.length h)).
  assert (Hlen : (1 < List.length ec)%nat) by (by eapply lookup_lt_Some).
  assert (Hold : allocated old h).
  { apply Forall_forall. intros b Hb. apply elem_of_seq in Hb. lia. }
  assert (Ha : allocated [c] (h ++ ec)).
  { apply (allocated_cons [] h ec 1); [apply Forall_nil_2|done]. }
  assert (Hh : allocated (c :: old) (h ++ ec)) by (by apply (allocated_cons old h ec 1)).
  assert (Hle : view_le h (mask [c] (h ++ ec))).
  { rewrite <- (mask_nil h) at 1. apply mask_le_ext.
    intros b Hb Hlt. apply list_elem_of_singleton in Hb as ->. unfold c in Hlt. lia. }
  destruct (deepcopy_function_sets_spec [c] (c :: old) (h ++ ec) (MD._functionSets m) tss
              Ha Hh)
    as (fsl & mm' & ext2 & Hd & Hrf); [by eapply read_fsets_le|].
  set (final := OModel (MD.mk (MD.simple mo) (MD.options mo) fsl (MD.attrs mo))).
  exists (<[1%nat := final]> (ec ++ ext2)), (MD.mk (MD.simple mo) (MD.options mo) fsl (MD.attrs mo)).
  assert (Hc1 : (h ++ <[1%nat := final]> (ec ++ ext2)) !! c = Some final).
  { unfold c. rewrite lookup_ext. apply list_lookup_insert_eq. rewrite length_app. lia. }
  split; [|split; [|split; [|split]]].
  - assert (Hrun : DeepCopy.ModelDescription__deepcopy__ self ∅ h
                   = Some (Ok (c, mm'), h ++ <[1%nat := final]> (ec ++ ext2))).
    { unfold DeepCopy.ModelDescription__deepcopy__.
      rewrite (bind_Ok _ _ _ _ _ (lift_Some (λ h, get_model h self) _ _ Hm)).
      rewrite (bind_Ok _ _ _ _ _ Hc).
      rewrite (bind_Ok _ _ _ _ _ Hd).
      rewrite <- app_assoc.
      erewrite bind_Ok
        by (apply (lift_Some (λ h, get_model h _)), get_model_Some;
            apply (lookup_ext_Some h _ 1); by apply lookup_app_l_Some).
      erewrite bind_Ok by (apply (put_ext h _ 1); rewrite length_app; lia).
      reflexivity. }
    unfold DeepCopy.deepcopy_model, deepcopy_via. rewrite lookup_empty.
    rewrite (bind_Ok _ _ _ _ _ (bind_Ok _ _ _ _ _ Hrun)).
    reflexivity.
  - by apply get_model_Some.
  - done.
  - done.
  - simpl. eapply read_fsets_le; [|exact Hrf].
    replace (h ++ <[1%nat := final]> (ec ++ ext2))
      with (<[c := final]> ((h ++ ec) ++ ext2)).
    + rewrite <- (mask_insert_busy (c :: old) _ c final) by (apply elem_of_cons; by left).
      apply mask_le_unmask. intros b Hb. apply elem_of_cons. by right.
    + rewrite <- app_assoc. unfold c. rewrite insert_app_r_alt by lia.
      by replace (List.length h + 1 - List.length h)%nat with 1%nat by lia.
Qed.

End ModelCopy.

(** ** Equality of descriptions with the same content *)

Section EqualContent.

Lemma parameter_eq_refl (p : PD.t) : ParameterDescription.__eq__ p p = true.
Proof.
  unfold ParameterDescription.__eq__. rewrite String.eqb_refl, bool_decide_true by done.
  simpl. destruct (PD._limits p) as [[lo hi]|]; simpl; [|done].
  by rewrite !bool_decide_true.
Qed.

Section Items.

Context {T : Type}.
Variable h : heap.
Variable read : heap → loc → option T.
Variable item_eq : loc → loc → option bool.
Hypothesis item_eq_same : ∀ a b t,
  read h a = Some t → read h b = Some t → item_eq a b = Some true.

Lemma items_eq_same xs : ∀ ys (ts : list T),
  mapM (read h) xs = Some ts → mapM (read h) ys = Some ts →
  items_eq item_eq xs ys = Some true.
Proof.
  induction xs as [|x xs IH]; intros ys ts Hx Hy.
  - apply mapM_Some, Forall2_nil_inv_l in Hx as ->.
    apply mapM_Some, Forall2_nil_inv_r in Hy as ->. done.
  - apply mapM_Some, Forall2_cons_inv_l in Hx as (t & ts' & Hxt & Hxs & ->).
    apply mapM_Some, Forall2_cons_inv_r in Hy as (y & ys' & Hyt & Hys & ->).
    simpl. destruct (decide (x = y)) as [_|_]; simpl.
    + apply (IH ys' ts'); by apply mapM_Some.
    + rewrite (item_eq_same x y t Hxt Hyt). simpl.
      apply (IH ys' ts'); by apply mapM_Some.
Qed.

Lemma pylist_eq_same xs ys (ts : list T) :
  mapM (read h) xs = Some ts → mapM (read h) ys = Some ts →
  pylist_eq item_eq xs ys = Some true.
Proof.
  intros Hx Hy. unfold pylist_eq. rewrite decide_True.
  - by eapply items_eq_same.
  - apply mapM_Some, Forall2_length in Hx. apply mapM_Some, Forall2_length in Hy. lia.
Qed.

End Items.

Lemma param_eq_same h a b p :
  get_param h a = Some p → get_param h b = Some p → param_eq h a b = Some true.
Proof. intros Ha Hb. unfold param_eq. rewrite Ha, Hb. simpl. by rewrite parameter_eq_refl. Qed.

Lemma function_eq_same h a b t :
  read_func h a = Some t → read_func h b = Some t →
  FunctionDescription.__eq__ h a b = Some true.
Proof.
  unfold read_func, FunctionDescription.__eq__. intros Ha Hb.
  destruct (get_func h a) as [f|]; [|done]. simpl in *.
  destruct (get_func h b) as [g|]; [|done]. simpl in *.
  destruct (get_list h (FD._parameters f)) as [ps|]; [|done]. simpl in *.
  destruct (get_list h (FD._parameters g)) as [qs|]; [|done]. simpl in *.
  destruct (mapM (get_param h) ps) as [pds|] eqn:Ep; [|done]. simpl in *.
  destruct (mapM (get_param h) qs) as [qds|] eqn:Eq; [|done]. simpl in *.
  injection Ha as <-. injection Hb as Ht Hn Hp. subst qds.
  rewrite Ht, Hn, !String.eqb_refl.
  by apply (pylist_eq_same h get_param _ (param_eq_same h) _ _ pds).
Qed.

Lemma function_set_eq_same h a b t :
  read_fset h a = Some t → read_fset h b = Some t →
  FunctionSetDescription.__eq__ h a b = Some true.
Proof.
  unfold read_fset, read_funcs, FunctionSetDescription.__eq__. intros Ha Hb.
  destruct (get_fset h a) as [s|]; [|done]. simpl in *.
  destruct (get_fset h b) as [r|]; [|done]. simpl in *.
  destruct (get_param h (FSD.x0 s)) as [sx|] eqn:Esx; [|done]. simpl in *.
  destruct (get_param h (FSD.y0 s)) as [sy|] eqn:Esy; [|done]. simpl in *.
  destruct (get_param h (FSD.x0 r)) as [rx|] eqn:Erx; [|done]. simpl in *.
  destruct (get_param h (FSD.y0 r)) as [ry|] eqn:Ery; [|done]. simpl in *.
  destruct (get_list h (FSD._functions s)) as [fs|]; [|done]. simpl in *.
  destruct (get_list h (FSD._functions r)) as [gs|]; [|done]. simpl in *.
  destruct (mapM (read_func h) fs) as [fts|] eqn:Ef; [|done]. simpl in *.
  destruct (mapM (read_func h) gs) as [gts|] eqn:Eg; [|done]. simpl in *.
  injection Ha as <-. injection Hb as Hn Hx Hy Hf. subst rx ry gts.
  rewrite Hn, String.eqb_refl.
  rewrite (param_eq_same h _ _ sx Esx Erx). simpl.
  rewrite (param_eq_same h _ _ sy Esy Ery). simpl.
  by apply (pylist_eq_same h read_func _ (function_eq_same h) _ _ fts).
Qed.

Lemma function_sets_eq_same h a b la lb tss :
  get_list h a = Some la → get_list h b = Some lb →
  read_fsets h a = Some tss → read_fsets h b = Some tss →
  pylist_eq (FunctionSetDescription.__eq__ h) la lb = Some true.
Proof.
  unfold read_fsets. intros Hla Hlb Ha Hb. rewrite Hla in Ha. rewrite Hlb in Hb.
  simpl in *. by apply (pylist_eq_same h read_fset _ (function_set_eq_same h) _ _ tss).
Qed.

End EqualContent.

Section DeepCopyClaims.

Local Open Scope heap_scope.

(** C10.  For every model whose function sets can be read from the heap,
    [copy.deepcopy(model)] returns a new model with an empty options
    mapping, whatever the options of the source; the function sets of
    the copy show the content of the source's and their lists compare
    equal under [==]; the source is left as it was; so when the source
    has some option, [==] between source and copy is false (in both
    directions), and when it has none it is true. *)
Theorem C10_deepcopy_drops_options (h : heap) (self : loc) (m : MD.t)
    (tss : list fset_content) :
  get_model h self = Some m →
  read_fsets h (MD._functionSets m) = Some tss →
  ∃ (c : loc) (h' : heap) (m' : MD.t) (fss fss' : list loc),
    DeepCopy.deepcopy_model self h = Some (Ok c, h') ∧
    get_model h' c = Some m' ∧
    MD.options m' = ∅ ∧
    get_model h' self = Some m ∧
    read_fsets h' (MD._functionSets m) = Some tss ∧
    read_fsets h' (MD._functionSets m') = Some tss ∧
    get_list h' (MD._functionSets m) = Some fss ∧
    get_list h' (MD._functionSets m') = Some fss' ∧
    pylist_eq (FunctionSetDescription.__eq__ h') fss fss' = Some true ∧
    (MD.options m ≠ ∅ →
       ModelDescription.__eq__ h' self c = Some false ∧
       ModelDescription.__eq__ h' c self = Some false) ∧
    (MD.options m = ∅ → ModelDescription.__eq__ h' self c = Some true).
Proof.
  intros Hm Hr.
  destruct (deepcopy_model_spec h self m tss Hm Hr) as (ext & mo & Hd & Hmo & _ & Hopts & Hrc).
  apply (read_fsets_le _ _ _ _ (mask_le_heap _ _)) in Hrc.
  pose proof (get_model_le _ _ _ _ (view_le_app h ext) Hm) as Hm'.
  pose proof (read_fsets_le _ _ _ _ (view_le_app h ext) Hr) as Hr'.
  destruct (get_list (h ++ ext) (MD._functionSets m)) as [fss|] eqn:El;
    [|unfold read_fsets in Hr'; by rewrite El in Hr'].
  destruct (get_list (h ++ ext) (MD._functionSets mo)) as [fss'|] eqn:El';
    [|unfold read_fsets in Hrc; by rewrite El' in Hrc].
  pose proof (function_sets_eq_same _ _ _ _ _ _ El El' Hr' Hrc) as Heq.
  exists (List.length h + 1)%nat, (h ++ ext), mo, fss, fss'.
  repeat (split; [done|]). split.
  - intros Hne. unfold ModelDescription.__eq__. rewrite Hm', Hmo. simpl.
    rewrite Hopts. rewrite !bool_decide_false by done. done.
  - intros He. unfold ModelDescription.__eq__. rewrite Hm', Hmo. simpl.
    rewrite Hopts, He, bool_decide_true by done. by rewrite El, El'.
Qed.

(** C10 on the gaussian model with the option GAIN: its deep copy does
    not compare equal to it. *)
Lemma C10_deepcopy_drops_options_witness :
  ∃ (c : loc) (h' : heap),
    DeepCopy.deepcopy_model gain_model gain_heap = Some (Ok c, h') ∧
    ModelDescription.__eq__ h' gain_model c = Some false.
Proof.
  destruct (C10_deepcopy_drops_options gain_heap gain_model _ _ eq_refl eq_refl)
    as (c & h' & m' & fss & fss' & Hd & _ & _ & _ & _ & _ & _ & _ & _ & Hne & _).
  exists c, h'. split; [exact Hd|]. apply Hne. simpl.
  intros H. apply (f_equal (λ o : gmap string Qc, o !! "GAIN")) in H.
  vm_compute in H. discriminate.
Defined.

End DeepCopyClaims.

(** ** Deep copies share nothing with their source *)

Section Independence.

Local Open Scope heap_scope.

Lemma allocated_seq (h : heap) : allocated (seq 0 (List.length h)) h.
Proof. apply Forall_forall. intros b Hb. apply elem_of_seq in Hb. lia. Qed.

(** An update of an object that existed before the copy is not seen by
    what can be read with those objects hidden; an update of a new
    object is not seen by what could be read before the copy. *)
Lemma update_old_le (h ext : heap) x o :
  (x < List.length h)%nat →
  view_le (mask (seq 0 (List.length h)) (h ++ ext)) (<[x := o]> (h ++ ext)).
Proof.
  intros Hx. rewrite <- (mask_nil (<[x := o]> (h ++ ext))). apply mask_le.
  intros l o' Hl Hnew. split; [apply not_elem_of_nil|].
  rewrite list_lookup_insert_ne; [done|]. intros ->. apply Hnew, elem_of_seq. lia.
Qed.

Lemma update_new_le (h ext : heap) x o :
  (List.length h ≤ x)%nat → view_le h (<[x := o]> (h ++ ext)).
Proof.
  intros Hx l o' Hl. right. rewrite list_lookup_insert_ne.
  - by apply lookup_app_l_Some.
  - apply lookup_lt_Some in Hl. lia.
Qed.

Lemma call_param_Ok method l (h h' : heap) :
  call_param method l h = Some (Ok (), h') → ∃ p, h' = <[l := OParam p]> h.
Proof.
  unfold call_param, bind, lift. destruct (get_param h l) as [p|]; [|done].
  destruct (method p) as [p'|e]; [|done]. unfold put.
  destruct (decide (l < List.length h)%nat); [|done]. intros [= <-]. eauto.
Qed.

(** The parameters that [parameterList] returns are among the objects
    that reading the content goes through. *)
Lemma read_func_parameterList view f t :
  read_func view f = Some t →
  ∃ ps, FunctionDescription.parameterList view f = Some ps ∧
        Forall (λ p, is_Some (get_param view p)) ps.
Proof.
  unfold read_func, FunctionDescription.parameterList. intros H.
  destruct (get_func view f) as [fd|]; [|done]. simpl in *.
  destruct (get_list view (FD._parameters fd)) as [ps|]; [|done]. simpl in *.
  destruct (mapM (get_param view) ps) as [pds|] eqn:E; [|done].
  exists ps. split; [done|]. apply Forall_forall. intros p Hp. by eapply mapM_is_Some.
Qed.

Lemma read_funcs_parameterList view fl (ts : list func_content) :
  mapM (read_func view) fl = Some ts →
  ∃ pss, mapM (FunctionDescription.parameterList view) fl = Some pss ∧
         Forall (λ p, is_Some (get_param view p)) (concat pss).
Proof.
  revert ts. induction fl as [|f fl IH]; intros ts H.
  - exists []. split; [done|]. apply Forall_nil_2.
  - apply mapM_Some, Forall2_cons_inv_l in H as (t & ts' & Hf & Hfl & ->).
    destruct (read_func_parameterList _ _ _ Hf) as (ps & Hps & Hall).
    destruct (IH ts') as (pss & Hpss & Hall'); [by apply mapM_Some|].
    exists (ps :: pss). split.
    + apply mapM_Some. apply Forall2_cons. split; [done|]. by apply mapM_Some.
    + simpl. apply Forall_app. done.
Qed.

Lemma read_fset_parameterList view s t :
  read_fset view s = Some t →
  ∃ ps, FunctionSetDescription.parameterList view s = Some ps ∧
        Forall (λ p, is_Some (get_param view p)) ps.
Proof.
  unfold read_fset, read_funcs, FunctionSetDescription.parameterList. intros H.
  destruct (get_fset view s) as [sd|]; [|done]. simpl in *.
  destruct (get_param view (FSD.x0 sd)) as [px|] eqn:Ex; [|done]. simpl in *.
  destruct (get_param view (FSD.y0 sd)) as [py|] eqn:Ey; [|done]. simpl in *.
  destruct (get_list view (FSD._functions sd)) as [fl|]; [|done]. simpl in *.
  destruct (mapM (read_func view) fl) as [ts|] eqn:E; [|done].
  destruct (read_funcs_parameterList _ _ _ E) as (pss & Hpss & Hall).
  eexists. split; [by apply extend_loop_spec|].
  simpl. apply Forall_cons. split; [by rewrite Ex|].
  apply Forall_cons. split; [by rewrite Ey|]. done.
Qed.

Lemma read_fsets_parameterList view self m tss :
  get_model view self = Some m →
  read_fsets view (MD._functionSets m) = Some tss →
  ∃ ps, ModelDescription.parameterList view self = Some ps ∧
        Forall (λ p, is_Some (get_param view p)) ps.
Proof.
  unfold read_fsets, ModelDescription.parameterList. intros Hm H. rewrite Hm. simpl.
  destruct (get_list view (MD._functionSets m)) as [fss|]; [|done]. simpl in *.
  assert (∃ pss, mapM (FunctionSetDescription.parameterList view) fss = Some pss ∧
                 Forall (λ p, is_Some (get_param view p)) (concat pss))
    as (pss & Hpss & Hall).
  { clear Hm. revert tss H. induction fss as [|s fss IH]; intros tss H.
    - exists []. split; [done|]. apply Forall_nil_2.
    - apply mapM_Some, Forall2_cons_inv_l in H as (t & ts' & Hs & Hfss & ->).
      destruct (read_fset_parameterList _ _ _ Hs) as (ps & Hps & Hall).
      destruct (IH ts') as (pss & Hpss & Hall'); [by apply mapM_Some|].
      exists (ps :: pss). split.
      + apply mapM_Some. apply Forall2_cons. split; [done|]. by apply mapM_Some.
      + simpl. apply Forall_app. done. }
  exists (concat pss). split; [|done].
  by rewrite (parameterList_loop_spec _ _ _ pss Hpss).
Qed.

(** [parameterList] is monotone in the view. *)
Lemma function_parameterList_le h h' f ps :
  view_le h h' →
  FunctionDescription.parameterList h f = Some ps →
  FunctionDescription.parameterList h' f = Some ps.
Proof.
  intros Hle. unfold FunctionDescription.parameterList. intros H.
  destruct (get_func h f) as [fd|] eqn:E; [|done]. simpl in *.
  rewrite (get_func_le _ _ _ _ Hle E). simpl. by eapply get_list_le.
Qed.

Lemma extend_loop_le h h' fl params ps :
  view_le h h' →
  FunctionSetDescription.extend_loop h fl params = Some ps →
  FunctionSetDescription.extend_loop h' fl params = Some ps.
Proof.
  intros Hle. revert params. induction fl as [|f fl IH]; intros params H; [done|].
  simpl in *. destruct (FunctionDescription.parameterList h f) as [fp|] eqn:E; [|done].
  simpl in *. rewrite (function_parameterList_le _ _ _ _ Hle E). simpl. by apply IH.
Qed.

Lemma function_set_parameterList_le h h' s ps :
  view_le h h' →
  FunctionSetDescription.parameterList h s = Some ps →
  FunctionSetDescription.parameterList h' s = Some ps.
Proof.
  intros Hle. unfold FunctionSetDescription.parameterList. intros H.
  destruct (get_fset h s) as [sd|] eqn:E; [|done]. simpl in *.
  rewrite (get_fset_le _ _ _ _ Hle E). simpl.
  destruct (get_list h (FSD._functions sd)) as [fl|] eqn:El; [|done]. simpl in *.
  rewrite (get_list_le _ _ _ _ Hle El). simpl. by eapply extend_loop_le.
Qed.

Lemma parameterList_loop_le h h' fss params ps :
  view_le h h' →
  ModelDescription.parameterList_loop h fss params = Some ps →
  ModelDescription.parameterList_loop h' fss params = Some ps.
Proof.
  intros Hle. revert params. induction fss as [|s fss IH]; intros params H; [done|].
  simpl in *. destruct (FunctionSetDescription.parameterList h s) as [sp|] eqn:E; [|done].
  simpl in *. rewrite (function_set_parameterList_le _ _ _ _ Hle E). simpl. by apply IH.
Qed.

Lemma model_parameterList_le h h' self ps :
  view_le h h' →
  ModelDescription.parameterList h self = Some ps →
  ModelDescription.parameterList h' self = Some ps.
Proof.
  intros Hle. unfold ModelDescription.parameterList. intros H.
  destruct (get_model h self) as [m|] eqn:E; [|done]. simpl in *.
  rewrite (get_model_le _ _ _ _ Hle E). simpl.
  destruct (get_list h (MD._functionSets m)) as [fss|] eqn:El; [|done]. simpl in *.
  rewrite (get_list_le _ _ _ _ Hle El). simpl. by eapply parameterList_loop_le.
Qed.

(** X20.  [copy.deepcopy] of a function, of a function set and of a
    model: the heap only grows, and the copy shows the content of the
    source even when every object that existed before the call is
    hidden: it is made of new objects only. *)
Theorem deepcopy_made_of_new_objects :
  (∀ (h : heap) x t,
     read_func h x = Some t →
     ∃ y ext, DeepCopy.deepcopy_function x h = Some (Ok y, h ++ ext) ∧
              read_func (mask (seq 0 (List.length h)) (h ++ ext)) y = Some t) ∧
  (∀ (h : heap) x t,
     read_fset h x = Some t →
     ∃ y ext, DeepCopy.deepcopy_function_set x h = Some (Ok y, h ++ ext) ∧
              read_fset (mask (seq 0 (List.length h)) (h ++ ext)) y = Some t) ∧
  (∀ (h : heap) x m tss,
     get_model h x = Some m →
     read_fsets h (MD._functionSets m) = Some tss →
     ∃ y ext m',
       DeepCopy.deepcopy_model x h = Some (Ok y, h ++ ext) ∧
       (List.length h ≤ y)%nat ∧
       get_model (h ++ ext) y = Some m' ∧
       read_fsets (mask (seq 0 (List.length h)) (h ++ ext)) (MD._functionSets m') = Some tss).
Proof.
  split; [|split].
  - intros h x t Hr.
    destruct (deepcopy_function_spec [] (seq 0 (List.length h)) [] h ∅ x t)
      as (y & mm' & ext & Hd & Hy & _).
    + apply Forall_nil_2.
    + apply allocated_seq.
    + intros x' Hx'. by apply not_elem_of_nil in Hx'.
    + by rewrite mask_nil.
    + intros x' y' Hxy. by rewrite lookup_empty in Hxy.
    + exists y, ext. split; [|done]. unfold DeepCopy.deepcopy_function.
      by rewrite (bind_Ok _ _ _ _ _ Hd).
  - intros h x t Hr.
    destruct (deepcopy_function_set_spec [] (seq 0 (List.length h)) [] h ∅ x t)
      as (y & mm' & ext & Hd & Hy & _).
    + apply Forall_nil_2.
    + apply allocated_seq.
    + intros x' Hx'. by apply not_elem_of_nil in Hx'.
    + by rewrite mask_nil.
    + intros x' y' Hxy. by rewrite lookup_empty in Hxy.
    + exists y, ext. split; [|done]. unfold DeepCopy.deepcopy_function_set.
      by rewrite (bind_Ok _ _ _ _ _ Hd).
  - intros h x m tss Hm Hr.
    destruct (deepcopy_model_spec h x m tss Hm Hr) as (ext & mo & Hd & Hmo & _ & _ & Hrc).
    exists (List.length h + 1)%nat, ext, mo. split; [done|]. split; [lia|]. done.
Qed.

(** X21.  For a model and its deep copy: the parameters of the copy are
    new objects and those of the source are old ones; a method call
    that changes a parameter of the copy leaves the content of the
    source as it was, and a call that changes a parameter of the source
    leaves the content of the copy as it was. *)
Theorem deepcopy_model_independent (h : heap) (self : loc) (m : MD.t)
    (tss : list fset_content) :
  get_model h self = Some m →
  read_fsets h (MD._functionSets m) = Some tss →
  ∃ (c : loc) (h' : heap) (m' : MD.t) (ps ps' : list loc),
    DeepCopy.deepcopy_model self h = Some (Ok c, h') ∧
    get_model h' c = Some m' ∧
    ModelDescription.parameterList h' self = Some ps ∧
    ModelDescription.parameterList h' c = Some ps' ∧
    (∀ p, p ∈ ps → p ∉ ps') ∧
    (∀ p method h'',
       p ∈ ps' → call_param method p h' = Some (Ok (), h'') →
       read_fsets h'' (MD._functionSets m) = Some tss) ∧
    (∀ p method h'',
       p ∈ ps → call_param method p h' = Some (Ok (), h'') →
       read_fsets h'' (MD._functionSets m') = Some tss).
Proof.
  intros Hm Hr.
  destruct (deepcopy_model_spec h self m tss Hm Hr) as (ext & mo & Hd & Hmo & _ & _ & Hrc).
  set (old := seq 0 (List.length h)) in *.
  assert (Hmo' : get_model (mask old (h ++ ext)) (List.length h + 1)%nat = Some mo).
  { apply get_model_Some. rewrite mask_lookup_fresh; [by apply get_model_Some|].
    intros Hin. apply elem_of_seq in Hin. lia. }
  destruct (read_fsets_parameterList _ _ _ _ Hm Hr) as (ps & Hps & Hold).
  destruct (read_fsets_parameterList _ _ _ _ Hmo' Hrc) as (ps' & Hps' & Hnew).
  assert (Hlt : ∀ p, p ∈ ps → (p < List.length h)%nat).
  { intros p Hp. rewrite Forall_forall in Hold. destruct (Hold p Hp) as [pd Hpd].
    apply get_param_Some in Hpd. by eapply lookup_lt_Some. }
  assert (Hge : ∀ p, p ∈ ps' → (List.length h ≤ p)%nat).
  { intros p Hp. rewrite Forall_forall in Hnew. destruct (Hnew p Hp) as [pd Hpd].
    apply get_param_Some, mask_lookup_Some in Hpd as [?|[Hnin _]]; [done|].
    destruct (decide (List.length h ≤ p)%nat); [done|].
    exfalso. apply Hnin, elem_of_seq. lia. }
  exists (List.length h + 1)%nat, (h ++ ext), mo, ps, ps'.
  split; [done|]. split; [done|].
  split; [by eapply model_parameterList_le; [apply view_le_app|]|].
  split; [by eapply model_parameterList_le; [apply mask_le_heap|]|].
  split; [|split].
  - intros p Hp Hp'. apply Hlt in Hp. apply Hge in Hp'. lia.
  - intros p method h'' Hp Hcall. apply call_param_Ok in Hcall as [pd ->].
    eapply read_fsets_le; [|exact Hr]. by apply update_new_le, Hge.
  - intros p method h'' Hp Hcall. apply call_param_Ok in Hcall as [pd ->].
    eapply read_fsets_le; [|exact Hrc]. by apply update_old_le, Hlt.
Qed.

End Independence.

(** * Further properties of the code *)

(** ** ParameterDescription: limits *)

Section ParameterLimits.

Import PD ParameterDescription.
Local Open Scope Qc_scope.

(** Order facts on [Qc], proved on the underlying fractions. *)
Lemma Qc_sub_le (v i : Qc) : 0 <= i → v - i <= v.
Proof.
  unfold Qcle, Qcminus, Qcplus, Qcopp, Q2Qc. simpl. rewrite !Qred_correct. intros H. lra.
Qed.

Lemma Qc_le_add (v i : Qc) : 0 <= i → v <= v + i.
Proof.
  unfold Qcle, Qcplus, Q2Qc. simpl. rewrite !Qred_correct. intros H. lra.
Qed.

(** X1.  [setValue] with both bounds: bounds that are a proper interval
    around the value are stored as given; a lower bound above the value
    is replaced by the value, and so is an upper bound below it; and
    whenever the call returns, the stored limits are a proper interval
    around the new value, the name is kept and the fixed flag is the one
    passed. *)
Theorem setValue_with_bounds (value lo hi : Qc) (fixed' : bool) (self : PD.t) :
  (lo < hi → lo <= value → value <= hi →
     setValue value (Some (Scalar lo)) (Some hi) fixed' self
     = Ok (mk (_name self) value (Some (lo, hi)) fixed')) ∧
  (value < lo → value < hi →
     setValue value (Some (Scalar lo)) (Some hi) fixed' self
     = Ok (mk (_name self) value (Some (value, hi)) fixed')) ∧
  (lo < value → hi < value →
     setValue value (Some (Scalar lo)) (Some hi) fixed' self
     = Ok (mk (_name self) value (Some (lo, value)) fixed')) ∧
  (∀ p', setValue value (Some (Scalar lo)) (Some hi) fixed' self = Ok p' →
     bounds_ok p' ∧ _value p' = value ∧ _name p' = _name self ∧ fixed p' = fixed').
Proof.
  split; [|split; [|split]].
  - intros H1 H2 H3. unfold setValue, clamp_limits.
    replace (Qcltb value lo) with false by (symmetry; by apply Qcltb_ge).
    replace (Qcltb hi value) with false by (symmetry; by apply Qcltb_ge).
    replace (Qcleb hi lo) with false by (symmetry; by apply Qcleb_gt).
    reflexivity.
  - intros H1 H2. unfold setValue, clamp_limits.
    replace (Qcltb value lo) with true by (symmetry; by apply Qcltb_lt).
    replace (Qcleb hi value) with false by (symmetry; by apply Qcleb_gt).
    reflexivity.
  - intros H1 H2. unfold setValue, clamp_limits.
    replace (Qcltb value lo) with false by (symmetry; by apply Qcltb_ge, Qclt_le_weak).
    replace (Qcltb hi value) with true by (symmetry; by apply Qcltb_lt).
    replace (Qcleb value lo) with false by (symmetry; by apply Qcleb_gt).
    reflexivity.
  - intros p' H. split; [by eapply setValue_bounds_ok|].
    unfold setValue in H.
    destruct (clamp_limits value lo hi) as [lims|]; [|discriminate].
    by injection H as <-.
Qed.

(** X1 at value 100 with bounds (50, 150), and at value 3 with bounds
    (5, 9). *)
Lemma setValue_with_bounds_witness :
  setValue (Qc_of_Z 100) (Some (Scalar (Qc_of_Z 50))) (Some (Qc_of_Z 150)) false
    (mk "I_0" 0 None false)
  = Ok (mk "I_0" (Qc_of_Z 100) (Some (Qc_of_Z 50, Qc_of_Z 150)) false) ∧
  setValue (Qc_of_Z 3) (Some (Scalar (Qc_of_Z 5))) (Some (Qc_of_Z 9)) false
    (mk "I_0" 0 None false)
  = Ok (mk "I_0" (Qc_of_Z 3) (Some (Qc_of_Z 3, Qc_of_Z 9)) false).
Proof.
  split.
  - apply (proj1 (setValue_with_bounds (Qc_of_Z 100) (Qc_of_Z 50) (Qc_of_Z 150) false
                    (mk "I_0" 0 None false))); first [reflexivity | intros H; vm_compute in H; discriminate].
  - apply (proj1 (proj2 (setValue_with_bounds (Qc_of_Z 3) (Qc_of_Z 5) (Qc_of_Z 9) false
                           (mk "I_0" 0 None false)))); reflexivity.
Defined.

Lemma setLimits_raises (v1 v2 : Qc) (self : PD.t) :
  v2 <= v1 → setLimits v1 v2 self = Raise (ValueError "v2 must be larger than v1.").
Proof. intros H. unfold setLimits. apply Qcleb_le in H. by rewrite H. Qed.

Lemma setLimits_inside (v1 v2 : Qc) (self : PD.t) :
  v1 < v2 → v1 <= _value self → _value self <= v2 →
  setLimits v1 v2 self = Ok (mk (_name self) (_value self) (Some (v1, v2)) (fixed self)).
Proof.
  intros H Hlo Hhi. unfold setLimits.
  replace (Qcleb v2 v1) with false by (symmetry; by apply Qcleb_gt).
  replace (Qcltb (_value self) v1) with false by (symmetry; by apply Qcltb_ge).
  replace (Qcltb v2 (_value self)) with false by (symmetry; by apply Qcltb_ge).
  reflexivity.
Qed.

(** X2.  [setLimits(v1, v2)] raises ValueError exactly when [v1 >= v2].
    Otherwise it returns; it changes nothing but the limits; limits
    around the value are stored as given, a [v1] above the value is
    replaced by the value and so is a [v2] below it; and the stored
    limits are always a proper interval around the value. *)
Theorem setLimits_spec (v1 v2 : Qc) (self : PD.t) :
  (v2 <= v1 → setLimits v1 v2 self = Raise (ValueError "v2 must be larger than v1.")) ∧
  (v1 < v2 →
     ∃ lo hi,
       setLimits v1 v2 self = Ok (mk (_name self) (_value self) (Some (lo, hi)) (fixed self)) ∧
       lo < hi ∧ lo <= _value self ∧ _value self <= hi ∧
       (v1 <= _value self → _value self <= v2 → lo = v1 ∧ hi = v2) ∧
       (_value self < v1 → lo = _value self ∧ hi = v2) ∧
       (v2 < _value self → lo = v1 ∧ hi = _value self)).
Proof.
  split.
  - intros H. unfold setLimits. apply Qcleb_le in H. by rewrite H.
  - intros H. unfold setLimits.
    replace (Qcleb v2 v1) with false by (symmetry; by apply Qcleb_gt).
    destruct (Qcltb (_value self) v1) eqn:E1.
    + apply Qcltb_lt in E1. eexists _, _. split; [reflexivity|].
      split; [by etrans|]. split; [apply Qcle_refl|].
      split; [apply Qclt_le_weak; by etrans|].
      split; [|split]; [|done|].
      * intros H1 _. destruct (Qclt_not_le _ _ E1 H1).
      * intros H2. destruct (Qclt_not_le _ _ (Qclt_trans _ _ _ H2 E1) (Qclt_le_weak _ _ H)).
    + apply Qcltb_ge in E1. destruct (Qcltb v2 (_value self)) eqn:E2.
      * apply Qcltb_lt in E2. eexists _, _. split; [reflexivity|].
        split; [by etrans|]. split; [done|]. split; [apply Qcle_refl|].
        split; [|split]; [| |done].
        -- intros _ H2. destruct (Qclt_not_le _ _ E2 H2).
        -- intros H1. destruct (Qclt_not_le _ _ H1 E1).
      * apply Qcltb_ge in E2. eexists _, _. split; [reflexivity|].
        split; [done|]. split; [done|]. split; [done|].
        split; [done|]. split.
        -- intros H1. destruct (Qclt_not_le _ _ H1 E1).
        -- intros H2. destruct (Qclt_not_le _ _ H2 E2).
Qed.

(** X2 with limits (0, 2), on an entry of value 5 and on one of value 1. *)
Lemma setLimits_spec_witness :
  (∃ lo hi,
     setLimits (Qc_of_Z 0) (Qc_of_Z 2) (mk "x" (Qc_of_Z 5) None false)
     = Ok (mk "x" (Qc_of_Z 5) (Some (lo, hi)) false) ∧ lo = Qc_of_Z 0 ∧ hi = Qc_of_Z 5) ∧
  setLimits (Qc_of_Z 2) (Qc_of_Z 2) (mk "x" (Qc_of_Z 1) None false)
  = Raise (ValueError "v2 must be larger than v1.").
Proof.
  split.
  - destruct (proj2 (setLimits_spec (Qc_of_Z 0) (Qc_of_Z 2) (mk "x" (Qc_of_Z 5) None false)))
      as (lo & hi & E & _ & _ & _ & _ & _ & H); [reflexivity|].
    exists lo, hi. split; [exact E|]. apply H. reflexivity.
  - apply (proj1 (setLimits_spec (Qc_of_Z 2) (Qc_of_Z 2) (mk "x" (Qc_of_Z 1) None false))).
    intros H. vm_compute in H. discriminate.
Defined.

(** *** The methods that compute new limits

    [setLimitsRel] and [setTolerance] with the operations of the floats.
    Of these operations the theorems assume what rounding to the nearest
    float keeps, for finite results: a difference [v - i] with [i >= 0]
    is not above [v], a sum [v + i] is not below it, [v * 1] is [v], and
    [v * a] is monotone in [a] for [v >= 0] and antitone for [v <= 0]. *)
Section FloatOperations.

Variables mul sub add : Qc → Qc → Qc.
Hypothesis sub_le : ∀ v i, 0 <= i → sub v i <= v.
Hypothesis le_add : ∀ v i, 0 <= i → v <= add v i.
Hypothesis mul_1 : ∀ v, mul v 1 = v.
Hypothesis mul_mono : ∀ v a b, 0 <= v → a <= b → mul v a <= mul v b.
Hypothesis mul_anti : ∀ v a b, v <= 0 → a <= b → mul v b <= mul v a.

(** X3.  [setLimitsRel(i1, i2)] raises ValueError when an interval is
    negative.  For non-negative intervals it raises the ValueError of
    [setLimits] when the computed upper limit [value + i2] is not above
    the computed lower limit [value - i1] (both intervals zero, or both
    lost in rounding), and otherwise it stores exactly these two limits,
    which are then a proper interval around the value. *)
Theorem setLimitsRel_spec (i1 i2 : Qc) (self : PD.t) :
  (i1 < 0 ∨ i2 < 0 →
     setLimitsRel_with sub add i1 i2 self
     = Raise (ValueError "Limit intervals must be positive.")) ∧
  (0 <= i1 → 0 <= i2 → add (_value self) i2 <= sub (_value self) i1 →
     setLimitsRel_with sub add i1 i2 self
     = Raise (ValueError "v2 must be larger than v1.")) ∧
  (0 <= i1 → 0 <= i2 → sub (_value self) i1 < add (_value self) i2 →
     setLimitsRel_with sub add i1 i2 self
     = Ok (mk (_name self) (_value self)
             (Some (sub (_value self) i1, add (_value self) i2)) (fixed self)) ∧
     bounds_ok (mk (_name self) (_value self)
                  (Some (sub (_value self) i1, add (_value self) i2)) (fixed self))).
Proof.
  unfold setLimitsRel_with. split; [|split].
  - intros [H|H]; apply Qcltb_lt in H; rewrite H; [done|]. by rewrite orb_true_r.
  - intros H1 H2 H3.
    replace (Qcltb i1 0) with false by (symmetry; by apply Qcltb_ge).
    replace (Qcltb i2 0) with false by (symmetry; by apply Qcltb_ge). simpl.
    by apply setLimits_raises.
  - intros H1 H2 H3.
    replace (Qcltb i1 0) with false by (symmetry; by apply Qcltb_ge).
    replace (Qcltb i2 0) with false by (symmetry; by apply Qcltb_ge). simpl.
    pose proof (sub_le (_value self) i1 H1) as Hlo.
    pose proof (le_add (_value self) i2 H2) as Hhi.
    split; [by apply setLimits_inside|]. unfold bounds_ok. simpl. done.
Qed.

(** X4.  [setTolerance(tol)] on a value that is not negative, for
    [0 <= tol <= 1], returns and stores limits that contain the value:
    [lower <= value <= upper]. *)
Theorem setTolerance_nonnegative_value (tol : Qc) (self : PD.t) :
  0 <= _value self → 0 <= tol → tol <= 1 →
  setTolerance_with mul sub add tol self
  = Ok (mk (_name self) (_value self)
          (Some (mul (_value self) (sub 1 tol), mul (_value self) (add 1 tol)))
          (fixed self)) ∧
  mul (_value self) (sub 1 tol) <= _value self ∧
  _value self <= mul (_value self) (add 1 tol).
Proof.
  intros Hv Ht Ht1. unfold setTolerance_with.
  replace (Qcltb 1 tol) with false by (symmetry; by apply Qcltb_ge).
  replace (Qcltb tol 0) with false by (symmetry; by apply Qcltb_ge).
  split; [reflexivity|]. split.
  - rewrite <- (mul_1 (_value self)) at 2. apply mul_mono; [done|]. by apply sub_le.
  - rewrite <- (mul_1 (_value self)) at 1. apply mul_mono; [done|]. by apply le_add.
Qed.

(** X5.  [setTolerance(tol)] on a value that is not positive, for
    [0 <= tol <= 1], returns and stores limits whose upper one is not
    above the lower one, [upper <= value <= lower]: the limits are not a
    proper interval, and the invariant does not hold after the call. *)
Theorem setTolerance_nonpositive_value (tol : Qc) (self : PD.t) :
  _value self <= 0 → 0 <= tol → tol <= 1 →
  ∃ p', setTolerance_with mul sub add tol self = Ok p' ∧
        _limits p'
        = Some (mul (_value self) (sub 1 tol), mul (_value self) (add 1 tol)) ∧
        mul (_value self) (add 1 tol) <= _value self ∧
        _value self <= mul (_value self) (sub 1 tol) ∧
        ¬ bounds_ok p'.
Proof.
  intros Hv Ht Ht1. unfold setTolerance_with.
  replace (Qcltb 1 tol) with false by (symmetry; by apply Qcltb_ge).
  replace (Qcltb tol 0) with false by (symmetry; by apply Qcltb_ge).
  simpl. eexists. split; [reflexivity|]. simpl. split; [reflexivity|].
  assert (Hhi : mul (_value self) (add 1 tol) <= _value self).
  { rewrite <- (mul_1 (_value self)) at 2. apply mul_anti; [done|]. by apply le_add. }
  assert (Hlo : _value self <= mul (_value self) (sub 1 tol)).
  { rewrite <- (mul_1 (_value self)) at 1. apply mul_anti; [done|]. by apply sub_le. }
  split; [exact Hhi|]. split; [exact Hlo|].
  unfold bounds_ok. simpl. intros [Hlt _].
  apply (Qclt_not_le _ _ Hlt). by etrans.
Qed.

End FloatOperations.

(** The exact operations are operations of this kind. *)
Lemma Qc_mul_mono (v a b : Qc) : 0 <= v → a <= b → v * a <= v * b.
Proof.
  unfold Qcle, Qcmult, Q2Qc. simpl. rewrite !Qred_correct. intros Hv Hab.
  set (x := this v) in *. set (y := this a) in *. set (z := this b) in *. nra.
Qed.

Lemma Qc_mul_anti (v a b : Qc) : v <= 0 → a <= b → v * b <= v * a.
Proof.
  unfold Qcle, Qcmult, Q2Qc. simpl. rewrite !Qred_correct. intros Hv Hab.
  set (x := this v) in *. set (y := this a) in *. set (z := this b) in *. nra.
Qed.

(** X3 with the exact operations: intervals 2 and 3 around the value 10,
    and both intervals zero; and with operations that lose the interval
    1 next to the value 10, as the floats do next to 1e16. *)
Lemma setLimitsRel_spec_witness :
  setLimitsRel (Qc_of_Z 2) (Qc_of_Z 3) (mk "x" (Qc_of_Z 10) None false)
  = Ok (mk "x" (Qc_of_Z 10) (Some (Qc_of_Z 10 - Qc_of_Z 2, Qc_of_Z 10 + Qc_of_Z 3)) false) ∧
  setLimitsRel 0 0 (mk "x" (Qc_of_Z 10) None false)
  = Raise (ValueError "v2 must be larger than v1.") ∧
  setLimitsRel_with (λ v _, v) (λ v _, v) 1 1 (mk "x" (Qc_of_Z 10) None false)
  = Raise (ValueError "v2 must be larger than v1.").
Proof.
  split; [|split].
  - apply (proj2 (proj2 (setLimitsRel_spec Qcminus Qcplus Qc_sub_le Qc_le_add
                           (Qc_of_Z 2) (Qc_of_Z 3) (mk "x" (Qc_of_Z 10) None false))));
      first [reflexivity | intros H; vm_compute in H; discriminate].
  - apply (proj1 (proj2 (setLimitsRel_spec Qcminus Qcplus Qc_sub_le Qc_le_add
                           0 0 (mk "x" (Qc_of_Z 10) None false))));
      intros H; vm_compute in H; discriminate.
  - apply (proj1 (proj2 (setLimitsRel_spec (λ v _, v) (λ v _, v)
                           (λ v _ _, Qcle_refl v) (λ v _ _, Qcle_refl v)
                           1 1 (mk "x" (Qc_of_Z 10) None false))));
      intros H; vm_compute in H; discriminate.
Defined.

(** X4 with the exact operations: tolerance 0.2 on the value 1. *)
Lemma setTolerance_nonnegative_value_witness :
  setTolerance (Q2Qc (1 # 5)) (mk "x" 1 None false)
  = Ok (mk "x" 1 (Some (1 * (1 - Q2Qc (1 # 5)), 1 * (1 + Q2Qc (1 # 5)))) false) ∧
  1 * (1 - Q2Qc (1 # 5)) <= 1 ∧ 1 <= 1 * (1 + Q2Qc (1 # 5)).
Proof.
  apply (setTolerance_nonnegative_value Qcmult Qcminus Qcplus Qc_sub_le Qc_le_add
           Qcmult_1_r Qc_mul_mono (Q2Qc (1 # 5)) (mk "x" 1 None false));
    intros H; vm_compute in H; discriminate.
Defined.

(** X5 with the exact operations: tolerance 0.5 on the value -1. *)
Lemma setTolerance_nonpositive_value_witness :
  ∃ p', setTolerance (Q2Qc (1 # 2)) (mk "x" (- 1) None false) = Ok p' ∧
        _limits p' = Some (- 1 * (1 - Q2Qc (1 # 2)), - 1 * (1 + Q2Qc (1 # 2))) ∧
        - 1 * (1 + Q2Qc (1 # 2)) <= - 1 ∧
        - 1 <= - 1 * (1 - Q2Qc (1 # 2)) ∧
        ¬ bounds_ok p'.
Proof.
  apply (setTolerance_nonpositive_value Qcmult Qcminus Qcplus Qc_sub_le Qc_le_add
           Qcmult_1_r Qc_mul_anti (Q2Qc (1 # 2)) (mk "x" (- 1) None false));
    intros H; vm_compute in H; discriminate.
Defined.

(** X6.  The invariant "limits, when present, are a proper interval
    around the value" is kept by every sequence of [setLimits] calls and
    [setValue] calls that pass a [vmin]: if it holds before and the
    sequence runs without raising, it holds after. *)
Theorem checked_limits_keep_invariant (os : list op) : ∀ (p p' : PD.t),
  Forall (λ o, stores_checked_limits o = true) os →
  bounds_ok p →
  run_ops os p = Ok p' →
  bounds_ok p'.
Proof.
  induction os as [|o os IH]; intros p p' Hall Hp Hrun.
  - simpl in Hrun. by injection Hrun as <-.
  - apply Forall_cons in Hall as [Ho Hos]. simpl in Hrun.
    destruct (run_op o p) as [p1|] eqn:E; [|discriminate].
    apply (IH p1 p' Hos); [|done].
    destruct o as [v [vmin|] vmax f|tol|v1 v2]; try discriminate; simpl in E.
    + by eapply setValue_bounds_ok.
    + by eapply setLimits_bounds_ok.
Qed.

(** X6 on an entry of value 1: limits (0, 2), then value 5 with bounds
    (0, 2), then limits (7, 9). *)
Lemma checked_limits_keep_invariant_witness :
  bounds_ok (mk "x" (Qc_of_Z 5) (Some (Qc_of_Z 5, Qc_of_Z 9)) false).
Proof.
  apply (checked_limits_keep_invariant
           [OpSetLimits (Qc_of_Z 0) (Qc_of_Z 2);
            OpSetValue (Qc_of_Z 5) (Some (Scalar (Qc_of_Z 0))) (Some (Qc_of_Z 2)) false;
            OpSetLimits (Qc_of_Z 7) (Qc_of_Z 9)]
           (mk "x" 1 None false)).
  - repeat (apply Forall_cons; split; [reflexivity|]). apply Forall_nil_2.
  - exact I.
  - vm_compute. reflexivity.
Defined.

(** X7.  [==] on [ParameterDescription]s is reflexive, symmetric and
    transitive. *)
Theorem parameter_eq_equivalence :
  (∀ p, __eq__ p p = true) ∧
  (∀ p r, __eq__ p r = __eq__ r p) ∧
  (∀ p r s, __eq__ p r = true → __eq__ r s = true → __eq__ p s = true).
Proof.
  assert (L : ∀ a b, limits_eqb a b = true ↔ a = b).
  { intros [[l1 u1]|] [[l2 u2]|]; simpl; try (split; [discriminate|congruence]); [|done].
    rewrite andb_true_iff, !bool_decide_eq_true. split; [intros [-> ->]; done|].
    intros [= -> ->]. done. }
  assert (H : ∀ self rhs : PD.t,
     __eq__ self rhs = true ↔
     _name self = _name rhs ∧ _value self = _value rhs ∧ _limits self = _limits rhs).
  { intros self rhs. unfold __eq__.
    destruct (String.eqb_spec (_name self) (_name rhs)) as [En|En]; simpl.
    - destruct (bool_decide_reflect (_value self = _value rhs)) as [Ev|Ev]; simpl.
      + destruct (limits_eqb (_limits self) (_limits rhs)) eqn:El.
        * apply L in El. done.
        * split; [discriminate|]. intros (_ & _ & El'). apply L in El'. congruence.
      + split; [discriminate|]. intros (_ & ? & _). done.
    - split; [discriminate|]. intros (? & _). done. }
  split; [|split].
  - intros p. by apply H.
  - intros p r. destruct (__eq__ p r) eqn:E1, (__eq__ r p) eqn:E2; try done.
    + apply H in E1 as (? & ? & ?). assert (__eq__ r p = true) by (by apply H). congruence.
    + apply H in E2 as (? & ? & ?). assert (__eq__ p r = true) by (by apply H). congruence.
  - intros p r s H1 H2. apply H in H1 as (? & ? & ?). apply H in H2 as (? & ? & ?).
    apply H. repeat split; congruence.
Qed.

(** X7 on two entries that differ in the fixed flag and a third equal to
    the second. *)
Lemma parameter_eq_equivalence_witness :
  __eq__ (mk "x" 1 None false) (mk "x" 1 None false) = true.
Proof.
  apply (proj2 (proj2 parameter_eq_equivalence) _ (mk "x" 1 None true)); reflexivity.
Defined.

End ParameterLimits.

(** ** The flat vectors *)

Lemma mapM_app_Some {A B} (f : A → option B) l1 l2 k1 k2 :
  mapM f l1 = Some k1 → mapM f l2 = Some k2 → mapM f (l1 ++ l2) = Some (k1 ++ k2).
Proof. rewrite !mapM_Some. apply Forall2_app. Qed.

(** The objects of [parameterList], read in order, are the parameters of
    the content. *)
Lemma function_params_content h f t :
  read_func h f = Some t →
  ∃ ps, FunctionDescription.parameterList h f = Some ps ∧
        mapM (get_param h) ps = Some (fc_parameters t).
Proof.
  unfold read_func, FunctionDescription.parameterList. intros H.
  destruct (get_func h f) as [fd|]; [|done]. simpl in *.
  destruct (get_list h (FD._parameters fd)) as [ps|]; [|done]. simpl in *.
  destruct (mapM (get_param h) ps) as [pds|] eqn:E; [|done].
  injection H as <-. by exists ps.
Qed.

Lemma functions_params_content h fl (ts : list func_content) :
  mapM (read_func h) fl = Some ts →
  ∃ pss, mapM (FunctionDescription.parameterList h) fl = Some pss ∧
         mapM (get_param h) (concat pss) = Some (concat (fc_parameters <$> ts)).
Proof.
  revert ts. induction fl as [|f fl IH]; intros ts H.
  - apply mapM_Some, Forall2_nil_inv_l in H as ->. by exists [].
  - apply mapM_Some, Forall2_cons_inv_l in H as (t & ts' & Hf & Hfl & ->).
    destruct (function_params_content _ _ _ Hf) as (ps & Hps & Hpds).
    destruct (IH ts') as (pss & Hpss & Hall); [by apply mapM_Some|].
    exists (ps :: pss). split.
    + apply mapM_Some. apply Forall2_cons. split; [done|]. by apply mapM_Some.
    + simpl. by apply mapM_app_Some.
Qed.

Lemma function_set_params_content h s t :
  read_fset h s = Some t →
  ∃ ps, FunctionSetDescription.parameterList h s = Some ps ∧
        mapM (get_param h) ps
        = Some (sc_x0 t :: sc_y0 t :: concat (fc_parameters <$> sc_functions t)).
Proof.
  unfold read_fset, read_funcs, FunctionSetDescription.parameterList. intros H.
  destruct (get_fset h s) as [sd|]; [|done]. simpl in *.
  destruct (get_param h (FSD.x0 sd)) as [px|] eqn:Ex; [|done]. simpl in *.
  destruct (get_param h (FSD.y0 sd)) as [py|] eqn:Ey; [|done]. simpl in *.
  destruct (get_list h (FSD._functions sd)) as [fl|]; [|done]. simpl in *.
  destruct (mapM (read_func h) fl) as [ts|] eqn:E; [|done].
  injection H as <-. simpl.
  destruct (functions_params_content _ _ _ E) as (pss & Hpss & Hall).
  eexists. split; [by apply extend_loop_spec|].
  apply (mapM_app_Some _ [FSD.x0 sd; FSD.y0 sd] _ [px; py]); [|done].
  simpl. rewrite Ex, Ey. reflexivity.
Qed.

Lemma model_params_content h self m tss :
  get_model h self = Some m →
  read_fsets h (MD._functionSets m) = Some tss →
  ∃ ps, ModelDescription.parameterList h self = Some ps ∧
        mapM (get_param h) ps = Some (flat_params tss).
Proof.
  unfold read_fsets, ModelDescription.parameterList. intros Hm H. rewrite Hm. simpl.
  destruct (get_list h (MD._functionSets m)) as [fss|]; [|done]. simpl in *.
  assert (∃ pss, mapM (FunctionSetDescription.parameterList h) fss = Some pss ∧
                 mapM (get_param h) (concat pss) = Some (flat_params tss))
    as (pss & Hpss & Hall).
  { clear Hm. revert tss H. induction fss as [|s fss IH]; intros tss H.
    - apply mapM_Some, Forall2_nil_inv_l in H as ->. by exists [].
    - apply mapM_Some, Forall2_cons_inv_l in H as (t & ts' & Hs & Hfss & ->).
      destruct (function_set_params_content _ _ _ Hs) as (ps & Hps & Hpds).
      destruct (IH ts') as (pss & Hpss & Hall'); [by apply mapM_Some|].
      exists (ps :: pss). split.
      + apply mapM_Some. apply Forall2_cons. split; [done|]. by apply mapM_Some.
      + exact (mapM_app_Some _ ps (concat pss) _ (flat_params ts') Hpds Hall'). }
  exists (concat pss). split; [|done].
  by rewrite (parameterList_loop_spec _ _ _ pss Hpss).
Qed.

Lemma mapM_field {A} (field : PD.t → A) h ps (pds : list PD.t) :
  mapM (get_param h) ps = Some pds →
  mapM (λ p, field <$> get_param h p) ps = Some (field <$> pds).
Proof.
  rewrite !mapM_Some. intros H. apply Forall2_fmap_r.
  eapply Forall2_impl; [exact H|]. intros p pd Hp. simpl. by rewrite Hp.
Qed.

(** X8.  For every model whose function sets can be read,
    [getRawParameters] and [getParameterLimits] return the values and
    the limits of the parameters in the order x0, y0, the parameters of
    the first function, of the second, ..., set after set; both have the
    length of [parameterList], and their i-th entries are the value and
    the limits of its i-th object. *)
Theorem flat_vectors_spec (h : heap) (self : loc) (m : MD.t) (tss : list fset_content) :
  get_model h self = Some m →
  read_fsets h (MD._functionSets m) = Some tss →
  ∃ ps,
    ModelDescription.parameterList h self = Some ps ∧
    ModelDescription.getRawParameters h self = Some (PD._value <$> flat_params tss) ∧
    ModelDescription.getParameterLimits h self = Some (PD._limits <$> flat_params tss) ∧
    List.length (PD._value <$> flat_params tss) = List.length ps ∧
    List.length (PD._limits <$> flat_params tss) = List.length ps ∧
    (∀ i p, ps !! i = Some p →
       ∃ pd, get_param h p = Some pd ∧
             (PD._value <$> flat_params tss) !! i = Some (PD._value pd) ∧
             (PD._limits <$> flat_params tss) !! i = Some (PD._limits pd)).
Proof.
  intros Hm Hr. destruct (model_params_content h self m tss Hm Hr) as (ps & Hps & Hpds).
  exists ps. split; [done|].
  unfold ModelDescription.getRawParameters, ModelDescription.getParameterLimits.
  rewrite Hps. simpl.
  split; [by apply mapM_field|]. split; [by apply mapM_field|].
  pose proof Hpds as Hall. apply mapM_Some in Hall.
  rewrite !length_fmap. split; [symmetry; by eapply Forall2_length|].
  split; [symmetry; by eapply Forall2_length|].
  intros i p Hi. destruct (Forall2_lookup_l _ _ _ _ _ Hall Hi) as (pd & Hpd & Hget).
  exists pd. split; [done|]. by rewrite !list_lookup_fmap, Hpd.
Qed.

(** X8 on the gaussian model. *)
Lemma flat_vectors_spec_witness :
  ∃ ps, ModelDescription.parameterList gaussian_heap gaussian_model = Some ps ∧
        List.length ps = 5%nat.
Proof.
  destruct (flat_vectors_spec gaussian_heap gaussian_model _ _ eq_refl eq_refl)
    as (ps & Hps & _ & _ & Hlen & _).
  exists ps. split; [exact Hps|]. rewrite <- Hlen. reflexivity.
Defined.

Lemma functionList_loop_spec h fss (fls : list (list string)) : ∀ acc,
  mapM (FunctionSetDescription.functionList h) fss = Some fls →
  ModelDescription.functionList_loop h fss acc = Some (acc ++ concat fls).
Proof.
  revert fls. induction fss as [|s fss IH]; intros fls acc Hf.
  - apply mapM_Some, Forall2_nil_inv_l in Hf as ->. simpl. by rewrite app_nil_r.
  - apply mapM_Some, Forall2_cons_inv_l in Hf as (fl & fls' & Hs & Hfss & ->).
    simpl. rewrite Hs. simpl. rewrite (IH fls') by (by apply mapM_Some).
    by rewrite app_assoc.
Qed.

(** X9.  [functionList] of a model is the concatenation, in the order of
    the function sets, of the [functionList] of each set. *)
Theorem functionList_concat (h : heap) (self : loc) (m : MD.t) (fss : list loc)
    (fls : list (list string)) :
  get_model h self = Some m →
  get_list h (MD._functionSets m) = Some fss →
  mapM (FunctionSetDescription.functionList h) fss = Some fls →
  ModelDescription.functionList h self = Some (concat fls).
Proof.
  intros Hm Hl Hf. unfold ModelDescription.functionList. rewrite Hm. simpl.
  rewrite Hl. simpl. by rewrite (functionList_loop_spec h fss fls []).
Qed.

(** X9 on the model of three function sets. *)
Lemma functionList_concat_witness :
  ModelDescription.functionList three_sets_heap three_sets_model
  = Some (concat [["Gaussian"]; ["Gaussian"]; ["Gaussian"]]).
Proof.
  exact (functionList_concat three_sets_heap three_sets_model _ _ _
           eq_refl eq_refl eq_refl).
Defined.

(** X10 on the model of three function sets. *)
Lemma functionSetIndices_spec_witness :
  ModelDescription.functionSetIndices three_sets_heap three_sets_model
  = Some (0 :: take (3 - 1) [1; 1; 1])%nat.
Proof.
  exact (functionSetIndices_spec three_sets_heap three_sets_model _ _ [1; 1; 1]%nat
           eq_refl eq_refl eq_refl).
Defined.

(** X11.  For a model of one or two function sets [functionSetIndices]
    does return the starting offset of each set in the flattened
    function list; for a model with no function set it returns [0],
    where there is no set to give an offset for. *)
Theorem functionSetIndices_small_models (h : heap) (self : loc) (m : MD.t)
    (fss : list loc) (counts : list nat) :
  get_model h self = Some m →
  get_list h (MD._functionSets m) = Some fss →
  mapM (λ fs, List.length <$> FunctionSetDescription.functionList h fs) fss = Some counts →
  (List.length fss ≤ 2)%nat →
  ModelDescription.functionSetIndices h self
  = Some (if decide (fss = []) then [0%nat] else start_offsets counts).
Proof.
  intros Hm Hl Hc Hlen. unfold ModelDescription.functionSetIndices.
  rewrite Hm. simpl. rewrite Hl. simpl.
  rewrite (indices_loop_spec _ _ counts) by (done || lia).
  assert (List.length fss = List.length counts) as Hlc
    by (apply mapM_Some in Hc; by eapply Forall2_length).
  destruct fss as [|s1 [|s2 [|s3 fss]]]; simpl in *;
    destruct counts as [|c1 [|c2 [|c3 counts]]]; simpl in *; try done; lia.
Qed.

(** X11 on the gaussian model, which has one function set. *)
Lemma functionSetIndices_small_models_witness :
  ModelDescription.functionSetIndices gaussian_heap gaussian_model
  = Some (start_offsets [1%nat]).
Proof.
  refine (functionSetIndices_small_models gaussian_heap gaussian_model _ _ [1%nat]
            eq_refl eq_refl eq_refl _).
  simpl. lia.
Defined.

(** ** Building the collections *)

Section Collections.

Local Open Scope heap_scope.

Lemma mapM_fmap_Some {A B} (g : A → B) (read : loc → option A) xs (ys : list B) :
  mapM (λ x, g <$> read x) xs = Some ys ↔ ∃ ts, mapM read xs = Some ts ∧ ys = g <$> ts.
Proof.
  split.
  - revert ys. induction xs as [|x xs IH]; intros ys H.
    + apply mapM_Some, Forall2_nil_inv_l in H as ->. by exists [].
    + apply mapM_Some, Forall2_cons_inv_l in H as (y & ys' & Hx & Hxs & ->).
      apply fmap_Some in Hx as (t & Ht & ->).
      destruct (IH ys') as (ts & Hts & ->); [by apply mapM_Some|].
      exists (t :: ts). split; [|done]. apply mapM_Some, Forall2_cons.
      split; [done|]. by apply mapM_Some.
  - intros (ts & Hts & ->). apply mapM_Some, Forall2_fmap_r.
    apply mapM_Some in Hts. eapply Forall2_impl; [exact Hts|].
    intros x t Hx. simpl. by rewrite Hx.
Qed.

Lemma for_each_app {A} (body : A → M unit) l1 l2 h h1 :
  for_each body l1 h = Some (Ok (), h1) →
  for_each body (l1 ++ l2) h = for_each body l2 h1.
Proof.
  revert h. induction l1 as [|a l1 IH]; intros h H.
  - simpl in *. unfold ret in H. by injection H as ->.
  - simpl in *. unfold bind in *.
    destruct (body a h) as [[[[]|e] h2]|]; [|done|done]. by apply IH.
Qed.

(** The heap that a returning [addParameter], [addFunction] and
    [addFunctionSet] leave. *)
Lemma addParameter_Ok h self fd ps p pd :
  get_func h self = Some fd →
  get_list h (FD._parameters fd) = Some ps →
  get_param h p = Some pd →
  FunctionDescription.slot_of (PD._name pd) = Free →
  FunctionDescription.addParameter self p h
  = Some (Ok (), <[self := OFunc (FD.mk (FD.funcType fd) (FD._name fd) (FD._parameters fd)
                                    (<[PD._name pd := p]> (FD.attrs fd)))]>
                   (<[FD._parameters fd := OList (ps ++ [p])]> h)).
Proof.
  intros Hf Hl Hp Hslot. pose proof (addParameter_spec h self fd ps p pd Hf Hl Hp) as H.
  by rewrite Hslot in H.
Qed.

Lemma addFunction_Ok h self s fl (fds : list FD.t) f fd :
  get_fset h self = Some s →
  get_list h (FSD._functions s) = Some fl →
  mapM (get_func h) fl = Some fds →
  get_func h f = Some fd →
  FD._name fd ∉ FD._name <$> fds →
  FunctionSetDescription.slot_of (FD._name fd) = Free →
  FunctionSetDescription.addFunction self f h
  = Some (Ok (), <[self := OFSet (FSD.mk (FSD._name s) (FSD.x0 s) (FSD.y0 s) (FSD._functions s)
                                    (<[FD._name fd := f]> (FSD.attrs s)))]>
                   (<[FSD._functions s := OList (fl ++ [f])]> h)).
Proof.
  intros Hs Hl Hfds Hf Hnew Hslot. apply get_func_Some in Hf.
  pose proof (addFunction_spec h self s fl fds f _ Hs Hl Hfds Hf) as H. simpl in H.
  by rewrite bool_decide_false, Hslot in H.
Qed.

Lemma addFunction_dup h self s fl (fds : list FD.t) f fd :
  get_fset h self = Some s →
  get_list h (FSD._functions s) = Some fl →
  mapM (get_func h) fl = Some fds →
  get_func h f = Some fd →
  FD._name fd ∈ FD._name <$> fds →
  FunctionSetDescription.addFunction self f h
  = Some (Raise (KeyError ("Function named " ++ FD._name fd ++ " already exists.")%string), h).
Proof.
  intros Hs Hl Hfds Hf Hold. apply get_func_Some in Hf.
  pose proof (addFunction_spec h self s fl fds f _ Hs Hl Hfds Hf) as H. simpl in H.
  by rewrite bool_decide_true in H.
Qed.

Lemma addFunctionSet_Ok h self m fl (sds : list FSD.t) fs s :
  get_model h self = Some m →
  get_list h (MD._functionSets m) = Some fl →
  mapM (get_fset h) fl = Some sds →
  get_fset h fs = Some s →
  FSD._name s ∉ FSD._name <$> sds →
  ModelDescription.slot_of (MD.simple m) (FSD._name s) = Free →
  ModelDescription.addFunctionSet self fs h
  = Some (Ok (), <[self := OModel (MD.mk (MD.simple m) (MD.options m) (MD._functionSets m)
                                     (<[FSD._name s := fs]> (MD.attrs m)))]>
                   (<[MD._functionSets m := OList (fl ++ [fs])]> h)).
Proof.
  intros Hs Hl Hfds Hf Hnew Hslot. apply get_fset_Some in Hf.
  pose proof (addFunctionSet_spec h self m fl sds fs _ Hs Hl Hfds Hf) as H. simpl in H.
  by rewrite bool_decide_false, Hslot in H.
Qed.

Lemma addFunctionSet_dup h self m fl (sds : list FSD.t) fs s :
  get_model h self = Some m →
  get_list h (MD._functionSets m) = Some fl →
  mapM (get_fset h) fl = Some sds →
  get_fset h fs = Some s →
  FSD._name s ∈ FSD._name <$> sds →
  ModelDescription.addFunctionSet self fs h
  = Some (Raise (KeyError ("FunctionSet named " ++ FSD._name s ++ " already exists.")%string), h).
Proof.
  intros Hs Hl Hfds Hf Hold. apply get_fset_Some in Hf.
  pose proof (addFunctionSet_spec h self m fl sds fs _ Hs Hl Hfds Hf) as H. simpl in H.
  by rewrite bool_decide_true in H.
Qed.

(** Items of another class than the container and its list are not
    touched by the two updates. *)
Lemma items_kept {A} (read : heap → loc → option A) (h h' : heap) self l xs (ts : list A) :
  (∀ x t, read h x = Some t → x ≠ self ∧ x ≠ l ∧ ∀ h2 : heap, h2 !! x = h !! x → read h2 x = Some t) →
  (∀ x, x ≠ self → x ≠ l → h' !! x = h !! x) →
  mapM (read h) xs = Some ts → mapM (read h') xs = Some ts.
Proof.
  intros Hread Hframe H. apply mapM_Some. apply mapM_Some in H.
  eapply Forall2_impl; [exact H|]. intros x t Hx.
  destruct (Hread x t Hx) as (H1 & H2 & H3). apply H3. by apply Hframe.
Qed.

Lemma param_item h self l fd ps :
  get_func h self = Some fd → get_list h l = Some ps →
  ∀ x t, get_param h x = Some t →
         x ≠ self ∧ x ≠ l ∧ ∀ h2 : heap, h2 !! x = h !! x → get_param h2 x = Some t.
Proof.
  intros Hf Hl x t Hx. apply get_func_Some in Hf. apply get_list_Some in Hl.
  pose proof Hx as Hx'. apply get_param_Some in Hx'.
  split; [intros ->; congruence|]. split; [intros ->; congruence|].
  intros h2 E. apply get_param_Some. by rewrite E.
Qed.

Lemma func_item h self l s fl :
  get_fset h self = Some s → get_list h l = Some fl →
  ∀ x t, get_func h x = Some t →
         x ≠ self ∧ x ≠ l ∧ ∀ h2 : heap, h2 !! x = h !! x → get_func h2 x = Some t.
Proof.
  intros Hf Hl x t Hx. apply get_fset_Some in Hf. apply get_list_Some in Hl.
  pose proof Hx as Hx'. apply get_func_Some in Hx'.
  split; [intros ->; congruence|]. split; [intros ->; congruence|].
  intros h2 E. apply get_func_Some. by rewrite E.
Qed.

Lemma fset_item h self l m fl :
  get_model h self = Some m → get_list h l = Some fl →
  ∀ x t, get_fset h x = Some t →
         x ≠ self ∧ x ≠ l ∧ ∀ h2 : heap, h2 !! x = h !! x → get_fset h2 x = Some t.
Proof.
  intros Hf Hl x t Hx. apply get_model_Some in Hf. apply get_list_Some in Hl.
  pose proof Hx as Hx'. apply get_fset_Some in Hx'.
  split; [intros ->; congruence|]. split; [intros ->; congruence|].
  intros h2 E. apply get_fset_Some. by rewrite E.
Qed.

(** The loops of the three constructors. *)
Lemma addParameter_loop self ps : ∀ (pds : list PD.t) h fd acc,
  get_func h self = Some fd →
  get_list h (FD._parameters fd) = Some acc →
  mapM (get_param h) ps = Some pds →
  Forall (λ pd, FunctionDescription.slot_of (PD._name pd) = Free) pds →
  ∃ h' attrs',
    for_each (FunctionDescription.addParameter self) ps h = Some (Ok (), h') ∧
    get_func h' self
    = Some (FD.mk (FD.funcType fd) (FD._name fd) (FD._parameters fd) attrs') ∧
    get_list h' (FD._parameters fd) = Some (acc ++ ps) ∧
    List.length h' = List.length h ∧
    (∀ x, x ≠ self → x ≠ FD._parameters fd → h' !! x = h !! x).
Proof.
  induction ps as [|p ps IH]; intros pds h fd acc Hf Hl Hps Hfree.
  - exists h, (FD.attrs fd). simpl. rewrite app_nil_r. by destruct fd.
  - apply mapM_Some, Forall2_cons_inv_l in Hps as (pd & pds' & Hp & Hps & ->).
    apply mapM_Some in Hps. apply Forall_cons in Hfree as [Hfree1 Hfree].
    pose proof (addParameter_Ok h self fd acc p pd Hf Hl Hp Hfree1) as Hadd.
    set (fd1 := FD.mk (FD.funcType fd) (FD._name fd) (FD._parameters fd)
                  (<[PD._name pd := p]> (FD.attrs fd))) in *.
    set (h1 := <[self := OFunc fd1]> (<[FD._parameters fd := OList (acc ++ [p])]> h)) in *.
    pose proof Hf as Hf'. apply get_func_Some in Hf'.
    pose proof Hl as Hl'. apply get_list_Some in Hl'.
    assert (Hne : self ≠ FD._parameters fd) by (intros E; rewrite <- E in Hl'; congruence).
    assert (Hf1 : get_func h1 self = Some fd1).
    { apply get_func_Some, update2_self. by eapply lookup_lt_Some. }
    assert (Hl1 : get_list h1 (FD._parameters fd1) = Some (acc ++ [p])).
    { apply get_list_Some, update2_list; [done|]. by eapply lookup_lt_Some. }
    assert (Hfr : ∀ x, x ≠ self → x ≠ FD._parameters fd → h1 !! x = h !! x).
    { intros x H1 H2. by apply update2_other. }
    pose proof (items_kept get_param h h1 self _ ps pds' (param_item _ _ _ _ _ Hf Hl) Hfr Hps)
      as Hps1.
    destruct (IH pds' h1 fd1 (acc ++ [p]) Hf1 Hl1 Hps1 Hfree)
      as (h' & attrs' & Hrun & Hf2 & Hl2 & Hlen & Hfr2).
    cbn [fd1 FD._parameters FD.funcType FD._name] in Hf2, Hl2, Hfr2.
    exists h', attrs'. split; [|split; [|split; [|split]]].
    + simpl. by rewrite (bind_Ok _ _ _ _ _ Hadd).
    + exact Hf2.
    + rewrite Hl2. by rewrite <- app_assoc.
    + rewrite Hlen. unfold h1. by rewrite !length_insert.
    + intros x H1 H2. rewrite Hfr2 by done. by apply Hfr.
Qed.

Lemma addFunction_loop self fs : ∀ (fds : list FD.t) h s acc (accds : list FD.t),
  get_fset h self = Some s →
  get_list h (FSD._functions s) = Some acc →
  mapM (get_func h) acc = Some accds →
  mapM (get_func h) fs = Some fds →
  NoDup (FD._name <$> (accds ++ fds)) →
  Forall (λ fd, FunctionSetDescription.slot_of (FD._name fd) = Free) fds →
  ∃ h' attrs',
    for_each (FunctionSetDescription.addFunction self) fs h = Some (Ok (), h') ∧
    get_fset h' self
    = Some (FSD.mk (FSD._name s) (FSD.x0 s) (FSD.y0 s) (FSD._functions s) attrs') ∧
    get_list h' (FSD._functions s) = Some (acc ++ fs) ∧
    List.length h' = List.length h ∧
    (∀ x, x ≠ self → x ≠ FSD._functions s → h' !! x = h !! x).
Proof.
  induction fs as [|f fs IH]; intros fds h s acc accds Hs Hl Hacc Hfs Hnd Hfree.
  - exists h, (FSD.attrs s). simpl. rewrite app_nil_r. by destruct s.
  - apply mapM_Some, Forall2_cons_inv_l in Hfs as (fd & fds' & Hf & Hfs & ->).
    apply mapM_Some in Hfs. apply Forall_cons in Hfree as [Hfree1 Hfree].
    assert (Hnew : FD._name fd ∉ FD._name <$> accds).
    { rewrite fmap_app, fmap_cons in Hnd. apply NoDup_app in Hnd as (_ & Hd & _).
      intros Hin. apply (Hd _ Hin). apply elem_of_cons. by left. }
    pose proof (addFunction_Ok h self s acc accds f fd Hs Hl Hacc Hf Hnew Hfree1) as Hadd.
    set (s1 := FSD.mk (FSD._name s) (FSD.x0 s) (FSD.y0 s) (FSD._functions s)
                 (<[FD._name fd := f]> (FSD.attrs s))) in *.
    set (h1 := <[self := OFSet s1]> (<[FSD._functions s := OList (acc ++ [f])]> h)) in *.
    pose proof Hs as Hs'. apply get_fset_Some in Hs'.
    pose proof Hl as Hl'. apply get_list_Some in Hl'.
    assert (Hne : self ≠ FSD._functions s) by (intros E; rewrite <- E in Hl'; congruence).
    assert (Hs1 : get_fset h1 self = Some s1).
    { apply get_fset_Some, update2_self. by eapply lookup_lt_Some. }
    assert (Hl1 : get_list h1 (FSD._functions s1) = Some (acc ++ [f])).
    { apply get_list_Some, update2_list; [done|]. by eapply lookup_lt_Some. }
    assert (Hfr : ∀ x, x ≠ self → x ≠ FSD._functions s → h1 !! x = h !! x).
    { intros x H1 H2. by apply update2_other. }
    pose proof (items_kept get_func h h1 self _ fs fds' (func_item _ _ _ _ _ Hs Hl) Hfr Hfs)
      as Hfs1.
    assert (Hacc1 : mapM (get_func h1) (acc ++ [f]) = Some (accds ++ [fd])).
    { apply (items_kept get_func h h1 self _ _ _ (func_item _ _ _ _ _ Hs Hl) Hfr).
      apply mapM_app_Some; [done|]. simpl. by rewrite Hf. }
    destruct (IH fds' h1 s1 (acc ++ [f]) (accds ++ [fd]) Hs1 Hl1 Hacc1 Hfs1)
      as (h' & attrs' & Hrun & Hs2 & Hl2 & Hlen & Hfr2).
    { by rewrite <- app_assoc. }
    { exact Hfree. }
    cbn [s1 FSD._name FSD.x0 FSD.y0 FSD._functions MD.simple MD.options MD._functionSets]
      in Hs2, Hl2, Hfr2.
    exists h', attrs'. split; [|split; [|split; [|split]]].
    + simpl. by rewrite (bind_Ok _ _ _ _ _ Hadd).
    + exact Hs2.
    + rewrite Hl2. by rewrite <- app_assoc.
    + rewrite Hlen. unfold h1. by rewrite !length_insert.
    + intros x H1 H2. rewrite Hfr2 by done. by apply Hfr.
Qed.

Lemma addFunctionSet_loop self fss : ∀ (sds : list FSD.t) h m acc (accds : list FSD.t),
  get_model h self = Some m →
  get_list h (MD._functionSets m) = Some acc →
  mapM (get_fset h) acc = Some accds →
  mapM (get_fset h) fss = Some sds →
  NoDup (FSD._name <$> (accds ++ sds)) →
  Forall (λ sd, ModelDescription.slot_of (MD.simple m) (FSD._name sd) = Free) sds →
  ∃ h' attrs',
    for_each (ModelDescription.addFunctionSet self) fss h = Some (Ok (), h') ∧
    get_model h' self
    = Some (MD.mk (MD.simple m) (MD.options m) (MD._functionSets m) attrs') ∧
    get_list h' (MD._functionSets m) = Some (acc ++ fss) ∧
    List.length h' = List.length h ∧
    (∀ x, x ≠ self → x ≠ MD._functionSets m → h' !! x = h !! x).
Proof.
  induction fss as [|f fs IH]; intros fds h s acc accds Hs Hl Hacc Hfs Hnd Hfree.
  - exists h, (MD.attrs s). simpl. rewrite app_nil_r. by destruct s.
  - apply mapM_Some, Forall2_cons_inv_l in Hfs as (fd & fds' & Hf & Hfs & ->).
    apply mapM_Some in Hfs. apply Forall_cons in Hfree as [Hfree1 Hfree].
    assert (Hnew : FSD._name fd ∉ FSD._name <$> accds).
    { rewrite fmap_app, fmap_cons in Hnd. apply NoDup_app in Hnd as (_ & Hd & _).
      intros Hin. apply (Hd _ Hin). apply elem_of_cons. by left. }
    pose proof (addFunctionSet_Ok h self s acc accds f fd Hs Hl Hacc Hf Hnew Hfree1) as Hadd.
    set (s1 := MD.mk (MD.simple s) (MD.options s) (MD._functionSets s)
                 (<[FSD._name fd := f]> (MD.attrs s))) in *.
    set (h1 := <[self := OModel s1]> (<[MD._functionSets s := OList (acc ++ [f])]> h)) in *.
    pose proof Hs as Hs'. apply get_model_Some in Hs'.
    pose proof Hl as Hl'. apply get_list_Some in Hl'.
    assert (Hne : self ≠ MD._functionSets s) by (intros E; rewrite <- E in Hl'; congruence).
    assert (Hs1 : get_model h1 self = Some s1).
    { apply get_model_Some, update2_self. by eapply lookup_lt_Some. }
    assert (Hl1 : get_list h1 (MD._functionSets s1) = Some (acc ++ [f])).
    { apply get_list_Some, update2_list; [done|]. by eapply lookup_lt_Some. }
    assert (Hfr : ∀ x, x ≠ self → x ≠ MD._functionSets s → h1 !! x = h !! x).
    { intros x H1 H2. by apply update2_other. }
    pose proof (items_kept get_fset h h1 self _ fs fds' (fset_item _ _ _ _ _ Hs Hl) Hfr Hfs)
      as Hfs1.
    assert (Hacc1 : mapM (get_fset h1) (acc ++ [f]) = Some (accds ++ [fd])).
    { apply (items_kept get_fset h h1 self _ _ _ (fset_item _ _ _ _ _ Hs Hl) Hfr).
      apply mapM_app_Some; [done|]. simpl. by rewrite Hf. }
    destruct (IH fds' h1 s1 (acc ++ [f]) (accds ++ [fd]) Hs1 Hl1 Hacc1 Hfs1)
      as (h' & attrs' & Hrun & Hs2 & Hl2 & Hlen & Hfr2).
    { by rewrite <- app_assoc. }
    { exact Hfree. }
    cbn [s1 FSD._name FSD.x0 FSD.y0 FSD._functions MD.simple MD.options MD._functionSets]
      in Hs2, Hl2, Hfr2.
    exists h', attrs'. split; [|split; [|split; [|split]]].
    + simpl. by rewrite (bind_Ok _ _ _ _ _ Hadd).
    + exact Hs2.
    + rewrite Hl2. by rewrite <- app_assoc.
    + rewrite Hlen. unfold h1. by rewrite !length_insert.
    + intros x H1 H2. rewrite Hfr2 by done. by apply Hfr.
Qed.

End Collections.

(** ** The constructors of the container classes *)

Lemma unchanged_le h h' : unchanged h h' → view_le h h'.
Proof. intros H l o Hl. right. by apply H. Qed.

Lemma unchanged_app (h ext : heap) : unchanged h (h ++ ext).
Proof. intros l o. apply lookup_app_l_Some. Qed.

Lemma unchanged_trans h1 h2 h3 : unchanged h1 h2 → unchanged h2 h3 → unchanged h1 h3.
Proof. intros H1 H2 l o Hl. by apply H2, H1. Qed.

(** From the frame of a loop that began on [h ++ [OList []; o]]. *)
Lemma unchanged_loop (h h' : heap) o :
  (∀ x, x ≠ (List.length h + 1)%nat → x ≠ List.length h →
        h' !! x = (h ++ [OList []; o]) !! x) →
  unchanged h h'.
Proof.
  intros Hfr l o' Hl. pose proof (lookup_lt_Some _ _ _ Hl) as Hlt.
  rewrite Hfr by lia. by apply lookup_app_l_Some.
Qed.

(** X12.  [FunctionDescription(func_type, name, parameters)]: when every
    item of [parameters] is a [ParameterDescription] whose name names
    nothing else in the function, the call returns a new function whose
    type is [func_type], whose label is [name] (or [func_type] when no
    name is given) and whose [parameterList()] is [parameters], the same
    objects in the same order.  When the items before some item are
    such parameters, the call raises ValueError if that item is not a
    [ParameterDescription], and AttributeError if it is one named
    "name", the read-only property.  In all three cases no object that
    existed before the call is changed. *)
Theorem FunctionDescription_init_spec (h : heap) (func_type : string)
    (name : option string) (ps : list loc) :
  (∀ pds : list PD.t,
     mapM (get_param h) ps = Some pds →
     Forall (λ pd, FunctionDescription.slot_of (PD._name pd) = Free) pds →
     ∃ self h',
       FunctionDescription.__init__ func_type name (Some ps) h = Some (Ok self, h') ∧
       unchanged h h' ∧ h !! self = None ∧
       read_func h' self = Some (mkFuncContent func_type (default func_type name) pds) ∧
       FunctionDescription.parameterList h' self = Some ps) ∧
  (∀ ps1 x ps2 (pds1 : list PD.t) o,
     ps = ps1 ++ x :: ps2 →
     mapM (get_param h) ps1 = Some pds1 →
     Forall (λ pd, FunctionDescription.slot_of (PD._name pd) = Free) pds1 →
     h !! x = Some o → get_param h x = None →
     ∃ h',
       FunctionDescription.__init__ func_type name (Some ps) h
       = Some (Raise (ValueError "p is not a ParameterDescription object."), h') ∧
       unchanged h h') ∧
  (∀ ps1 x ps2 (pds1 : list PD.t) pd,
     ps = ps1 ++ x :: ps2 →
     mapM (get_param h) ps1 = Some pds1 →
     Forall (λ pd, FunctionDescription.slot_of (PD._name pd) = Free) pds1 →
     get_param h x = Some pd →
     FunctionDescription.slot_of (PD._name pd) = ReadOnly →
     ∃ h',
       FunctionDescription.__init__ func_type name (Some ps) h
       = Some (Raise AttributeError, h') ∧
       unchanged h h').
Proof.
  set (fd0 := FD.mk func_type (default func_type name) (List.length h) ∅).
  set (h0 := h ++ [OList []; OFunc fd0]).
  set (self := (List.length h + 1)%nat).
  assert (E : FunctionDescription.__init__ func_type name (Some ps) h
              = (for_each (FunctionDescription.addParameter self) ps ;; ret self) h0).
  { unfold FunctionDescription.__init__, bind at 1 2, alloc. simpl.
    unfold h0, self, fd0. by rewrite length_app, <- app_assoc. }
  assert (Hf0 : get_func h0 self = Some fd0).
  { apply get_func_Some. by apply (lookup_ext_Some h _ 1). }
  assert (Hl0 : get_list h0 (FD._parameters fd0) = Some []).
  { apply get_list_Some. simpl. rewrite <- (Nat.add_0_r (List.length h)).
    by apply (lookup_ext_Some h _ 0). }
  assert (Hp0 : ∀ qs (qds : list PD.t),
            mapM (get_param h) qs = Some qds → mapM (get_param h0) qs = Some qds).
  { intros qs qds. apply mapM_le. intros l t. apply get_param_le, view_le_app. }
  split; [|split].
  - intros pds Hps Hfree.
    destruct (addParameter_loop self ps pds h0 fd0 [] Hf0 Hl0 (Hp0 _ _ Hps) Hfree)
      as (h' & attrs' & Hrun & Hf' & Hl' & Hlen & Hfr).
    cbn [fd0 FD._parameters FD.funcType FD._name] in Hf', Hl', Hfr.
    exists self, h'. rewrite E, (bind_Ok _ _ _ _ _ Hrun).
    split; [done|]. split; [by eapply unchanged_loop|].
    split; [apply lookup_ge_None; unfold self; lia|].
    assert (Hps' : mapM (get_param h') ps = Some pds).
    { eapply (items_kept get_param h0 h' self (List.length h));
        [by apply (param_item h0 self _ fd0 [])|exact Hfr|by apply Hp0]. }
    unfold read_func, FunctionDescription.parameterList. rewrite Hf'. simpl.
    rewrite Hl'. simpl. by rewrite Hps'.
  - intros ps1 x ps2 pds1 o -> Hps1 Hfree Hx Hnp.
    destruct (addParameter_loop self ps1 pds1 h0 fd0 [] Hf0 Hl0 (Hp0 _ _ Hps1) Hfree)
      as (h' & attrs' & Hrun & Hf' & Hl' & Hlen & Hfr).
    cbn [fd0 FD._parameters] in Hfr.
    exists h'. split; [|by eapply unchanged_loop].
    rewrite E. unfold bind at 1. rewrite (for_each_app _ _ _ _ _ Hrun). simpl.
    assert (Hx' : h' !! x = Some o).
    { pose proof (lookup_lt_Some _ _ _ Hx) as Hlt. rewrite Hfr by (unfold self; lia).
      by apply lookup_app_l_Some. }
    assert (Hr : FunctionDescription.addParameter self x h'
                 = Some (Raise (ValueError "p is not a ParameterDescription object."), h')).
    { unfold FunctionDescription.addParameter.
      rewrite (bind_Ok _ _ _ _ _ (get_Some _ _ _ Hx')).
      unfold get_param in Hnp. rewrite Hx in Hnp. by destruct o. }
    unfold bind. by rewrite Hr.
  - intros ps1 x ps2 pds1 pd -> Hps1 Hfree Hx Hro.
    destruct (addParameter_loop self ps1 pds1 h0 fd0 [] Hf0 Hl0 (Hp0 _ _ Hps1) Hfree)
      as (h' & attrs' & Hrun & Hf' & Hl' & Hlen & Hfr).
    cbn [fd0 FD._parameters FD.funcType FD._name] in Hf', Hl', Hfr.
    assert (Hx' : get_param h' x = Some pd).
    { apply get_param_Some. apply get_param_Some in Hx.
      pose proof (lookup_lt_Some _ _ _ Hx) as Hlt. rewrite Hfr by (unfold self; lia).
      by apply lookup_app_l_Some. }
    pose proof (addParameter_spec h' self _ _ x pd Hf' Hl' Hx') as Hr.
    rewrite Hro in Hr. cbn [FD._parameters] in Hr.
    eexists. split.
    + rewrite E. unfold bind at 1. rewrite (for_each_app _ _ _ _ _ Hrun). simpl.
      unfold bind. rewrite Hr. reflexivity.
    + intros l o Hlo. pose proof (lookup_lt_Some _ _ _ Hlo) as Hlt.
      rewrite list_lookup_insert_ne by lia. rewrite Hfr by (unfold self; lia).
      by apply lookup_app_l_Some.
Qed.

(** X12 on the heap of the gaussian model: a function made of its three
    parameters; a call whose second item is the list object of the
    function; and, with a parameter named "name" put into the heap, a
    call whose second item is this parameter. *)
Lemma FunctionDescription_init_spec_witness :
  (∃ self h',
     FunctionDescription.__init__ "Gaussian" None (Some [2; 3; 4]%nat) gaussian_heap
     = Some (Ok self, h') ∧
     FunctionDescription.parameterList h' self = Some [2; 3; 4]%nat) ∧
  (∃ h',
     FunctionDescription.__init__ "Gaussian" None (Some [2; 5; 4]%nat) gaussian_heap
     = Some (Raise (ValueError "p is not a ParameterDescription object."), h')) ∧
  (∃ h',
     FunctionDescription.__init__ "Gaussian" None (Some [2; 11]%nat)
       (gaussian_heap ++ [OParam (PD.mk "name" 0 None false)])
     = Some (Raise AttributeError, h')).
Proof.
  split; [|split].
  - destruct (proj1 (FunctionDescription_init_spec gaussian_heap "Gaussian" None [2; 3; 4]%nat)
                _ eq_refl) as (self & h' & Hrun & _ & _ & _ & Hps).
    { repeat constructor. }
    exists self, h'. split; [exact Hrun|exact Hps].
  - pose proof (proj1 (proj2 (FunctionDescription_init_spec gaussian_heap "Gaussian" None
                                [2; 5; 4]%nat)) [2%nat] 5%nat [4%nat]) as H.
    edestruct H as (h' & Hrun & _).
    + reflexivity.
    + reflexivity.
    + repeat constructor.
    + reflexivity.
    + reflexivity.
    + exists h'. exact Hrun.
  - pose proof (proj2 (proj2 (FunctionDescription_init_spec
                                (gaussian_heap ++ [OParam (PD.mk "name" 0 None false)])
                                "Gaussian" None [2; 11]%nat)) [2%nat] 11%nat []) as H.
    edestruct H as (h' & Hrun & _).
    + reflexivity.
    + reflexivity.
    + repeat constructor.
    + reflexivity.
    + reflexivity.
    + exists h'. exact Hrun.
Defined.

Lemma FunctionSetDescription_init_run (h : heap) name x0param y0param fs :
  ∃ (hp : heap) x0 y0,
    unchanged h hp ∧
    FunctionSetDescription.__init__ name x0param y0param (Some fs) h
    = (for_each (FunctionSetDescription.addFunction (List.length hp + 1)) fs ;;
       ret (List.length hp + 1)%nat)
        (hp ++ [OList []; OFSet (FSD.mk name x0 y0 (List.length hp) ∅)]) ∧
    match x0param with
    | Some p => x0 = p
    | None => h !! x0 = None ∧ hp !! x0 = Some (OParam (PD.mk "X0" 0 None false))
    end ∧
    match y0param with
    | Some p => y0 = p
    | None => h !! y0 = None ∧ hp !! y0 = Some (OParam (PD.mk "Y0" 0 None false))
    end.
Proof.
  assert (Hrun : ∀ (hp : heap) x0 y0,
    (do fl <- alloc (OList []);
     do self <- alloc (OFSet (FSD.mk name x0 y0 fl ∅));
     for_each (FunctionSetDescription.addFunction self) (default [] (Some fs)) ;;
     ret self) hp
    = (for_each (FunctionSetDescription.addFunction (List.length hp + 1)) fs ;;
       ret (List.length hp + 1)%nat)
        (hp ++ [OList []; OFSet (FSD.mk name x0 y0 (List.length hp) ∅)])).
  { intros hp x0 y0. unfold bind at 1 2, alloc. simpl.
    by rewrite length_app, <- app_assoc. }
  destruct x0param as [px|], y0param as [py|].
  - exists h, px, py. split; [by intros l o|]. split; [apply Hrun|done].
  - exists (h ++ [OParam (PD.mk "Y0" 0 None false)]), px, (List.length h).
    split; [apply unchanged_app|]. split; [apply Hrun|]. split; [done|].
    split; [by apply lookup_ge_None|]. by apply list_lookup_middle.
  - exists (h ++ [OParam (PD.mk "X0" 0 None false)]), (List.length h), py.
    split; [apply unchanged_app|]. split; [apply Hrun|].
    split; [|done]. split; [by apply lookup_ge_None|]. by apply list_lookup_middle.
  - exists (h ++ [OParam (PD.mk "X0" 0 None false); OParam (PD.mk "Y0" 0 None false)]),
      (List.length h), (List.length h + 1)%nat.
    split; [apply unchanged_app|]. split.
    + rewrite <- Hrun. unfold FunctionSetDescription.__init__, new_parameter. simpl.
      unfold bind at 1 2, alloc. by rewrite length_app, <- app_assoc.
    + split; (split; [apply lookup_ge_None; lia|]).
      * by apply list_lookup_middle.
      * by apply (lookup_ext_Some h _ 1).
Qed.

(** X13.  [FunctionSetDescription(name, x0param, y0param, functions)]:
    when the items of [functions] are functions with distinct labels
    that name nothing else in the function set, the call returns a new
    function set named [name] whose functions are these objects in this
    order; its x0 and y0 are the objects given, or new parameters "X0"
    and "Y0" of value 0 without limits.  When the items before some
    item are such functions, the call raises KeyError if that item has
    the label of an earlier one, and AttributeError if its label is new
    and is "name", the read-only property.  In all three cases no
    object that existed before the call is changed. *)
Theorem FunctionSetDescription_init_spec (h : heap) (name : string)
    (x0param y0param : option loc) (fs : list loc) :
  (∀ fds : list FD.t,
     mapM (get_func h) fs = Some fds →
     NoDup (FD._name <$> fds) →
     Forall (λ fd, FunctionSetDescription.slot_of (FD._name fd) = Free) fds →
     ∃ self h' s,
       FunctionSetDescription.__init__ name x0param y0param (Some fs) h
       = Some (Ok self, h') ∧
       unchanged h h' ∧ h !! self = None ∧
       get_fset h' self = Some s ∧ FSD._name s = name ∧
       match x0param with
       | Some p => FSD.x0 s = p
       | None => h !! FSD.x0 s = None ∧
                 get_param h' (FSD.x0 s) = Some (PD.mk "X0" 0 None false)
       end ∧
       match y0param with
       | Some p => FSD.y0 s = p
       | None => h !! FSD.y0 s = None ∧
                 get_param h' (FSD.y0 s) = Some (PD.mk "Y0" 0 None false)
       end ∧
       get_list h' (FSD._functions s) = Some fs ∧
       FunctionSetDescription.functionList h' self = Some (FD.funcType <$> fds) ∧
       labels_of_functions h' fs = Some (FD._name <$> fds)) ∧
  (∀ fs1 x fs2 (fds1 : list FD.t) fd,
     fs = fs1 ++ x :: fs2 →
     mapM (get_func h) fs1 = Some fds1 →
     NoDup (FD._name <$> fds1) →
     Forall (λ fd, FunctionSetDescription.slot_of (FD._name fd) = Free) fds1 →
     get_func h x = Some fd →
     FD._name fd ∈ FD._name <$> fds1 →
     ∃ h',
       FunctionSetDescription.__init__ name x0param y0param (Some fs) h
       = Some (Raise (KeyError ("Function named " ++ FD._name fd ++ " already exists.")%string),
               h') ∧
       unchanged h h') ∧
  (∀ fs1 x fs2 (fds1 : list FD.t) fd,
     fs = fs1 ++ x :: fs2 →
     mapM (get_func h) fs1 = Some fds1 →
     NoDup (FD._name <$> fds1) →
     Forall (λ fd, FunctionSetDescription.slot_of (FD._name fd) = Free) fds1 →
     get_func h x = Some fd →
     FD._name fd ∉ FD._name <$> fds1 →
     FunctionSetDescription.slot_of (FD._name fd) = ReadOnly →
     ∃ h',
       FunctionSetDescription.__init__ name x0param y0param (Some fs) h
       = Some (Raise AttributeError, h') ∧
       unchanged h h').
Proof.
  destruct (FunctionSetDescription_init_run h name x0param y0param fs)
    as (hp & x0 & y0 & Hhp & E & Hx0 & Hy0).
  set (s0 := FSD.mk name x0 y0 (List.length hp) ∅) in *.
  set (h0 := hp ++ [OList []; OFSet s0]) in *.
  set (self := (List.length hp + 1)%nat) in *.
  assert (Hs0 : get_fset h0 self = Some s0).
  { apply get_fset_Some. by apply (lookup_ext_Some hp _ 1). }
  assert (Hl0 : get_list h0 (FSD._functions s0) = Some []).
  { apply get_list_Some. simpl. rewrite <- (Nat.add_0_r (List.length hp)).
    by apply (lookup_ext_Some hp _ 0). }
  assert (Hh0 : unchanged h h0).
  { eapply unchanged_trans; [exact Hhp|apply unchanged_app]. }
  assert (Hf0 : ∀ qs (qds : list FD.t),
            mapM (get_func h) qs = Some qds → mapM (get_func h0) qs = Some qds).
  { intros qs qds. apply mapM_le. intros l t. by apply get_func_le, unchanged_le. }
  split; [|split].
  - intros fds Hfs Hnd Hfree.
    destruct (addFunction_loop self fs fds h0 s0 [] [] Hs0 Hl0 eq_refl (Hf0 _ _ Hfs) Hnd Hfree)
      as (h' & attrs' & Hrun & Hs' & Hl' & Hlen & Hfr).
    cbn [s0 FSD._name FSD.x0 FSD.y0 FSD._functions] in Hs', Hl', Hfr.
    assert (Hhp' : unchanged hp h') by (by eapply unchanged_loop).
    assert (Hfs' : mapM (get_func h') fs = Some fds).
    { eapply (items_kept get_func h0 h' self (List.length hp));
        [by apply (func_item h0 self _ s0 [])|exact Hfr|by apply Hf0]. }
    eexists self, h', _. rewrite E, (bind_Ok _ _ _ _ _ Hrun).
    split; [done|]. split; [exact (unchanged_trans _ _ _ Hhp Hhp')|].
    split. { apply lookup_ge_None. unfold self.
             pose proof (lookup_lt_is_Some_1 h) as Hlt.
             destruct (decide (List.length hp + 1 < List.length h)%nat) as [Hc|]; [|lia].
             destruct (lookup_lt_is_Some_2 h _ Hc) as [o Ho].
             apply Hhp in Ho. apply lookup_lt_Some in Ho. lia. }
    split; [exact Hs'|]. split; [done|]. simpl.
    split. { destruct x0param; [done|]. destruct Hx0 as [H1 H2]. split; [done|].
             apply get_param_Some. by apply Hhp'. }
    split. { destruct y0param; [done|]. destruct Hy0 as [H1 H2]. split; [done|].
             apply get_param_Some. by apply Hhp'. }
    split; [exact Hl'|].
    unfold FunctionSetDescription.functionList, labels_of_functions.
    rewrite Hs'. simpl. rewrite Hl'. simpl.
    split; apply mapM_fmap_Some; by exists fds.
  - intros fs1 x fs2 fds1 fd -> Hfs1 Hnd Hfree Hx Hdup.
    destruct (addFunction_loop self fs1 fds1 h0 s0 [] [] Hs0 Hl0 eq_refl (Hf0 _ _ Hfs1) Hnd
                Hfree)
      as (h' & attrs' & Hrun & Hs' & Hl' & Hlen & Hfr).
    cbn [s0 FSD._name FSD.x0 FSD.y0 FSD._functions] in Hs', Hl', Hfr.
    assert (Hhp' : unchanged hp h') by (by eapply unchanged_loop).
    assert (Hfs' : mapM (get_func h') fs1 = Some fds1).
    { eapply (items_kept get_func h0 h' self (List.length hp));
        [by apply (func_item h0 self _ s0 [])|exact Hfr|by apply Hf0]. }
    assert (Hx' : get_func h' x = Some fd).
    { apply get_func_Some. apply Hhp', Hhp. by apply get_func_Some. }
    exists h'. split; [|exact (unchanged_trans _ _ _ Hhp Hhp')].
    rewrite E. unfold bind at 1. rewrite (for_each_app _ _ _ _ _ Hrun). simpl.
    unfold bind.
    by rewrite (addFunction_dup h' self _ fs1 fds1 x fd Hs' Hl' Hfs' Hx' Hdup).
  - intros fs1 x fs2 fds1 fd -> Hfs1 Hnd Hfree Hx Hnew Hro.
    destruct (addFunction_loop self fs1 fds1 h0 s0 [] [] Hs0 Hl0 eq_refl (Hf0 _ _ Hfs1) Hnd
                Hfree)
      as (h' & attrs' & Hrun & Hs' & Hl' & Hlen & Hfr).
    cbn [s0 FSD._name FSD.x0 FSD.y0 FSD._functions] in Hs', Hl', Hfr.
    assert (Hhp' : unchanged hp h') by (by eapply unchanged_loop).
    assert (Hfs' : mapM (get_func h') fs1 = Some fds1).
    { eapply (items_kept get_func h0 h' self (List.length hp));
        [by apply (func_item h0 self _ s0 [])|exact Hfr|by apply Hf0]. }
    assert (Hx' : h' !! x = Some (OFunc fd)).
    { apply Hhp', Hhp. by apply get_func_Some. }
    pose proof (addFunction_spec h' self _ fs1 fds1 x _ Hs' Hl' Hfs' Hx') as Hr.
    simpl in Hr. rewrite bool_decide_false, Hro in Hr by done.
    eexists. split.
    + rewrite E. unfold bind at 1. rewrite (for_each_app _ _ _ _ _ Hrun). simpl.
      unfold bind. rewrite Hr. reflexivity.
    + intros l o Hlo. pose proof (Hhp _ _ Hlo) as Hlo'.
      pose proof (lookup_lt_Some _ _ _ Hlo') as Hlt.
      rewrite list_lookup_insert_ne by lia. by apply Hhp'.
Qed.

(** X13 on the heap of the gaussian model: a set made of its function;
    a call that lists this function twice; and, with a function
    labelled "name" put into the heap, a call that lists it second. *)
Lemma FunctionSetDescription_init_spec_witness :
  (∃ self h',
     FunctionSetDescription.__init__ "fs1" None None (Some [6%nat]) gaussian_heap
     = Some (Ok self, h') ∧
     FunctionSetDescription.functionList h' self = Some ["Gaussian"]) ∧
  (∃ h',
     FunctionSetDescription.__init__ "fs1" None None (Some [6; 6]%nat) gaussian_heap
     = Some (Raise (KeyError "Function named Gaussian already exists."), h')) ∧
  (∃ h',
     FunctionSetDescription.__init__ "fs1" None None (Some [6; 12]%nat)
       (gaussian_heap ++ [OList []; OFunc (FD.mk "Sersic" "name" 11%nat ∅)])
     = Some (Raise AttributeError, h')).
Proof.
  split; [|split].
  - destruct (proj1 (FunctionSetDescription_init_spec gaussian_heap "fs1" None None [6%nat])
                _ eq_refl)
      as (self & h' & s & Hrun & _ & _ & _ & _ & _ & _ & _ & Hfl & _).
    { vm_compute. apply NoDup_singleton. }
    { repeat constructor. }
    exists self, h'. split; [exact Hrun|exact Hfl].
  - pose proof (proj1 (proj2 (FunctionSetDescription_init_spec gaussian_heap "fs1" None None
                                [6; 6]%nat)) [6%nat] 6%nat []) as H.
    edestruct H as (h' & Hrun & _).
    + reflexivity.
    + reflexivity.
    + vm_compute. apply NoDup_singleton.
    + repeat constructor.
    + reflexivity.
    + vm_compute. apply list_elem_of_singleton. reflexivity.
    + exists h'. exact Hrun.
  - pose proof (proj2 (proj2 (FunctionSetDescription_init_spec
                                (gaussian_heap
                                   ++ [OList []; OFunc (FD.mk "Sersic" "name" 11%nat ∅)])
                                "fs1" None None [6; 12]%nat)) [6%nat] 12%nat []) as H.
    edestruct H as (h' & Hrun & _).
    + reflexivity.
    + reflexivity.
    + vm_compute. apply NoDup_singleton.
    + repeat constructor.
    + reflexivity.
    + vm_compute. intros Hin. apply list_elem_of_singleton in Hin. discriminate.
    + reflexivity.
    + exists h'. exact Hrun.
Defined.

(** X14.  [ModelDescription(function_sets, options)]: when the items of
    [function_sets] are function sets with distinct names that name
    nothing else in the model, the call returns a new model that holds
    these objects in this order, with their content as it was, and whose
    options are [options]; when the items before some item are such
    sets and that item has the name of an earlier one, the call raises
    KeyError.  In both cases no object that existed before the call is
    changed. *)
Theorem ModelDescription_init_spec (h : heap) (fss : list loc) (options : gmap string Qc) :
  (∀ sds : list FSD.t,
     mapM (get_fset h) fss = Some sds →
     NoDup (FSD._name <$> sds) →
     Forall (λ sd, ModelDescription.slot_of false (FSD._name sd) = Free) sds →
     ∃ self h' m,
       ModelDescription.__init__ (Some fss) options h = Some (Ok self, h') ∧
       unchanged h h' ∧ h !! self = None ∧
       get_model h' self = Some m ∧
       MD.simple m = false ∧ MD.options m = options ∧
       get_list h' (MD._functionSets m) = Some fss ∧
       labels_of_sets h' fss = Some (FSD._name <$> sds) ∧
       (∀ tss : list fset_content,
          mapM (read_fset h) fss = Some tss →
          read_fsets h' (MD._functionSets m) = Some tss)) ∧
  (∀ fss1 x fss2 (sds1 : list FSD.t) s,
     fss = fss1 ++ x :: fss2 →
     mapM (get_fset h) fss1 = Some sds1 →
     NoDup (FSD._name <$> sds1) →
     Forall (λ sd, ModelDescription.slot_of false (FSD._name sd) = Free) sds1 →
     get_fset h x = Some s →
     FSD._name s ∈ FSD._name <$> sds1 →
     ∃ h',
       ModelDescription.__init__ (Some fss) options h
       = Some (Raise (KeyError ("FunctionSet named " ++ FSD._name s ++ " already exists.")%string),
               h') ∧
       unchanged h h').
Proof.
  set (m0 := MD.mk false (options ∪ ∅) (List.length h) ∅).
  set (h0 := h ++ [OList []; OModel m0]).
  set (self := (List.length h + 1)%nat).
  assert (E : ModelDescription.__init__ (Some fss) options h
              = (for_each (ModelDescription.addFunctionSet self) fss ;; ret self) h0).
  { unfold ModelDescription.__init__, ModelDescription.init_fields, bind at 1 2, alloc.
    simpl. unfold h0, self, m0. by rewrite length_app, <- app_assoc. }
  assert (Hm0 : get_model h0 self = Some m0).
  { apply get_model_Some. by apply (lookup_ext_Some h _ 1). }
  assert (Hl0 : get_list h0 (MD._functionSets m0) = Some []).
  { apply get_list_Some. simpl. rewrite <- (Nat.add_0_r (List.length h)).
    by apply (lookup_ext_Some h _ 0). }
  assert (Hs0 : ∀ qs (qds : list FSD.t),
            mapM (get_fset h) qs = Some qds → mapM (get_fset h0) qs = Some qds).
  { intros qs qds. apply mapM_le. intros l t. apply get_fset_le, view_le_app. }
  split.
  - intros sds Hfss Hnd Hfree.
    destruct (addFunctionSet_loop self fss sds h0 m0 [] [] Hm0 Hl0 eq_refl (Hs0 _ _ Hfss) Hnd
                Hfree)
      as (h' & attrs' & Hrun & Hm' & Hl' & Hlen & Hfr).
    cbn [m0 MD.simple MD.options MD._functionSets] in Hm', Hl', Hfr.
    assert (Hh' : unchanged h h') by (by eapply unchanged_loop).
    assert (Hfss' : mapM (get_fset h') fss = Some sds).
    { eapply (items_kept get_fset h0 h' self (List.length h));
        [by apply (fset_item h0 self _ m0 [])|exact Hfr|by apply Hs0]. }
    eexists self, h', _. rewrite E, (bind_Ok _ _ _ _ _ Hrun).
    split; [done|]. split; [done|].
    split; [apply lookup_ge_None; unfold self; lia|].
    split; [exact Hm'|]. split; [done|]. simpl.
    split; [apply (right_id_L ∅ (∪))|]. split; [exact Hl'|].
    split; [apply mapM_fmap_Some; by exists sds|].
    intros tss Htss. unfold read_fsets. rewrite Hl'. simpl.
    eapply mapM_le; [|exact Htss]. intros l t. by apply read_fset_le, unchanged_le.
  - intros fss1 x fss2 sds1 s -> Hfss1 Hnd Hfree Hx Hdup.
    destruct (addFunctionSet_loop self fss1 sds1 h0 m0 [] [] Hm0 Hl0 eq_refl
                (Hs0 _ _ Hfss1) Hnd Hfree)
      as (h' & attrs' & Hrun & Hm' & Hl' & Hlen & Hfr).
    cbn [m0 MD.simple MD.options MD._functionSets] in Hm', Hl', Hfr.
    assert (Hh' : unchanged h h') by (by eapply unchanged_loop).
    assert (Hfss' : mapM (get_fset h') fss1 = Some sds1).
    { eapply (items_kept get_fset h0 h' self (List.length h));
        [by apply (fset_item h0 self _ m0 [])|exact Hfr|by apply Hs0]. }
    assert (Hx' : get_fset h' x = Some s).
    { apply get_fset_Some. apply Hh'. by apply get_fset_Some. }
    exists h'. split; [|done].
    rewrite E. unfold bind at 1. rewrite (for_each_app _ _ _ _ _ Hrun). simpl.
    unfold bind.
    by rewrite (addFunctionSet_dup h' self _ fss1 sds1 x s Hm' Hl' Hfss' Hx' Hdup).
Qed.

(** X14 on the heap of the gaussian model: a second model that holds its
    function set, with an option, and a call that lists the set twice. *)
Lemma ModelDescription_init_spec_witness :
  (∃ self h' m,
     ModelDescription.__init__ (Some [8%nat]) {["GAIN" := Qc_of_Z 2]} gaussian_heap
     = Some (Ok self, h') ∧
     get_model h' self = Some m ∧ MD.options m = {["GAIN" := Qc_of_Z 2]}) ∧
  (∃ h',
     ModelDescription.__init__ (Some [8; 8]%nat) ∅ gaussian_heap
     = Some (Raise (KeyError "FunctionSet named fs0 already exists."), h')).
Proof.
  split.
  - destruct (proj1 (ModelDescription_init_spec gaussian_heap [8%nat] {["GAIN" := Qc_of_Z 2]})
                _ eq_refl)
      as (self & h' & m & Hrun & _ & _ & Hm & _ & Ho & _).
    { vm_compute. apply NoDup_singleton. }
    { repeat constructor. }
    exists self, h', m. split; [exact Hrun|]. split; [exact Hm|exact Ho].
  - pose proof (proj2 (ModelDescription_init_spec gaussian_heap [8; 8]%nat ∅)
                  [8%nat] 8%nat []) as H.
    edestruct H as (h' & Hrun & _).
    + reflexivity.
    + reflexivity.
    + vm_compute. apply NoDup_singleton.
    + repeat constructor.
    + reflexivity.
    + vm_compute. apply list_elem_of_singleton. reflexivity.
    + exists h'. exact Hrun.
Defined.

(** ** Labels stay distinct; a simple model made from a model *)

(** X15.  In a function set whose functions have distinct labels, a call
    of [addFunction] with any object, unless it is a function whose
    label is the name of an attribute or a method of the set, leaves a
    function set whose functions have distinct labels, whether it
    returns or raises.  When it returns, the list is the old one with
    the new function at the end and the function is also stored under
    its label; when it raises ValueError or KeyError, the heap is as it
    was; when it raises AttributeError (the label is "name"), the
    function is in the list all the same. *)
Theorem addFunction_keeps_labels_distinct (h : heap) (self : loc) (s : FSD.t)
    (fl : list loc) (names : list string) (f : loc) (r : result unit) (h' : heap) :
  get_fset h self = Some s →
  get_list h (FSD._functions s) = Some fl →
  labels_of_functions h fl = Some names →
  NoDup names →
  (∀ fd, get_func h f = Some fd → FunctionSetDescription.slot_of (FD._name fd) ≠ Taken) →
  FunctionSetDescription.addFunction self f h = Some (r, h') →
  ∃ s' fl' names',
    get_fset h' self = Some s' ∧
    get_list h' (FSD._functions s') = Some fl' ∧
    labels_of_functions h' fl' = Some names' ∧
    NoDup names' ∧
    match r with
    | Ok _ => ∃ fd, get_func h f = Some fd ∧ fl' = fl ++ [f] ∧
                    names' = names ++ [FD._name fd] ∧
                    FSD.attrs s' !! FD._name fd = Some f
    | Raise AttributeError =>
        ∃ fd, get_func h f = Some fd ∧ fl' = fl ++ [f] ∧
              names' = names ++ [FD._name fd] ∧ s' = s
    | Raise _ => h' = h
    end.
Proof.
  intros Hs Hl Hnames Hnd Hlabel Hrun.
  pose proof Hnames as Hn0. apply mapM_fmap_Some in Hn0 as (fds & Hfds & En).
  destruct (h !! f) as [o|] eqn:Hf;
    [|unfold FunctionSetDescription.addFunction, bind, get in Hrun; by rewrite Hf in Hrun].
  pose proof (addFunction_spec h self s fl fds f o Hs Hl Hfds Hf) as Hspec.
  assert (Hsame : ∀ e, e ≠ AttributeError → Some (Raise e, h) = Some (r, h') →
            ∃ s' fl' names',
              get_fset h' self = Some s' ∧ get_list h' (FSD._functions s') = Some fl' ∧
              labels_of_functions h' fl' = Some names' ∧ NoDup names' ∧
              match r with
              | Ok _ => ∃ fd, get_func h f = Some fd ∧ fl' = fl ++ [f] ∧
                              names' = names ++ [FD._name fd] ∧
                              FSD.attrs s' !! FD._name fd = Some f
              | Raise AttributeError =>
                  ∃ fd, get_func h f = Some fd ∧ fl' = fl ++ [f] ∧
                        names' = names ++ [FD._name fd] ∧ s' = s
              | Raise _ => h' = h
              end).
  { intros e He [= <- <-]. exists s, fl, names. repeat (split; [done|]). by destruct e. }
  destruct o as [p|xs|fd|s2|m|]; try (rewrite Hspec in Hrun; refine (Hsame _ _ Hrun); discriminate).
  subst names. destruct (decide (FD._name fd ∈ FD._name <$> fds)) as [Hin|Hnew].
  { rewrite bool_decide_true in Hspec by done. rewrite Hspec in Hrun.
    refine (Hsame _ _ Hrun). discriminate. }
  rewrite bool_decide_false in Hspec by done. clear Hsame.
  apply get_func_Some in Hf. specialize (Hlabel fd Hf).
  pose proof Hs as Hs'. apply get_fset_Some in Hs'.
  pose proof Hl as Hl'. apply get_list_Some in Hl'.
  assert (Hne : self ≠ FSD._functions s) by (intros E; rewrite <- E in Hl'; congruence).
  assert (Hnd' : NoDup (FD._name <$> (fds ++ [fd]))).
  { rewrite fmap_app. apply NoDup_app. split; [done|]. split; [|apply NoDup_singleton].
    intros x Hx Hx'. apply list_elem_of_singleton in Hx'. by subst x. }
  destruct (FunctionSetDescription.slot_of (FD._name fd)) eqn:Hslot; [|done|].
  - rewrite Hspec in Hrun. injection Hrun as <- <-.
    set (h1 := <[FSD._functions s := OList (fl ++ [f])]> h).
    assert (Hfr : ∀ x, x ≠ self → x ≠ FSD._functions s → h1 !! x = h !! x).
    { intros x _ H2. by apply list_lookup_insert_ne. }
    exists s, (fl ++ [f]), (FD._name <$> (fds ++ [fd])).
    split; [apply get_fset_Some; unfold h1; by rewrite list_lookup_insert_ne|].
    split; [apply get_list_Some, list_lookup_insert_eq; by eapply lookup_lt_Some|].
    split.
    { apply mapM_fmap_Some. exists (fds ++ [fd]). split; [|done].
      apply (items_kept get_func h h1 self (FSD._functions s));
        [by apply (func_item h self _ s fl)|exact Hfr|].
      apply mapM_app_Some; [done|]. simpl. by rewrite Hf. }
    split; [done|]. exists fd. split; [done|]. split; [done|]. split; [by rewrite fmap_app|done].
  - rewrite Hspec in Hrun. injection Hrun as <- <-.
    set (s1 := FSD.mk (FSD._name s) (FSD.x0 s) (FSD.y0 s) (FSD._functions s)
                 (<[FD._name fd := f]> (FSD.attrs s))).
    set (h1 := <[self := OFSet s1]> (<[FSD._functions s := OList (fl ++ [f])]> h)).
    exists s1, (fl ++ [f]), (FD._name <$> (fds ++ [fd])).
    split; [apply get_fset_Some, update2_self; by eapply lookup_lt_Some|].
    split; [apply get_list_Some, update2_list; [done|by eapply lookup_lt_Some]|].
    split.
    { apply mapM_fmap_Some. exists (fds ++ [fd]). split; [|done].
      apply (items_kept get_func h h1 self (FSD._functions s));
        [by apply (func_item h self _ s fl)|intros x H1 H2; by apply update2_other|].
      apply mapM_app_Some; [done|]. simpl. by rewrite Hf. }
    split; [done|].
    exists fd. split; [done|]. split; [done|]. split; [by rewrite fmap_app|].
    simpl. apply lookup_insert_eq.
Qed.

(** X15 on the function set of the gaussian model, with a function
    "Sersic" added to the heap and then to the set. *)
Lemma addFunction_keeps_labels_distinct_witness :
  ∃ h' names',
    FunctionSetDescription.addFunction 8%nat 12%nat
      (gaussian_heap ++ [OList []; OFunc (FD.mk "Sersic" "Sersic" 11%nat ∅)])
    = Some (Ok (), h') ∧
    labels_of_functions h' [6; 12]%nat = Some names' ∧ NoDup names'.
Proof.
  edestruct (addFunction_keeps_labels_distinct
               (gaussian_heap ++ [OList []; OFunc (FD.mk "Sersic" "Sersic" 11%nat ∅)]) 8%nat)
    with (fl := [6%nat]) (names := ["Gaussian"]) (f := 12%nat) (r := Ok ())
    as (s' & fl' & names' & Hs' & Hl' & Hn' & Hnd' & fd & Hfd & -> & _).
  - reflexivity.
  - reflexivity.
  - reflexivity.
  - apply NoDup_singleton.
  - intros fd [= <-]. discriminate.
  - vm_compute. reflexivity.
  - eexists _, names'. split; [vm_compute; reflexivity|]. split; [exact Hn'|exact Hnd'].
Defined.

(** X16.  In a model whose function sets have distinct names, a call of
    [ModelDescription.addFunctionSet] with any object, unless it is a
    function set whose name is the name of an attribute or a method of
    the model, leaves a model whose function sets have distinct names,
    whether it returns or raises.  When it returns, the list is the old
    one with the new set at the end, the set is also stored under its
    name and the options are as they were; when it raises ValueError or
    KeyError, the heap is as it was; when it raises AttributeError (a
    [SimpleModelDescription] and a set named "x0" or "y0"), the set is
    in the list all the same. *)
Theorem addFunctionSet_keeps_names_distinct (h : heap) (self : loc) (m : MD.t)
    (fl : list loc) (names : list string) (fs : loc) (r : result unit) (h' : heap) :
  get_model h self = Some m →
  get_list h (MD._functionSets m) = Some fl →
  labels_of_sets h fl = Some names →
  NoDup names →
  (∀ s, get_fset h fs = Some s →
        ModelDescription.slot_of (MD.simple m) (FSD._name s) ≠ Taken) →
  ModelDescription.addFunctionSet self fs h = Some (r, h') →
  ∃ m' fl' names',
    get_model h' self = Some m' ∧
    get_list h' (MD._functionSets m') = Some fl' ∧
    labels_of_sets h' fl' = Some names' ∧
    NoDup names' ∧
    match r with
    | Ok _ => ∃ s, get_fset h fs = Some s ∧ fl' = fl ++ [fs] ∧
                   names' = names ++ [FSD._name s] ∧
                   MD.attrs m' !! FSD._name s = Some fs ∧
                   MD.options m' = MD.options m
    | Raise AttributeError =>
        ∃ s, get_fset h fs = Some s ∧ fl' = fl ++ [fs] ∧
             names' = names ++ [FSD._name s] ∧ m' = m
    | Raise _ => h' = h
    end.
Proof.
  intros Hs Hl Hnames Hnd Hlabel Hrun.
  pose proof Hnames as Hn0. apply mapM_fmap_Some in Hn0 as (fds & Hfds & En).
  destruct (h !! fs) as [o|] eqn:Hf;
    [|unfold ModelDescription.addFunctionSet, bind, get in Hrun; by rewrite Hf in Hrun].
  pose proof (addFunctionSet_spec h self m fl fds fs o Hs Hl Hfds Hf) as Hspec.
  assert (Hsame : ∀ e, e ≠ AttributeError → Some (Raise e, h) = Some (r, h') →
            ∃ m' fl' names',
              get_model h' self = Some m' ∧ get_list h' (MD._functionSets m') = Some fl' ∧
              labels_of_sets h' fl' = Some names' ∧ NoDup names' ∧
              match r with
              | Ok _ => ∃ s, get_fset h fs = Some s ∧ fl' = fl ++ [fs] ∧
                             names' = names ++ [FSD._name s] ∧
                             MD.attrs m' !! FSD._name s = Some fs ∧
                             MD.options m' = MD.options m
              | Raise AttributeError =>
                  ∃ s, get_fset h fs = Some s ∧ fl' = fl ++ [fs] ∧
                       names' = names ++ [FSD._name s] ∧ m' = m
              | Raise _ => h' = h
              end).
  { intros e He [= <- <-]. exists m, fl, names. repeat (split; [done|]). by destruct e. }
  destruct o as [p|xs|fd|s|m2|]; try (rewrite Hspec in Hrun; refine (Hsame _ _ Hrun); discriminate).
  subst names. destruct (decide (FSD._name s ∈ FSD._name <$> fds)) as [Hin|Hnew].
  { rewrite bool_decide_true in Hspec by done. rewrite Hspec in Hrun.
    refine (Hsame _ _ Hrun). discriminate. }
  rewrite bool_decide_false in Hspec by done. clear Hsame.
  apply get_fset_Some in Hf. specialize (Hlabel s Hf).
  pose proof Hs as Hs'. apply get_model_Some in Hs'.
  pose proof Hl as Hl'. apply get_list_Some in Hl'.
  assert (Hne : self ≠ MD._functionSets m) by (intros E; rewrite <- E in Hl'; congruence).
  assert (Hnd' : NoDup (FSD._name <$> (fds ++ [s]))).
  { rewrite fmap_app. apply NoDup_app. split; [done|]. split; [|apply NoDup_singleton].
    intros x Hx Hx'. apply list_elem_of_singleton in Hx'. by subst x. }
  destruct (ModelDescription.slot_of (MD.simple m) (FSD._name s)) eqn:Hslot; [|done|].
  - rewrite Hspec in Hrun. injection Hrun as <- <-.
    set (h1 := <[MD._functionSets m := OList (fl ++ [fs])]> h).
    assert (Hfr : ∀ x, x ≠ self → x ≠ MD._functionSets m → h1 !! x = h !! x).
    { intros x _ H2. by apply list_lookup_insert_ne. }
    exists m, (fl ++ [fs]), (FSD._name <$> (fds ++ [s])).
    split; [apply get_model_Some; unfold h1; by rewrite list_lookup_insert_ne|].
    split; [apply get_list_Some, list_lookup_insert_eq; by eapply lookup_lt_Some|].
    split.
    { apply mapM_fmap_Some. exists (fds ++ [s]). split; [|done].
      apply (items_kept get_fset h h1 self (MD._functionSets m));
        [by apply (fset_item h self _ m fl)|exact Hfr|].
      apply mapM_app_Some; [done|]. simpl. by rewrite Hf. }
    split; [done|]. exists s. split; [done|]. split; [done|]. split; [by rewrite fmap_app|done].
  - rewrite Hspec in Hrun. injection Hrun as <- <-.
    set (m1 := MD.mk (MD.simple m) (MD.options m) (MD._functionSets m)
                 (<[FSD._name s := fs]> (MD.attrs m))).
    set (h1 := <[self := OModel m1]> (<[MD._functionSets m := OList (fl ++ [fs])]> h)).
    exists m1, (fl ++ [fs]), (FSD._name <$> (fds ++ [s])).
    split; [apply get_model_Some, update2_self; by eapply lookup_lt_Some|].
    split; [apply get_list_Some, update2_list; [done|by eapply lookup_lt_Some]|].
    split.
    { apply mapM_fmap_Some. exists (fds ++ [s]). split; [|done].
      apply (items_kept get_fset h h1 self (MD._functionSets m));
        [by apply (fset_item h self _ m fl)|intros x H1 H2; by apply update2_other|].
      apply mapM_app_Some; [done|]. simpl. by rewrite Hf. }
    split; [done|].
    exists s. split; [done|]. split; [done|]. split; [by rewrite fmap_app|].
    split; [|done]. simpl. apply lookup_insert_eq.
Qed.

(** X16 on the gaussian model, with a function set "fs1" added to the
    heap and then to the model. *)
Lemma addFunctionSet_keeps_names_distinct_witness :
  ∃ h' names',
    ModelDescription.addFunctionSet gaussian_model 14%nat
      (gaussian_heap ++ [OParam (PD.mk "X0" 0 None false); OParam (PD.mk "Y0" 0 None false);
                         OList []; OFSet (FSD.mk "fs1" 11%nat 12%nat 13%nat ∅)])
    = Some (Ok (), h') ∧
    labels_of_sets h' [8; 14]%nat = Some names' ∧ NoDup names'.
Proof.
  edestruct (addFunctionSet_keeps_names_distinct
               (gaussian_heap ++ [OParam (PD.mk "X0" 0 None false);
                                  OParam (PD.mk "Y0" 0 None false);
                                  OList []; OFSet (FSD.mk "fs1" 11%nat 12%nat 13%nat ∅)])
               gaussian_model)
    with (fl := [8%nat]) (names := ["fs0"]) (fs := 14%nat) (r := Ok ())
    as (m' & fl' & names' & Hm' & Hl' & Hn' & Hnd' & sd & Hsd & -> & _).
  - reflexivity.
  - reflexivity.
  - reflexivity.
  - apply NoDup_singleton.
  - intros s [= <-]. discriminate.
  - vm_compute. reflexivity.
  - eexists _, names'. split; [vm_compute; reflexivity|]. split; [exact Hn'|exact Hnd'].
Defined.

(** X17.  [SimpleModelDescription(inst)] for a model [inst] that holds
    exactly one function set.  When the name of the set names nothing
    else in a simple model, the call returns a new simple model with no
    options, whose one function set is a new object with the attribute
    values of the source's set.  So its x0, its y0 and the objects of
    its [parameterList()] are the very objects of [inst], and its
    [functionList()] is that of [inst].  When the name of the set is
    "x0" or "y0", the read-only properties, the call raises
    AttributeError.  In both cases no object that existed before the
    call is changed. *)
Theorem SimpleModelDescription_from_model (h : heap) (inst : loc) (im : MD.t)
    (fs0 : loc) (s : FSD.t) :
  get_model h inst = Some im →
  get_list h (MD._functionSets im) = Some [fs0] →
  get_fset h fs0 = Some s →
  (ModelDescription.slot_of true (FSD._name s) = Free →
   ∃ self h' m' c,
     SimpleModelDescription.__init__ (Some inst) h = Some (Ok self, h') ∧
     unchanged h h' ∧ h !! self = None ∧
     get_model h' self = Some m' ∧ MD.simple m' = true ∧ MD.options m' = ∅ ∧
     get_list h' (MD._functionSets m') = Some [c] ∧
     h !! c = None ∧ get_fset h' c = Some s ∧
     SimpleModelDescription.x0 h' self = Some (FSD.x0 s) ∧
     SimpleModelDescription.y0 h' self = Some (FSD.y0 s) ∧
     (∀ ps, ModelDescription.parameterList h inst = Some ps →
            ModelDescription.parameterList h' self = Some ps) ∧
     (∀ fl, ModelDescription.functionList h inst = Some fl →
            ModelDescription.functionList h' self = Some fl)) ∧
  (ModelDescription.slot_of true (FSD._name s) = ReadOnly →
   ∃ h', SimpleModelDescription.__init__ (Some inst) h = Some (Raise AttributeError, h') ∧
         unchanged h h').
Proof.
  intros Hm Hl Hs.
  set (self := (List.length h + (0 + 1))%nat).
  set (c := (List.length h + 2)%nat).
  set (m0 := MD.mk true (∅ ∪ ∅) (List.length h + 0) ∅).
  set (m1 := MD.mk true (∅ ∪ ∅) (List.length h + 0) (<[FSD._name s := c]> ∅)).
  set (h2 := h ++ [OList []; OModel m0; OFSet s]).
  set (h' := <[self := OModel m1]> (<[(List.length h + 0)%nat := OList ([] ++ [c])]> h2)).
  assert (Hm2 : get_model h2 self = Some m0).
  { apply get_model_Some. by apply (lookup_ext_Some h _ 1). }
  assert (Hl2 : get_list h2 (MD._functionSets m0) = Some []).
  { apply get_list_Some. by apply (lookup_ext_Some h _ 0). }
  assert (Hc2 : h2 !! c = Some (OFSet s)).
  { by apply (lookup_ext_Some h _ 2). }
  assert (Hpre : SimpleModelDescription.__init__ (Some inst) h
                 = (ModelDescription.addFunctionSet self c ;; ret self) h2).
  { unfold SimpleModelDescription.__init__.
    pose proof (init_fields_ext h [] true ∅) as E0. rewrite app_nil_r in E0.
    rewrite (bind_Ok _ _ _ _ _ E0). simpl.
    pose proof Hm as Hm'. apply get_model_Some in Hm'.
    rewrite (bind_Ok _ _ _ _ _ (get_Some _ _ _ (lookup_old _ _ _ _ Hm'))).
    pose proof Hl as Hl'. apply get_list_Some in Hl'.
    erewrite bind_Ok
      by (apply (lift_Some (λ h, get_list h (MD._functionSets im))), get_list_Some,
            lookup_old, Hl').
    rewrite decide_False by (simpl; lia).
    erewrite bind_Ok by (by apply (lift_Some (λ _, [fs0] !! 0%nat))).
    pose proof Hs as Hs'. apply get_fset_Some in Hs'.
    assert (Hcopy : copy fs0 (h ++ [OList []; OModel m0]) = Some (Ok c, h2)).
    { unfold copy. rewrite (bind_Ok _ _ _ _ _ (get_Some _ _ _ (lookup_old _ _ _ _ Hs'))).
      rewrite alloc_ext. simpl. reflexivity. }
    rewrite (bind_Ok _ _ _ _ _ Hcopy).
    unfold bind at 1. unfold SimpleModelDescription.addFunctionSet.
    rewrite (bind_Ok _ _ _ _ _ (lift_Some (λ h, get_model h self) _ _ Hm2)).
    rewrite (bind_Ok _ _ _ _ _ (lift_Some (λ h, get_list h (MD._functionSets m0)) _ _ Hl2)).
    rewrite decide_False by (simpl; lia). reflexivity. }
  pose proof (addFunctionSet_spec h2 self m0 [] [] c _ Hm2 Hl2 eq_refl Hc2) as Hspec.
  simpl in Hspec.
  split; intros Hslot; rewrite Hslot in Hspec.
  - assert (Hrun : SimpleModelDescription.__init__ (Some inst) h = Some (Ok self, h')).
    { rewrite Hpre. unfold bind. by rewrite Hspec. }
    assert (Hfr : ∀ x, x ≠ self → x ≠ (List.length h + 0)%nat → h' !! x = h2 !! x).
    { intros x H1 H2. by apply update2_other. }
    assert (Hh' : unchanged h h').
    { intros l o Hlo. pose proof (lookup_lt_Some _ _ _ Hlo) as Hlt.
      rewrite Hfr by (unfold self; lia). by apply lookup_app_l_Some. }
    assert (Hm' : get_model h' self = Some m1).
    { apply get_model_Some, update2_self. unfold h2, self. rewrite length_app. simpl. lia. }
    assert (Hl' : get_list h' (MD._functionSets m1) = Some [c]).
    { apply get_list_Some. simpl. apply update2_list; [unfold self; lia|].
      unfold h2. rewrite length_app. simpl. lia. }
    assert (Hc' : get_fset h' c = Some s).
    { apply get_fset_Some. rewrite Hfr by (unfold self, c; lia). exact Hc2. }
    assert (Hfirst : SimpleModelDescription.first_set h' self = Some s).
    { unfold SimpleModelDescription.first_set. rewrite Hm'. simpl.
      change (get_list h' (List.length h + 0)%nat) with (get_list h' (MD._functionSets m1)).
      rewrite Hl'. simpl. exact Hc'. }
    exists self, h', m1, c. split; [exact Hrun|]. split; [exact Hh'|].
    split; [apply lookup_ge_None; unfold self; lia|].
    split; [exact Hm'|]. split; [done|]. split; [apply (left_id_L ∅ (∪))|].
    split; [exact Hl'|]. split; [apply lookup_ge_None; unfold c; lia|].
    split; [exact Hc'|].
    unfold SimpleModelDescription.x0, SimpleModelDescription.y0. rewrite Hfirst.
    split; [done|]. split; [done|].
    pose proof (unchanged_le _ _ Hh') as Hle.
    split.
    + intros ps. unfold ModelDescription.parameterList. rewrite Hm, Hm'. simpl.
      rewrite Hl.
      change (get_list h' (List.length h + 0)%nat) with (get_list h' (MD._functionSets m1)).
      rewrite Hl'. simpl.
      destruct (FunctionSetDescription.parameterList h fs0) as [qs|] eqn:E; [|done].
      simpl. intros <-.
      assert (E' : FunctionSetDescription.parameterList h' c = Some qs); [|by rewrite E'].
      unfold FunctionSetDescription.parameterList in *. rewrite Hs in E. rewrite Hc'.
      simpl in *. destruct (get_list h (FSD._functions s)) as [fl|] eqn:El; [|done].
      rewrite (get_list_le _ _ _ _ Hle El). simpl in *. by eapply extend_loop_le.
    + intros fl. unfold ModelDescription.functionList. rewrite Hm, Hm'. simpl.
      rewrite Hl.
      change (get_list h' (List.length h + 0)%nat) with (get_list h' (MD._functionSets m1)).
      rewrite Hl'. simpl.
      destruct (FunctionSetDescription.functionList h fs0) as [ql|] eqn:E; [|done].
      simpl. intros <-.
      assert (E' : FunctionSetDescription.functionList h' c = Some ql); [|by rewrite E'].
      unfold FunctionSetDescription.functionList in *. rewrite Hs in E. rewrite Hc'.
      simpl in *. destruct (get_list h (FSD._functions s)) as [fl0|] eqn:El; [|done].
      rewrite (get_list_le _ _ _ _ Hle El). simpl in *.
      apply mapM_fmap_Some in E as (fds & Hfds & ->). apply mapM_fmap_Some.
      exists fds. split; [|done]. eapply mapM_le; [|exact Hfds].
      intros l t. by apply get_func_le.
  - eexists. split.
    + rewrite Hpre. unfold bind. rewrite Hspec. reflexivity.
    + intros l o Hlo. pose proof (lookup_lt_Some _ _ _ Hlo) as Hlt.
      cbn [MD._functionSets m0]. rewrite list_lookup_insert_ne by lia.
      by apply lookup_app_l_Some.
Qed.

(** X17 on the gaussian model, and on a model whose one function set is
    named "x0". *)
Lemma SimpleModelDescription_from_model_witness :
  (∃ self h',
     SimpleModelDescription.__init__ (Some gaussian_model) gaussian_heap
     = Some (Ok self, h') ∧
     SimpleModelDescription.x0 h' self = Some 0%nat ∧
     ModelDescription.parameterList h' self = Some [0; 1; 2; 3; 4]%nat) ∧
  (∃ h',
     SimpleModelDescription.__init__ (Some 5%nat)
       [OParam (PD.mk "X0" 0 None false); OParam (PD.mk "Y0" 0 None false); OList [];
        OFSet (FSD.mk "x0" 0%nat 1%nat 2%nat ∅); OList [3%nat];
        OModel (MD.mk false ∅ 4%nat {["x0" := 3%nat]})]
     = Some (Raise AttributeError, h')).
Proof.
  split.
  - destruct (proj1 (SimpleModelDescription_from_model gaussian_heap gaussian_model _ 8%nat _
                       eq_refl eq_refl eq_refl) eq_refl)
      as (self & h' & m' & c & Hrun & _ & _ & _ & _ & _ & _ & _ & _ & Hx & _ & Hps & _).
    exists self, h'. split; [exact Hrun|]. split; [exact Hx|]. apply Hps.
    vm_compute. reflexivity.
  - destruct (proj2 (SimpleModelDescription_from_model
                       [OParam (PD.mk "X0" 0 None false); OParam (PD.mk "Y0" 0 None false);
                        OList []; OFSet (FSD.mk "x0" 0%nat 1%nat 2%nat ∅); OList [3%nat];
                        OModel (MD.mk false ∅ 4%nat {["x0" := 3%nat]})]
                       5%nat _ 3%nat _ eq_refl eq_refl eq_refl) eq_refl)
      as (h' & Hrun & _).
    exists h'. exact Hrun.
Defined.

(** ** What [==] compares *)

Lemma limits_eqb_decide (a b : option (Qc * Qc)) :
  ParameterDescription.limits_eqb a b = bool_decide (a = b).
Proof.
  destruct a as [[l1 u1]|], b as [[l2 u2]|];
    [|symmetry; by apply bool_decide_eq_false_2
     |symmetry; by apply bool_decide_eq_false_2
     |symmetry; by apply bool_decide_eq_true_2].
  cbn [ParameterDescription.limits_eqb].
  destruct (bool_decide_reflect (l1 = l2)) as [->|Hl]; simpl.
  - apply bool_decide_ext. split; [by intros ->|by intros [= ->]].
  - symmetry. apply bool_decide_eq_false_2. by intros [= -> ->].
Qed.

Lemma parameter_eq_key (p r : PD.t) :
  ParameterDescription.__eq__ p r = bool_decide (pd_key p = pd_key r).
Proof.
  unfold ParameterDescription.__eq__, pd_key. rewrite limits_eqb_decide.
  destruct (String.eqb_spec (PD._name p) (PD._name r)) as [En|En]; simpl;
    [|symmetry; apply bool_decide_eq_false_2; by intros [= ? ? ?]].
  destruct (bool_decide_reflect (PD._value p = PD._value r)) as [Ev|Ev]; simpl;
    [|symmetry; apply bool_decide_eq_false_2; by intros [= ? ? ?]].
  destruct (bool_decide_reflect (PD._limits p = PD._limits r)) as [El|El]; simpl.
  - symmetry. apply bool_decide_eq_true_2. by rewrite En, Ev, El.
  - symmetry. apply bool_decide_eq_false_2. by intros [= ? ? ?].
Qed.

Section Items.

Context {T K : Type} `{EqDecision K}.
Variable read : loc → option T.
Variable key : T → K.
Variable item_eq : loc → loc → option bool.
Hypothesis item_eq_key : ∀ a b ta tb,
  read a = Some ta → read b = Some tb →
  item_eq a b = Some (bool_decide (key ta = key tb)).

Lemma items_eq_key xs : ∀ ys (tas tbs : list T),
  mapM read xs = Some tas → mapM read ys = Some tbs →
  List.length xs = List.length ys →
  items_eq item_eq xs ys = Some (bool_decide (key <$> tas = key <$> tbs)).
Proof.
  induction xs as [|x xs IH]; intros ys tas tbs Hx Hy Hlen.
  - destruct ys; [|done].
    apply mapM_Some, Forall2_nil_inv_l in Hx as ->.
    apply mapM_Some, Forall2_nil_inv_l in Hy as ->. done.
  - destruct ys as [|y ys]; [done|].
    apply mapM_Some, Forall2_cons_inv_l in Hx as (ta & tas' & Hxt & Hxs & ->).
    apply mapM_Some, Forall2_cons_inv_l in Hy as (tb & tbs' & Hyt & Hys & ->).
    apply mapM_Some in Hxs. apply mapM_Some in Hys.
    assert (Hrest := IH ys tas' tbs' Hxs Hys ltac:(simpl in Hlen; lia)).
    assert (Hhead : (if decide (x = y) then Some true else item_eq x y)
                    = Some (bool_decide (key ta = key tb))).
    { destruct (decide (x = y)) as [->|_]; [|by apply item_eq_key].
      rewrite Hxt in Hyt. injection Hyt as ->. by rewrite bool_decide_true. }
    assert (Hcons : ∀ (k1 k2 : K) (l1 l2 : list K),
              k1 :: l1 = k2 :: l2 ↔ k1 = k2 ∧ l1 = l2).
    { intros k1 k2 l1 l2. split; [by intros [= -> ->]|by intros [-> ->]]. }
    rewrite !fmap_cons. cbn [items_eq]. rewrite Hhead. cbn [mbind option_bind].
    destruct (bool_decide_reflect (key ta = key tb)) as [E|E].
    + rewrite Hrest. f_equal. apply bool_decide_ext. rewrite Hcons.
      split; [by intros ->|by intros [_ ->]].
    + f_equal. symmetry. apply bool_decide_eq_false_2. rewrite Hcons. by intros [? ?].
Qed.

Lemma pylist_eq_key xs ys (tas tbs : list T) :
  mapM read xs = Some tas → mapM read ys = Some tbs →
  pylist_eq item_eq xs ys = Some (bool_decide (key <$> tas = key <$> tbs)).
Proof.
  intros Hx Hy. unfold pylist_eq.
  destruct (decide (List.length xs = List.length ys)) as [Hlen|Hlen];
    [by apply items_eq_key|].
  f_equal. symmetry. apply bool_decide_eq_false_2. intros E.
  apply (f_equal List.length) in E. rewrite !length_fmap in E.
  apply mapM_Some, Forall2_length in Hx. apply mapM_Some, Forall2_length in Hy. lia.
Qed.

End Items.

Lemma param_eq_key h a b p r :
  get_param h a = Some p → get_param h b = Some r →
  param_eq h a b = Some (bool_decide (pd_key p = pd_key r)).
Proof. intros Ha Hb. unfold param_eq. rewrite Ha, Hb. simpl. by rewrite parameter_eq_key. Qed.

Lemma function_eq_key h a b ta tb :
  read_func h a = Some ta → read_func h b = Some tb →
  FunctionDescription.__eq__ h a b = Some (bool_decide (fc_key ta = fc_key tb)).
Proof.
  unfold read_func, FunctionDescription.__eq__. intros Ha Hb.
  destruct (get_func h a) as [f|]; [|done]. simpl in *.
  destruct (get_func h b) as [g|]; [|done]. simpl in *.
  destruct (get_list h (FD._parameters f)) as [ps|]; [|done]. simpl in *.
  destruct (get_list h (FD._parameters g)) as [qs|]; [|done]. simpl in *.
  destruct (mapM (get_param h) ps) as [pds|] eqn:Ep; [|done].
  destruct (mapM (get_param h) qs) as [qds|] eqn:Eq; [|done].
  injection Ha as <-. injection Hb as <-. unfold fc_key. simpl.
  destruct (String.eqb_spec (FD.funcType f) (FD.funcType g)) as [Et|Et];
    [|f_equal; symmetry; apply bool_decide_eq_false_2; by intros [= ? ? ?]].
  destruct (String.eqb_spec (FD._name f) (FD._name g)) as [En|En];
    [|f_equal; symmetry; apply bool_decide_eq_false_2; by intros [= ? ? ?]].
  rewrite (pylist_eq_key (get_param h) pd_key (param_eq h) (param_eq_key h) ps qs pds qds Ep Eq).
  f_equal. apply bool_decide_ext. rewrite Et, En.
  split; [by intros ->|by intros [= ->]].
Qed.

Lemma function_set_eq_key h a b ta tb :
  read_fset h a = Some ta → read_fset h b = Some tb →
  FunctionSetDescription.__eq__ h a b = Some (bool_decide (sc_key ta = sc_key tb)).
Proof.
  unfold read_fset, read_funcs, FunctionSetDescription.__eq__. intros Ha Hb.
  destruct (get_fset h a) as [s|]; [|done]. simpl in *.
  destruct (get_fset h b) as [r|]; [|done]. simpl in *.
  destruct (get_param h (FSD.x0 s)) as [sx|] eqn:Esx; [|done]. simpl in *.
  destruct (get_param h (FSD.y0 s)) as [sy|] eqn:Esy; [|done]. simpl in *.
  destruct (get_param h (FSD.x0 r)) as [rx|] eqn:Erx; [|done]. simpl in *.
  destruct (get_param h (FSD.y0 r)) as [ry|] eqn:Ery; [|done]. simpl in *.
  destruct (get_list h (FSD._functions s)) as [fs|]; [|done]. simpl in *.
  destruct (get_list h (FSD._functions r)) as [gs|]; [|done]. simpl in *.
  destruct (mapM (read_func h) fs) as [fts|] eqn:Ef; [|done].
  destruct (mapM (read_func h) gs) as [gts|] eqn:Eg; [|done].
  injection Ha as <-. injection Hb as <-. unfold sc_key. simpl.
  destruct (String.eqb_spec (FSD._name s) (FSD._name r)) as [En|En];
    [|f_equal; symmetry; apply bool_decide_eq_false_2; intros H; unfold pd_key in *; congruence].
  rewrite (param_eq_key h _ _ sx rx Esx Erx). simpl.
  destruct (bool_decide_reflect (pd_key sx = pd_key rx)) as [Ex|Ex];
    [|f_equal; symmetry; apply bool_decide_eq_false_2; intros H; unfold pd_key in *; congruence].
  rewrite (param_eq_key h _ _ sy ry Esy Ery). simpl.
  destruct (bool_decide_reflect (pd_key sy = pd_key ry)) as [Ey|Ey];
    [|f_equal; symmetry; apply bool_decide_eq_false_2; intros H; unfold pd_key in *; congruence].
  rewrite (pylist_eq_key (read_func h) fc_key (FunctionDescription.__eq__ h)
             (function_eq_key h) fs gs fts gts Ef Eg).
  f_equal. apply bool_decide_ext. rewrite En, Ex, Ey.
  split; [by intros ->|by intros [= ->]].
Qed.

(** X18.  On descriptions that can be read, [==] always returns, and
    returns True exactly when the two have the same labels, the same
    parameter names, values and limits, position by position through
    the whole tree (and, for models, the same options); the fixed flags
    play no part. *)
Theorem eq_compares_content :
  (∀ h a b ta tb,
     read_func h a = Some ta → read_func h b = Some tb →
     FunctionDescription.__eq__ h a b = Some (bool_decide (fc_key ta = fc_key tb))) ∧
  (∀ h a b ta tb,
     read_fset h a = Some ta → read_fset h b = Some tb →
     FunctionSetDescription.__eq__ h a b = Some (bool_decide (sc_key ta = sc_key tb))) ∧
  (∀ h a b ma mb tsa tsb,
     get_model h a = Some ma → get_model h b = Some mb →
     read_fsets h (MD._functionSets ma) = Some tsa →
     read_fsets h (MD._functionSets mb) = Some tsb →
     ModelDescription.__eq__ h a b
     = Some (bool_decide (MD.options ma = MD.options mb ∧
                          sc_key <$> tsa = sc_key <$> tsb))).
Proof.
  split; [exact function_eq_key|]. split; [exact function_set_eq_key|].
  intros h a b ma mb tsa tsb Ha Hb Hra Hrb.
  unfold ModelDescription.__eq__, read_fsets in *. rewrite Ha, Hb. simpl.
  destruct (get_list h (MD._functionSets ma)) as [fss|]; [|done]. simpl in *.
  destruct (get_list h (MD._functionSets mb)) as [gss|]; [|done]. simpl in *.
  destruct (bool_decide_reflect (MD.options ma = MD.options mb)) as [Eo|Eo];
    [|f_equal; symmetry; apply bool_decide_eq_false_2; by intros [? ?]].
  rewrite (pylist_eq_key (read_fset h) sc_key (FunctionSetDescription.__eq__ h)
             (function_set_eq_key h) fss gss tsa tsb Hra Hrb).
  f_equal. apply bool_decide_ext. split; [done|by intros [_ ?]].
Qed.

(** X18 on the gaussian model and the same model with the option GAIN,
    built one after the other: they differ by the option only. *)
Lemma eq_compares_content_witness :
  ∃ h a b,
    (do a <- build_gaussian_model ∅;
     do b <- build_gaussian_model {["GAIN" := Q2Qc (9 # 2)]};
     ret (a, b))%heap [] = Some (Ok (a, b), h) ∧
    ModelDescription.__eq__ h a b = Some false ∧
    FunctionSetDescription.__eq__ h 8%nat 19%nat = Some true.
Proof.
  eexists _, _, _. split; [vm_compute; reflexivity|]. split.
  - erewrite (proj2 (proj2 eq_compares_content)); [|reflexivity..].
    vm_compute. reflexivity.
  - erewrite (proj1 (proj2 eq_compares_content)); [|reflexivity..].
    vm_compute. reflexivity.
Defined.

(** ** A deep copy and its source *)

Lemma function_set_functionList_content h s t :
  read_fset h s = Some t →
  FunctionSetDescription.functionList h s = Some (fc_funcType <$> sc_functions t).
Proof.
  unfold read_fset, read_funcs, FunctionSetDescription.functionList. intros H.
  destruct (get_fset h s) as [sd|]; [|done]. simpl in *.
  destruct (get_param h (FSD.x0 sd)) as [px|]; [|done]. simpl in *.
  destruct (get_param h (FSD.y0 sd)) as [py|]; [|done]. simpl in *.
  destruct (get_list h (FSD._functions sd)) as [fl|]; [|done]. simpl in *.
  destruct (mapM (read_func h) fl) as [ts|] eqn:E; [|done].
  injection H as <-. simpl. apply mapM_Some, Forall2_fmap_r.
  apply mapM_Some in E. eapply Forall2_impl; [exact E|].
  intros f tf. unfold read_func. intros Hf.
  destruct (get_func h f) as [fd|]; [|done]. simpl in *.
  destruct (get_list h (FD._parameters fd)) as [ps|]; [|done]. simpl in *.
  destruct (mapM (get_param h) ps) as [pds|]; [|done]. by injection Hf as <-.
Qed.

Lemma model_functionList_content h self m tss :
  get_model h self = Some m →
  read_fsets h (MD._functionSets m) = Some tss →
  ModelDescription.functionList h self
  = Some (concat ((λ t, fc_funcType <$> sc_functions t) <$> tss)).
Proof.
  unfold read_fsets, ModelDescription.functionList. intros Hm H. rewrite Hm. simpl.
  destruct (get_list h (MD._functionSets m)) as [fss|]; [|done]. simpl in *.
  rewrite (functionList_loop_spec h fss ((λ t, fc_funcType <$> sc_functions t) <$> tss) []);
    [done|].
  apply mapM_Some, Forall2_fmap_r. apply mapM_Some in H.
  eapply Forall2_impl; [exact H|]. intros s t. apply function_set_functionList_content.
Qed.

Lemma model_vectors_content h self m tss :
  get_model h self = Some m →
  read_fsets h (MD._functionSets m) = Some tss →
  ModelDescription.getRawParameters h self = Some (PD._value <$> flat_params tss) ∧
  ModelDescription.getParameterLimits h self = Some (PD._limits <$> flat_params tss).
Proof.
  intros Hm Hr. destruct (model_params_content h self m tss Hm Hr) as (ps & Hps & Hpds).
  unfold ModelDescription.getRawParameters, ModelDescription.getParameterLimits.
  rewrite Hps. simpl. split; by apply mapM_field.
Qed.

Lemma masked_is_new (h ext : heap) y o :
  mask (seq 0 (List.length h)) (h ++ ext) !! y = Some o → o ≠ OOther → h !! y = None.
Proof.
  intros Hy Ho. apply mask_lookup_Some in Hy as [?|[Hnin _]]; [done|].
  apply lookup_ge_None. destruct (decide (List.length h ≤ y)%nat); [done|].
  exfalso. apply Hnin, elem_of_seq. lia.
Qed.

(** X19.  [copy.deepcopy] of a function and of a function set returns a
    new object that compares equal to its source under [==], in both
    directions; [copy.deepcopy] of a model returns a new model with the
    raw parameters, the parameter limits and the function list of its
    source.  No object that existed before the call is changed. *)
Theorem deepcopy_equal_to_source :
  (∀ (h : heap) x t,
     read_func h x = Some t →
     ∃ y h', DeepCopy.deepcopy_function x h = Some (Ok y, h') ∧
             unchanged h h' ∧ h !! y = None ∧
             FunctionDescription.__eq__ h' x y = Some true ∧
             FunctionDescription.__eq__ h' y x = Some true) ∧
  (∀ (h : heap) x t,
     read_fset h x = Some t →
     ∃ y h', DeepCopy.deepcopy_function_set x h = Some (Ok y, h') ∧
             unchanged h h' ∧ h !! y = None ∧
             FunctionSetDescription.__eq__ h' x y = Some true ∧
             FunctionSetDescription.__eq__ h' y x = Some true) ∧
  (∀ (h : heap) x m tss,
     get_model h x = Some m →
     read_fsets h (MD._functionSets m) = Some tss →
     ∃ y h', DeepCopy.deepcopy_model x h = Some (Ok y, h') ∧
             unchanged h h' ∧ h !! y = None ∧
             is_Some (ModelDescription.getRawParameters h x) ∧
             ModelDescription.getRawParameters h' y
             = ModelDescription.getRawParameters h x ∧
             ModelDescription.getParameterLimits h' y
             = ModelDescription.getParameterLimits h x ∧
             ModelDescription.functionList h' y = ModelDescription.functionList h x).
Proof.
  split; [|split].
  - intros h x t Hr.
    destruct (deepcopy_function_spec [] (seq 0 (List.length h)) [] h ∅ x t)
      as (y & mm' & ext & Hd & Hy & _).
    + apply Forall_nil_2.
    + apply allocated_seq.
    + intros x' Hx'. by apply not_elem_of_nil in Hx'.
    + by rewrite mask_nil.
    + intros x' y' Hxy. by rewrite lookup_empty in Hxy.
    + exists y, (h ++ ext). split.
      { unfold DeepCopy.deepcopy_function. by rewrite (bind_Ok _ _ _ _ _ Hd). }
      split; [apply unchanged_app|]. split.
      { pose proof (read_func_is_func _ _ _ Hy) as [fd Hfd].
        apply get_func_Some in Hfd. by eapply masked_is_new. }
      pose proof (read_func_le _ _ _ _ (mask_le_heap _ _) Hy) as Hy'.
      pose proof (read_func_le _ _ _ _ (view_le_app h ext) Hr) as Hx'.
      split; by eapply function_eq_same.
  - intros h x t Hr.
    destruct (deepcopy_function_set_spec [] (seq 0 (List.length h)) [] h ∅ x t)
      as (y & mm' & ext & Hd & Hy & _).
    + apply Forall_nil_2.
    + apply allocated_seq.
    + intros x' Hx'. by apply not_elem_of_nil in Hx'.
    + by rewrite mask_nil.
    + intros x' y' Hxy. by rewrite lookup_empty in Hxy.
    + exists y, (h ++ ext). split.
      { unfold DeepCopy.deepcopy_function_set. by rewrite (bind_Ok _ _ _ _ _ Hd). }
      split; [apply unchanged_app|]. split.
      { pose proof (read_fset_is_fset _ _ _ Hy) as [sd Hsd].
        apply get_fset_Some in Hsd. by eapply masked_is_new. }
      pose proof (read_fset_le _ _ _ _ (mask_le_heap _ _) Hy) as Hy'.
      pose proof (read_fset_le _ _ _ _ (view_le_app h ext) Hr) as Hx'.
      split; by eapply function_set_eq_same.
  - intros h x m tss Hm Hr.
    destruct (deepcopy_model_spec h x m tss Hm Hr) as (ext & mo & Hd & Hmo & _ & _ & Hrc).
    apply (read_fsets_le _ _ _ _ (mask_le_heap _ _)) in Hrc.
    destruct (model_vectors_content _ _ _ _ Hm Hr) as [Hv Hl].
    destruct (model_vectors_content _ _ _ _ Hmo Hrc) as [Hv' Hl'].
    exists (List.length h + 1)%nat, (h ++ ext). split; [done|].
    split; [apply unchanged_app|]. split; [apply lookup_ge_None; lia|].
    split; [by rewrite Hv|]. split; [by rewrite Hv, Hv'|]. split; [by rewrite Hl, Hl'|].
    by rewrite (model_functionList_content _ _ _ _ Hm Hr),
               (model_functionList_content _ _ _ _ Hmo Hrc).
Qed.

(** X19 on the gaussian model with the option GAIN, and on its function
    set. *)
Lemma deepcopy_equal_to_source_witness :
  (∃ y h', DeepCopy.deepcopy_function_set 8%nat gain_heap = Some (Ok y, h') ∧
           FunctionSetDescription.__eq__ h' 8%nat y = Some true) ∧
  (∃ y h', DeepCopy.deepcopy_model gain_model gain_heap = Some (Ok y, h') ∧
           ModelDescription.getRawParameters h' y
           = Some [Qc_of_Z 10; Qc_of_Z 20; Qc_of_Z 0; Qc_of_Z 100; Qc_of_Z 2]).
Proof.
  split.
  - destruct (proj1 (proj2 deepcopy_equal_to_source) gain_heap 8%nat _ eq_refl)
      as (y & h' & Hd & _ & _ & He & _).
    exists y, h'. split; [exact Hd|exact He].
  - destruct (proj2 (proj2 deepcopy_equal_to_source) gain_heap gain_model _ _
                eq_refl eq_refl)
      as (y & h' & Hd & _ & _ & _ & Hv & _).
    exists y, h'. split; [exact Hd|]. rewrite Hv. vm_compute. reflexivity.
Defined.

(** X20 on the gaussian model. *)
Lemma deepcopy_made_of_new_objects_witness :
  ∃ y ext m',
    DeepCopy.deepcopy_model gaussian_model gaussian_heap
    = Some (Ok y, gaussian_heap ++ ext) ∧
    (List.length gaussian_heap ≤ y)%nat ∧
    get_model (gaussian_heap ++ ext) y = Some m' ∧
    is_Some (read_fsets (mask (seq 0 (List.length gaussian_heap)) (gaussian_heap ++ ext))
               (MD._functionSets m')).
Proof.
  destruct (proj2 (proj2 deepcopy_made_of_new_objects) gaussian_heap gaussian_model _ _
              eq_refl eq_refl)
    as (y & ext & m' & Hd & Hy & Hm' & Hr).
  exists y, ext, m'. split; [exact Hd|]. split; [exact Hy|]. split; [exact Hm'|].
  rewrite Hr. by eexists.
Defined.

(** X21 on the gaussian model. *)
Lemma deepcopy_model_independent_witness :
  ∃ (c : loc) (h' : heap) (ps ps' : list loc),
    DeepCopy.deepcopy_model gaussian_model gaussian_heap = Some (Ok c, h') ∧
    ModelDescription.parameterList h' gaussian_model = Some ps ∧
    ModelDescription.parameterList h' c = Some ps' ∧
    (∀ p, p ∈ ps → p ∉ ps').
Proof.
  destruct (deepcopy_model_independent gaussian_heap gaussian_model _ _ eq_refl eq_refl)
    as (c & h' & m' & ps & ps' & Hd & _ & Hps & Hps' & Hdisj & _).
  exists c, h', ps, ps'. split; [exact Hd|]. split; [exact Hps|]. split; [exact Hps'|].
  exact Hdisj.
Defined.

(** ** The flat vectors after a parameter is changed *)

Lemma call_param_inv method p (h : heap) r h' :
  call_param method p h = Some (r, h') →
  ∃ pd, get_param h p = Some pd ∧
        match method pd with
        | Ok pd' => r = Ok () ∧ h' = <[p := OParam pd']> h
        | Raise e => r = Raise e ∧ h' = h
        end.
Proof.
  unfold call_param, bind, lift. destruct (get_param h p) as [pd|] eqn:E; [|done].
  intros H. exists pd. split; [done|]. destruct (method pd) as [pd'|e].
  - unfold put in H. destruct (decide (p < List.length h)%nat); [|done].
    by injection H as <- <-.
  - unfold raise in H. by injection H as <- <-.
Qed.

(** Replacing a parameter by a parameter changes no container. *)
Lemma param_update_lookup (h : heap) p pd pd' l :
  h !! p = Some (OParam pd) →
  <[p := OParam pd']> h !! l = if decide (l = p) then Some (OParam pd') else h !! l.
Proof.
  intros H. destruct (decide (l = p)) as [->|Hne].
  - apply list_lookup_insert_eq. by eapply lookup_lt_Some.
  - by apply list_lookup_insert_ne.
Qed.

Lemma get_list_param_update (h : heap) p pd pd' l :
  h !! p = Some (OParam pd) → get_list (<[p := OParam pd']> h) l = get_list h l.
Proof.
  intros H. unfold get_list. rewrite (param_update_lookup h p pd pd' l H).
  destruct (decide (l = p)) as [->|]; [by rewrite H|done].
Qed.

Lemma get_func_param_update (h : heap) p pd pd' l :
  h !! p = Some (OParam pd) → get_func (<[p := OParam pd']> h) l = get_func h l.
Proof.
  intros H. unfold get_func. rewrite (param_update_lookup h p pd pd' l H).
  destruct (decide (l = p)) as [->|]; [by rewrite H|done].
Qed.

Lemma get_fset_param_update (h : heap) p pd pd' l :
  h !! p = Some (OParam pd) → get_fset (<[p := OParam pd']> h) l = get_fset h l.
Proof.
  intros H. unfold get_fset. rewrite (param_update_lookup h p pd pd' l H).
  destruct (decide (l = p)) as [->|]; [by rewrite H|done].
Qed.

Lemma get_model_param_update (h : heap) p pd pd' l :
  h !! p = Some (OParam pd) → get_model (<[p := OParam pd']> h) l = get_model h l.
Proof.
  intros H. unfold get_model. rewrite (param_update_lookup h p pd pd' l H).
  destruct (decide (l = p)) as [->|]; [by rewrite H|done].
Qed.

Lemma get_param_param_update (h : heap) p pd pd' l :
  h !! p = Some (OParam pd) →
  get_param (<[p := OParam pd']> h) l = if decide (l = p) then Some pd' else get_param h l.
Proof.
  intros H. unfold get_param. rewrite (param_update_lookup h p pd pd' l H).
  by destruct (decide (l = p)).
Qed.

Lemma model_parameterList_param_update (h : heap) p pd pd' self :
  h !! p = Some (OParam pd) →
  ModelDescription.parameterList (<[p := OParam pd']> h) self
  = ModelDescription.parameterList h self.
Proof.
  intros H. set (h' := <[p := OParam pd']> h).
  assert (Hf : ∀ f, FunctionDescription.parameterList h' f
                    = FunctionDescription.parameterList h f).
  { intros f. unfold FunctionDescription.parameterList, h'.
    rewrite (get_func_param_update h p pd pd' f H).
    destruct (get_func h f) as [fd|]; [|done]. simpl.
    apply (get_list_param_update h p pd pd' _ H). }
  assert (He : ∀ fl params, FunctionSetDescription.extend_loop h' fl params
                            = FunctionSetDescription.extend_loop h fl params).
  { induction fl as [|f fl IH]; intros params; [done|]. simpl. rewrite Hf.
    destruct (FunctionDescription.parameterList h f) as [ps|]; [|done]. simpl. apply IH. }
  assert (Hs : ∀ s, FunctionSetDescription.parameterList h' s
                    = FunctionSetDescription.parameterList h s).
  { intros s. unfold FunctionSetDescription.parameterList, h'.
    rewrite (get_fset_param_update h p pd pd' s H).
    destruct (get_fset h s) as [sd|]; [|done]. simpl.
    rewrite (get_list_param_update h p pd pd' _ H).
    destruct (get_list h (FSD._functions sd)) as [fl|]; [|done]. simpl. apply He. }
  assert (Hl : ∀ fss params, ModelDescription.parameterList_loop h' fss params
                             = ModelDescription.parameterList_loop h fss params).
  { induction fss as [|s fss IH]; intros params; [done|]. simpl. rewrite Hs.
    destruct (FunctionSetDescription.parameterList h s) as [ps|]; [|done]. simpl. apply IH. }
  unfold ModelDescription.parameterList, h'.
  rewrite (get_model_param_update h p pd pd' self H).
  destruct (get_model h self) as [m|]; [|done]. simpl.
  rewrite (get_list_param_update h p pd pd' _ H).
  destruct (get_list h (MD._functionSets m)) as [fss|]; [|done]. simpl. apply Hl.
Qed.

Lemma field_vector_param_update {A} (field : PD.t → A) (h : heap) p pd pd' ps (vs : list A) :
  h !! p = Some (OParam pd) →
  mapM (λ q, field <$> get_param h q) ps = Some vs →
  mapM (λ q, field <$> get_param (<[p := OParam pd']> h) q) ps
  = Some (zip_with (λ q v, if decide (q = p) then field pd' else v) ps vs).
Proof.
  intros H. revert vs. induction ps as [|q ps IH]; intros vs Hvs.
  - apply mapM_Some, Forall2_nil_inv_l in Hvs as ->. done.
  - apply mapM_Some, Forall2_cons_inv_l in Hvs as (v & vs' & Hq & Hps & ->).
    apply mapM_Some in Hps. apply mapM_Some. simpl. apply Forall2_cons. split.
    + rewrite (get_param_param_update h p pd pd' q H).
      by destruct (decide (q = p)).
    + apply mapM_Some. by apply IH.
Qed.

(** X22.  A method of a [ParameterDescription] called on a parameter
    [p]: when it raises, nothing is changed; when it returns, the
    model's [parameterList()] is the same list of objects, and
    [getRawParameters()] and [getParameterLimits()] are as before except
    at the positions that hold [p], where they show the new value and
    the new limits of [p]. *)
Theorem vectors_follow_parameter_calls (h : heap) (self : loc) (ps : list loc)
    (vs : list Qc) (ls : list (option (Qc * Qc)))
    (method : PD.t → result PD.t) (p : loc) (r : result unit) (h' : heap) :
  ModelDescription.parameterList h self = Some ps →
  ModelDescription.getRawParameters h self = Some vs →
  ModelDescription.getParameterLimits h self = Some ls →
  call_param method p h = Some (r, h') →
  ∃ pd, get_param h p = Some pd ∧
    match method pd with
    | Raise e => r = Raise e ∧ h' = h
    | Ok pd' =>
        r = Ok () ∧ get_param h' p = Some pd' ∧
        ModelDescription.parameterList h' self = Some ps ∧
        ModelDescription.getRawParameters h' self
        = Some (zip_with (λ q v, if decide (q = p) then PD._value pd' else v) ps vs) ∧
        ModelDescription.getParameterLimits h' self
        = Some (zip_with (λ q l, if decide (q = p) then PD._limits pd' else l) ps ls)
    end.
Proof.
  intros Hps Hvs Hls Hcall.
  destruct (call_param_inv _ _ _ _ _ Hcall) as (pd & Hpd & Hres).
  exists pd. split; [done|]. destruct (method pd) as [pd'|e]; [|done].
  destruct Hres as [-> ->]. split; [done|].
  pose proof Hpd as Hp. apply get_param_Some in Hp.
  split; [rewrite (get_param_param_update h p pd pd' p Hp); by rewrite decide_True|].
  pose proof (model_parameterList_param_update h p pd pd' self Hp) as Hsame.
  split; [by rewrite Hsame|].
  unfold ModelDescription.getRawParameters, ModelDescription.getParameterLimits in *.
  rewrite Hsame, Hps in *. simpl in *.
  split; by apply field_vector_param_update with (pd := pd).
Qed.

(** X22 on the gaussian model: [setValue(99)] on its x0, and a
    [setLimits(2, 1)] that raises. *)
Lemma vectors_follow_parameter_calls_witness :
  (∃ h', call_param (ParameterDescription.setValue (Qc_of_Z 99) None None false) 0%nat
           gaussian_heap = Some (Ok (), h') ∧
         ModelDescription.getRawParameters h' gaussian_model
         = Some [Qc_of_Z 99; Qc_of_Z 20; Qc_of_Z 0; Qc_of_Z 100; Qc_of_Z 2]) ∧
  call_param (ParameterDescription.setLimits (Qc_of_Z 2) (Qc_of_Z 1)) 0%nat gaussian_heap
  = Some (Raise (ValueError "v2 must be larger than v1."), gaussian_heap).
Proof.
  split.
  - edestruct (vectors_follow_parameter_calls gaussian_heap gaussian_model)
      with (method := ParameterDescription.setValue (Qc_of_Z 99) None None false)
           (p := 0%nat) (r := Ok ())
      as (pd & Hpd & Hres).
    + vm_compute; reflexivity.
    + vm_compute; reflexivity.
    + vm_compute; reflexivity.
    + vm_compute; reflexivity.
    + vm_compute in Hpd. injection Hpd as <-. vm_compute in Hres.
      destruct Hres as (_ & _ & _ & Hv & _).
      eexists. split; [vm_compute; reflexivity|]. exact Hv.
  - edestruct (vectors_follow_parameter_calls gaussian_heap gaussian_model)
      with (method := ParameterDescription.setLimits (Qc_of_Z 2) (Qc_of_Z 1))
           (p := 0%nat)
           (r := Raise (A := unit) (ValueError "v2 must be larger than v1."))
           (h' := gaussian_heap)
      as (pd & Hpd & Hres).
    + vm_compute; reflexivity.
    + vm_compute; reflexivity.
    + vm_compute; reflexivity.
    + vm_compute; reflexivity.
    + vm_compute; reflexivity.
Defined.
